(** * Easy Highlight: the toggle operation and the colour model of [main.ts]

    A shallow embedding of the plugin's second (extended) snapshot:
    [highlightSelectedText], [countMarkElements], [getColorIndexOffset],
    [getRandomBetween], [rgbToHex], [hexToRGB], [rgbToHue] and
    [sortColorsByBlueToRed], together with the part of the JavaScript
    runtime they rest on (regular expressions, [parseInt], 32-bit bit
    operations, [Array.prototype.sort]).

    Conventions.
    - A JavaScript string is a [string]; its code units are the 8-bit
      characters of [ascii], and indices are [nat].
    - Integer-valued numbers are [Z] inside [number], which adds [NaN] and
      the infinities.  Numbers that are fractions (the hue, the result of
      [Math.random]) are rationals [Q].  The hue is computed as the code
      computes it, in doubles: each [/], [-], [*] and [+] of [rgbToHue] and
      the subtraction of the comparator is rounded by [to_double].  The
      product in [getRandomBetween] is not rounded.
    - The editor is the host's; what it returns is read from a record, and
      what the plugin asks of it is a list of [EditorCall]s. *)

From Stdlib Require Import List String Ascii ZArith NArith QArith Qround Qminmax Lia Lqa Bool Arith.
From Stdlib Require Import Qpower Qreduction Qabs.
From Stdlib Require Import DecimalString HexadecimalString Sorted Permutation.
From Stdlib Require DecimalZ DecimalPos OrderedTypeEx.
Import ListNotations.

Close Scope Q_scope.
Local Open Scope string_scope.
Local Open Scope list_scope.
Local Open Scope nat_scope.

(** ** Strings *)

Module JS.

(** The double quote, which the markup is full of. *)
Definition dq : string := String "034"%char EmptyString.

Definition chars (s : string) : list ascii := list_ascii_of_string s.
Definition text (l : list ascii) : string := string_of_list_ascii l.

(** [s.slice(start, end)] for indices that are not negative. *)
Definition slice (s : string) (start stop : nat) : string :=
  text (firstn (stop - start) (skipn start (chars s))).

(** [`${a}${b}...`] and [join('')]. *)
Definition concat (l : list string) : string :=
  fold_right append EmptyString l.

(** ** Regular expressions

    The four patterns of the source repeat single characters only, so a
    repetition is over a character class.  The matcher is the usual
    backtracking one, in continuation-passing style: alternatives are tried
    in the order ECMAScript prescribes (a greedy quantifier takes as much as
    it can first, a lazy one as little), and the first complete match
    wins. *)

Inductive charclass : Type :=
| CChar (c : ascii)            (* a literal character *)
| CDot                         (* [.]: anything but a line terminator *)
| CNot (cs : list ascii)       (* [[^...]] *)
| COneOf (cs : list ascii)     (* [[...]] *)
| CDigit.                      (* [\d] *)

Inductive regex : Type :=
| REmpty
| RBol                         (* [^], without the multiline flag *)
| RAtom (c : charclass)
| ROpt (c : charclass)         (* [c?] *)
| RStar (c : charclass)        (* [c*] *)
| RPlus (c : charclass)        (* [c+] *)
| RLazyStar (c : charclass)    (* [c*?] *)
| RGroup (i : nat) (r : regex) (* the [i]-th capturing group *)
| RSeq (r1 r2 : regex).

Definition is_digit (c : ascii) : bool :=
  let n := nat_of_ascii c in (48 <=? n)%nat && (n <=? 57)%nat.

Definition is_line_terminator (c : ascii) : bool :=
  let n := nat_of_ascii c in (n =? 10)%nat || (n =? 13)%nat.

Definition mem (c : ascii) (cs : list ascii) : bool :=
  existsb (Ascii.eqb c) cs.

Definition class_matches (cl : charclass) (c : ascii) : bool :=
  match cl with
  | CChar x => Ascii.eqb x c
  | CDot => negb (is_line_terminator c)
  | CNot cs => negb (mem c cs)
  | COneOf cs => mem c cs
  | CDigit => is_digit c
  end.

(** Captures: the text of each group that took part in the match. *)
Definition captures : Type := list (nat * list ascii).

Definition capture (i : nat) (caps : captures) : option (list ascii) :=
  option_map snd (find (fun p => Nat.eqb (fst p) i) caps).

(** A match in progress: the index reached, the input left, the captures. *)
Definition cont : Type := nat -> list ascii -> captures -> option (nat * captures).

Fixpoint star (cl : charclass) (k : cont) (caps : captures)
         (pos : nat) (s : list ascii) {struct s} : option (nat * captures) :=
  match s with
  | c :: s' =>
      if class_matches cl c then
        match star cl k caps (S pos) s' with
        | Some r => Some r
        | None => k pos s caps
        end
      else k pos s caps
  | [] => k pos s caps
  end.

Fixpoint lazy_star (cl : charclass) (k : cont) (caps : captures)
         (pos : nat) (s : list ascii) {struct s} : option (nat * captures) :=
  match k pos s caps with
  | Some r => Some r
  | None =>
      match s with
      | c :: s' =>
          if class_matches cl c then lazy_star cl k caps (S pos) s' else None
      | [] => None
      end
  end.

Definition atom (cl : charclass) (k : cont) (caps : captures)
           (pos : nat) (s : list ascii) : option (nat * captures) :=
  match s with
  | c :: s' => if class_matches cl c then k (S pos) s' caps else None
  | [] => None
  end.

Fixpoint m (r : regex) (k : cont) (pos : nat) (s : list ascii)
         (caps : captures) {struct r} : option (nat * captures) :=
  match r with
  | REmpty => k pos s caps
  | RBol => if (pos =? 0)%nat then k pos s caps else None
  | RAtom cl => atom cl k caps pos s
  | ROpt cl =>
      match atom cl k caps pos s with
      | Some res => Some res
      | None => k pos s caps
      end
  | RStar cl => star cl k caps pos s
  | RPlus cl => atom cl (fun pos' s' caps' => star cl k caps' pos' s') caps pos s
  | RLazyStar cl => lazy_star cl k caps pos s
  | RGroup i r' =>
      m r' (fun pos' s' caps' => k pos' s' ((i, firstn (pos' - pos) s) :: caps'))
        pos s caps
  | RSeq r1 r2 => m r1 (fun pos' s' caps' => m r2 k pos' s' caps') pos s caps
  end.

(** A match that starts at index [pos], where [s] is the input from there
    on: the index just after it and its captures. *)
Definition match_at (r : regex) (pos : nat) (s : list ascii)
  : option (nat * captures) :=
  m r (fun pos' _ caps => Some (pos', caps)) pos s [].

(** The leftmost match at or after [pos]: start, end, captures. *)
Fixpoint search (r : regex) (pos : nat) (s : list ascii)
  : option (nat * nat * captures) :=
  match match_at r pos s with
  | Some (e, caps) => Some (pos, e, caps)
  | None =>
      match s with
      | [] => None
      | _ :: s' => search r (S pos) s'
      end
  end.

(** Every match, left to right, as a global pattern finds them: the scan
    resumes where the last match ended ([skip] counts the characters still
    inside it), one character further after an empty match.  This is what
    [str.match(/.../g)] collects and what [while (re.exec(str))] visits
    when no match is empty. *)
Fixpoint scan (r : regex) (pos skip : nat) (s : list ascii)
  : list (nat * nat * captures) :=
  match skip with
  | S k =>
      match s with
      | [] => []
      | _ :: s' => scan r (S pos) k s'
      end
  | O =>
      match match_at r pos s with
      | Some (e, caps) =>
          (pos, e, caps) ::
          match s with
          | [] => []
          | _ :: s' => scan r (S pos) (e - pos - 1) s'
          end
      | None =>
          match s with
          | [] => []
          | _ :: s' => scan r (S pos) 0 s'
          end
      end
  end.

(** What [exec] returns: [match.index], [match[0]] and the groups. *)
Record MatchResult : Type := mkMatch {
  index : nat;
  whole : string;
  groups : captures
}.

(** [match[i]]: [None] is JavaScript's [undefined]. *)
Definition group (i : nat) (mt : MatchResult) : option string :=
  option_map text (capture i (groups mt)).

(** [re.exec(str)] for a pattern without the global flag. *)
Definition exec (r : regex) (s : string) : option MatchResult :=
  match search r 0 (chars s) with
  | Some (b, e, caps) => Some (mkMatch b (slice s b e) caps)
  | None => None
  end.

(** The successive results of [re.exec(str)] for a global pattern, until
    it returns [null]. *)
Definition exec_all (r : regex) (s : string) : list MatchResult :=
  map (fun '(b, e, caps) => mkMatch b (slice s b e) caps)
      (scan r 0 0 (chars s)).

(** [str.match(re)] for a global pattern: [None] is JavaScript's [null]. *)
Definition match_g (r : regex) (s : string) : option (list string) :=
  match exec_all r s with
  | [] => None
  | ms => Some (map whole ms)
  end.

(** [str.replace(re, repl)] for a global pattern. *)
Fixpoint replace_scan (r : regex) (repl : list ascii) (pos skip : nat)
         (s : list ascii) : list ascii :=
  match skip with
  | S k =>
      match s with
      | [] => []
      | _ :: s' => replace_scan r repl (S pos) k s'
      end
  | O =>
      match match_at r pos s with
      | Some (e, _) =>
          repl ++
          match s with
          | [] => []
          | c :: s' =>
              (if (e =? pos)%nat then [c] else []) ++
              replace_scan r repl (S pos) (e - pos - 1) s'
          end
      | None =>
          match s with
          | [] => []
          | c :: s' => c :: replace_scan r repl (S pos) 0 s'
          end
      end
  end.

Definition replace_g (r : regex) (repl : string) (s : string) : string :=
  text (replace_scan r (chars repl) 0 0 (chars s)).

(** [str.replace(re, repl)] for a pattern without the global flag. *)
Definition replace (r : regex) (repl : string) (s : string) : string :=
  match search r 0 (chars s) with
  | Some (b, e, _) =>
      text (firstn b (chars s) ++ chars repl ++ skipn e (chars s))
  | None => s
  end.

(** A run of literal characters. *)
Fixpoint lit_chars (l : list ascii) : regex :=
  match l with
  | [] => REmpty
  | [c] => RAtom (CChar c)
  | c :: l' => RSeq (RAtom (CChar c)) (lit_chars l')
  end.

Definition lit (s : string) : regex := lit_chars (chars s).

Fixpoint seq_of (rs : list regex) : regex :=
  match rs with
  | [] => REmpty
  | [r] => r
  | r :: rs' => RSeq r (seq_of rs')
  end.

(** ** Numbers *)

Inductive number : Type :=
| Fin (z : Z)
| NaN
| Infinity (negative : bool).

Local Open Scope Z_scope.

(** The double nearest to an integer (ties to even): the integer itself
    below 2^53. *)
Definition round_double (z : Z) : number :=
  let a := Z.abs z in
  if a <? 2 ^ 53 then Fin z
  else
    let e := Z.log2 a - 52 in
    let q := a / 2 ^ e in
    let rest := a mod 2 ^ e in
    let half := 2 ^ (e - 1) in
    let q' := if (half <? rest) || ((rest =? half) && Z.odd q) then q + 1 else q in
    let v := q' * 2 ^ e in
    if 2 ^ 1024 <=? v then Infinity (z <? 0) else Fin (Z.sgn z * v).

(** [ToInt32]. *)
Definition to_int32 (x : number) : Z :=
  match x with
  | Fin z =>
      let w := z mod 2 ^ 32 in
      if w <? 2 ^ 31 then w else w - 2 ^ 32
  | _ => 0
  end.

(** [a | b], [a & b] and [a >> k]. *)
Definition bitor (a b : number) : Z := Z.lor (to_int32 a) (to_int32 b).
Definition bitand (a b : number) : Z := Z.land (to_int32 a) (to_int32 b).
Definition shr (a : number) (k : Z) : Z := Z.shiftr (to_int32 a) (k mod 32).

(** [a + b] and [a % b] on integer-valued numbers. *)
Definition add (a b : number) : number :=
  match a, b with
  | NaN, _ | _, NaN => NaN
  | Infinity n1, Infinity n2 => if Bool.eqb n1 n2 then Infinity n1 else NaN
  | Infinity n, Fin _ | Fin _, Infinity n => Infinity n
  | Fin x, Fin y => round_double (x + y)
  end.

Definition rem (a b : number) : number :=
  match a, b with
  | NaN, _ | _, NaN => NaN
  | Infinity _, _ => NaN
  | Fin x, Infinity _ => Fin x
  | Fin x, Fin y => if y =? 0 then NaN else Fin (Z.rem x y)
  end.

(** [arr[i]]: [None] is [undefined], which is what an index outside the
    array (or [NaN]) reads. *)
Definition array_get {A : Type} (arr : list A) (i : number) : option A :=
  match i with
  | Fin z => if z <? 0 then None else nth_error arr (Z.to_nat z)
  | _ => None
  end.

(** [`${x}`] for a number and for a string that may be [undefined]. *)
Definition Z_to_string (z : Z) : string :=
  DecimalString.NilZero.string_of_int (Z.to_int z).

Definition string_or_undefined (x : option string) : string :=
  match x with
  | Some s => s
  | None => "undefined"
  end.

(** [c.toString(16)] for an integer [c]. *)
Definition toString16 (c : Z) : string :=
  let digits := HexadecimalString.NilZero.string_of_uint (N.to_hex_uint (Z.to_N (Z.abs c))) in
  if c <? 0 then ("-" ++ digits)%string else digits.

(** [s.padStart(n, fill)] for a one-character [fill]. *)
Definition padStart (n : nat) (fill : ascii) (s : string) : string :=
  text (repeat fill (n - String.length s) ++ chars s).

(** *** [parseInt(str, radix)] with an explicit radix of 10 or 16 *)

Definition is_space (c : ascii) : bool :=
  mem c (map ascii_of_nat [9; 10; 11; 12; 13; 32; 160]%nat).

Fixpoint trim_start (s : list ascii) : list ascii :=
  match s with
  | c :: s' => if is_space c then trim_start s' else s
  | [] => []
  end.

Definition digit_value (c : ascii) : option Z :=
  let n := Z.of_nat (nat_of_ascii c) in
  if (48 <=? n) && (n <=? 57) then Some (n - 48)
  else if (97 <=? n) && (n <=? 122) then Some (n - 87)
  else if (65 <=? n) && (n <=? 90) then Some (n - 55)
  else None.

Fixpoint digits_prefix (radix : Z) (s : list ascii) : list Z :=
  match s with
  | c :: s' =>
      match digit_value c with
      | Some d => if d <? radix then d :: digits_prefix radix s' else []
      | None => []
      end
  | [] => []
  end.

Definition digits_value (radix : Z) (ds : list Z) : Z :=
  fold_left (fun acc d => acc * radix + d) ds 0.

(** The sign, and the [0x] or [0X] that radix 16 lets through. *)
Definition split_sign (s : list ascii) : Z * list ascii :=
  match s with
  | c :: s' =>
      if Ascii.eqb c "-" then (-1, s')
      else if Ascii.eqb c "+" then (1, s')
      else (1, s)
  | [] => (1, s)
  end.

Definition strip_0x (s : list ascii) : list ascii :=
  match s with
  | c1 :: c2 :: s' =>
      if Ascii.eqb c1 "0" && (Ascii.eqb c2 "x" || Ascii.eqb c2 "X") then s'
      else s
  | _ => s
  end.

Definition parseInt (str : string) (radix : Z) : number :=
  let s := trim_start (chars str) in
  let '(sign, s) := split_sign s in
  let s := if radix =? 16 then strip_0x s else s in
  match digits_prefix radix s with
  | [] => NaN
  | ds => round_double (sign * digits_value radix ds)
  end.

Local Close Scope Z_scope.

(** *** Fractions *)

(** [Math.floor] and the truncating [%] on exact rationals. *)
Definition Qtrunc (x : Q) : Z :=
  if Qle_bool 0 x then Qfloor x else Qceiling x.

Definition Qrem (x y : Q) : Q :=
  (x - y * inject_Z (Qtrunc (x / y)))%Q.

Definition Qmax3 (a b c : Q) : Q := Qmax (Qmax a b) c.
Definition Qmin3 (a b c : Q) : Q := Qmin (Qmin a b) c.

(** *** Doubles

    A finite double is a fraction [m * 2^e] whose significand [m] has at
    most 53 bits.  [to_double x] is the double nearest to [x], the one with
    the even significand when two are equally near: what every arithmetic
    operation of the language returns for the exact result [x].  The
    exponent is not bounded here: from integer channels no operation of
    [rgbToHue] comes near either end of the range of doubles. *)
Definition pow2 (e : Z) : Q := (2 ^ e)%Q.

(** For [x > 0], the exponent [e] with [2^52 <= x / 2^e < 2^53]. *)
Definition exponent (x : Q) : Z :=
  let e := (Z.log2 (Qnum x) - Z.log2 (Zpos (Qden x)) - 52)%Z in
  if Qle_bool (pow2 52) (x * pow2 (- e))%Q then e else (e - 1)%Z.

(** The integer nearest to [s], the even one of two. *)
Definition nearest_even (s : Q) : Z :=
  let q := Qfloor s in
  let rest := (s - inject_Z q)%Q in
  if Qle_bool rest (1 # 2) then
    if Qeq_bool rest (1 # 2) && Z.odd q then (q + 1)%Z else q
  else (q + 1)%Z.

Definition round_pos (a : Q) : Q :=
  let e := exponent a in
  (inject_Z (nearest_even (a * pow2 (- e))) * pow2 e)%Q.

Definition to_double (x : Q) : Q :=
  let x := Qred x in
  match Qnum x with
  | Z0 => 0%Q
  | Zpos _ => Qred (round_pos x)
  | Zneg _ => Qred (- round_pos (- x))%Q
  end.

(** [x / y], [x - y], [x * y] and [x + y] on doubles. *)
Definition fdiv (x y : Q) : Q := to_double (x / y)%Q.
Definition fsub (x y : Q) : Q := to_double (x - y)%Q.
Definition fmul (x y : Q) : Q := to_double (x * y)%Q.
Definition fadd (x y : Q) : Q := to_double (x + y)%Q.

(** *** [Array.prototype.sort(compare)]

    The built-in is stable: of two elements the comparator does not order,
    the one that came first stays first.  For a consistent comparator that
    fixes the result, which is the one insertion computes: [x], which comes
    before everything in [l], goes in front of the first [y] with
    [compare x y <= 0]. *)
Section Sort.
Context {A : Type}.
Variable compare : A -> A -> Q.

Fixpoint insert (x : A) (l : list A) : list A :=
  match l with
  | [] => [x]
  | y :: l' =>
      if Qle_bool (compare x y) 0 then x :: y :: l'
      else y :: insert x l'
  end.

Fixpoint sort (l : list A) : list A :=
  match l with
  | [] => []
  | x :: l' => insert x (sort l')
  end.
End Sort.

End JS.

Import JS.

(** ** The host: settings, editor, random numbers *)

Record EasyHighlightSettings : Type := mkSettings {
  colors : list string
}.

Definition DEFAULT_SETTINGS : EasyHighlightSettings := mkSettings [].

Record EditorPosition : Type := mkPos {
  line : nat;
  ch : nat
}.

(** What the editor answers when the toggle runs.  Every read of
    [highlightSelectedText] comes before its first write, so one record
    serves the whole call. *)
Record Editor : Type := mkEditor {
  getSelection : string;
  getCursor : EditorPosition;        (* [getCursor()], the head *)
  getCursor_from : EditorPosition;   (* [getCursor('from')] *)
  getCursor_to : EditorPosition;     (* [getCursor('to')] *)
  getLine : nat -> string;
  getValue : string
}.

Record MarkdownView : Type := mkView {
  editor : Editor;
  data : string
}.

(** What the plugin asks of the editor. *)
Inductive EditorCall : Type :=
| replaceRange (replacement : string) (from to : EditorPosition)
| replaceSelection (replacement : string).

(** [Math.random()]: the numbers it is going to return, and how many it has
    returned so far. *)
Record RandomSource : Type := mkRandom {
  samples : nat -> Q;
  drawn : nat
}.

Definition Math_random (rng : RandomSource) : Q * RandomSource :=
  (samples rng (drawn rng), mkRandom (samples rng) (S (drawn rng))).

(** ** The patterns of the source *)

Definition gt : ascii := ">"%char.

(** [/<mark[^>]*>(.*?)<\/mark>/g] *)
Definition markRegex : regex :=
  seq_of [lit "<mark"; RStar (CNot [gt]); RAtom (CChar gt);
          RGroup 1 (RLazyStar CDot); lit "</mark>"].

(** [/<\/?mark[^>]*>/g] *)
Definition markTagRegex : regex :=
  seq_of [RAtom (CChar "<"%char); ROpt (CChar "/"%char); lit "mark";
          RStar (CNot [gt]); RAtom (CChar gt)].

(** [/<mark[^>]*highlightindex=["']?(\d+)["']?[^>]*>/] *)
Definition highlightindexRegex : regex :=
  seq_of [lit "<mark"; RStar (CNot [gt]); lit "highlightindex=";
          ROpt (COneOf ["034"%char; "'"%char]); RGroup 1 (RPlus CDigit);
          ROpt (COneOf ["034"%char; "'"%char]); RStar (CNot [gt]);
          RAtom (CChar gt)].

(** [/^#/] *)
Definition hashRegex : regex := RSeq RBol (RAtom (CChar "#"%char)).

(** ** The plugin *)

Definition getRandomBetween (min max : Z) (rng : RandomSource)
  : Z * RandomSource :=
  let '(u, rng) := Math_random rng in
  ((Qfloor (u * inject_Z (max - min + 1)) + min)%Z, rng).

Definition countMarkElements (view : MarkdownView) : nat :=
  let content := data view in
  match match_g markRegex content with
  | Some markElements => List.length markElements
  | None => 0
  end.

(** A string is truthy when it is not empty. *)
Definition truthy (s : option string) : bool :=
  match s with
  | Some (String _ _) => true
  | _ => false
  end.

Definition getColorIndexOffset (settings : EasyHighlightSettings)
           (view : MarkdownView) (rng : RandomSource) : Z * RandomSource :=
  let content := getValue (editor view) in
  match exec highlightindexRegex content with
  | Some mt =>
      if truthy (group 1 mt) then
        (bitor (parseInt (string_or_undefined (group 1 mt)) 10) (Fin 0), rng)
      else
        getRandomBetween 0 (Z.of_nat (List.length (colors settings))) rng
  | None => getRandomBetween 0 (Z.of_nat (List.length (colors settings))) rng
  end.

(** The [while] loop over the marks of the current line: [isHighlight] and
    [marksToRemove] after it. *)
Definition mark_step (selectedStart selectedEnd : nat)
           (st : bool * list (nat * nat)) (mt : MatchResult)
  : bool * list (nat * nat) :=
  let markStartIndex := index mt in
  let markEndIndex := markStartIndex + String.length (whole mt) in
  if ((selectedStart <? markEndIndex) && (markStartIndex <? selectedEnd))%nat then
    (true, snd st ++ [(markStartIndex, markEndIndex)])
  else st.

Definition mark_loop (lineContent : string) (selectedStart selectedEnd : nat)
  : bool * list (nat * nat) :=
  fold_left (mark_step selectedStart selectedEnd)
            (exec_all markRegex lineContent) (false, []).

(** The body of [marksToRemove.forEach]. *)
Definition remove_mark (lineContent : string) (lineNumber : nat)
           (span : nat * nat) : EditorCall :=
  let '(start, stop) := span in
  let markContent := slice lineContent start stop in
  let unmarkedContent := replace_g markTagRegex EmptyString markContent in
  replaceRange unmarkedContent (mkPos lineNumber start) (mkPos lineNumber stop).

(** The two texts of the insertion path. *)
Definition first_mark (indexOffset : Z) (highlightColor : option string)
           (selectedText : string) : string :=
  concat ["<mark highlightindex="; dq; Z_to_string indexOffset; dq;
          " style="; dq; "background-color: ";
          string_or_undefined highlightColor; ";"; dq; ">";
          selectedText; "</mark>"].

Definition later_mark (highlightColor : option string)
           (selectedText : string) : string :=
  concat ["<mark style="; dq; "background-color: ";
          string_or_undefined highlightColor; ";"; dq; ">";
          selectedText; "</mark>"].

(** [indexOffset + markCount % this.settings.colors.length]: the remainder
    binds tighter than the sum. *)
Definition colorIndexOf (settings : EasyHighlightSettings)
           (indexOffset : Z) (markCount : nat) : number :=
  add (Fin indexOffset)
      (rem (Fin (Z.of_nat markCount))
           (Fin (Z.of_nat (List.length (colors settings))))).

Definition highlightSelectedText (settings : EasyHighlightSettings)
           (view : MarkdownView) (rng : RandomSource)
  : list EditorCall * RandomSource :=
  let editor := editor view in
  let selectedText := getSelection editor in
  if truthy (Some selectedText) then
    let lineNumber := line (getCursor editor) in
    let lineContent := getLine editor lineNumber in
    let selectedStart := ch (getCursor_from editor) in
    let selectedEnd := ch (getCursor_to editor) in
    let '(isHighlight, marksToRemove) :=
      mark_loop lineContent selectedStart selectedEnd in
    if isHighlight then
      (map (remove_mark lineContent lineNumber) marksToRemove, rng)
    else
      let markCount := countMarkElements view in
      let '(indexOffset, rng) := getColorIndexOffset settings view rng in
      let colorIndex := colorIndexOf settings indexOffset markCount in
      let highlightColor := array_get (colors settings) colorIndex in
      if (markCount =? 0)%nat then
        ([replaceSelection (first_mark indexOffset highlightColor selectedText)], rng)
      else
        ([replaceSelection (later_mark highlightColor selectedText)], rng)
  else ([], rng).

(** *** The colour model *)

Record RGB : Type := mkRGB {
  r : Z;
  g : Z;
  b : Z
}.

Definition toHex (c : Z) : string := padStart 2 "0"%char (toString16 c).

Definition rgbToHex (rgb : RGB) : string :=
  concat ["#"; toHex (r rgb); toHex (g rgb); toHex (b rgb)].

Definition hexToRGB (hex : string) : RGB :=
  let trimmedHex := replace hashRegex EmptyString hex in
  let trimmedHex :=
    if (String.length trimmedHex =? 3)%nat then
      concat (map (fun c => String c (String c EmptyString)) (chars trimmedHex))
    else trimmedHex in
  let bigint := parseInt trimmedHex 16 in
  {| r := bitand (Fin (shr bigint 16)) (Fin 255);
     g := bitand (Fin (shr bigint 8)) (Fin 255);
     b := bitand bigint (Fin 255) |}.

(** Every operation rounds to a double, but [%], whose result is exact. *)
Definition rgbToHue (rgb : RGB) : Q :=
  let rr := fdiv (inject_Z (r rgb)) 255 in
  let gg := fdiv (inject_Z (g rgb)) 255 in
  let bb := fdiv (inject_Z (b rgb)) 255 in
  let max := Qmax3 rr gg bb in
  let min := Qmin3 rr gg bb in
  if Qeq_bool max min then 0%Q
  else if Qeq_bool max rr then
    Qrem (fadd (fmul 60 (fdiv (fsub gg bb) (fsub max min))) 360) 360
  else if Qeq_bool max gg then
    Qrem (fadd (fmul 60 (fdiv (fsub bb rr) (fsub max min))) 120) 360
  else if Qeq_bool max bb then
    Qrem (fadd (fmul 60 (fdiv (fsub rr gg) (fsub max min))) 240) 360
  else 0%Q.

(** The objects [{ hex, rgb }] of the first [map]. *)
Record HexRGB : Type := mkHexRGB {
  hex_of : string;
  rgb_of : RGB
}.

Definition byHueDescending (colorA colorB : HexRGB) : Q :=
  let hueA := rgbToHue (rgb_of colorA) in
  let hueB := rgbToHue (rgb_of colorB) in
  fsub hueB hueA.

Definition sortColorsByBlueToRed (colors : list string) : list string :=
  map (fun color => rgbToHex (rgb_of color))
      (sort byHueDescending
            (map (fun hex => mkHexRGB hex (hexToRGB hex)) colors)).

(** ** A one-line document in the editor

    Enough of the host to run the calls of one toggle: the document is one
    line, the selection is [[from, to)] on it.  [replaceRange] and
    [replaceSelection] splice the line; the plugin issues either the former
    only or the latter once, so where the selection goes after a call plays
    no part. *)

Definition splice (s : string) (start stop : nat) (replacement : string)
  : string :=
  text (firstn start (chars s) ++ chars replacement ++ skipn stop (chars s)).

Definition oneLineView (content : string) (from to : nat) : MarkdownView :=
  {| editor :=
       {| getSelection := slice content from to;
          getCursor := mkPos 0 to;
          getCursor_from := mkPos 0 from;
          getCursor_to := mkPos 0 to;
          getLine := fun n => match n with 0 => content | _ => EmptyString end;
          getValue := content |};
     data := content |}.

Definition run_call (from to : nat) (content : string) (call : EditorCall)
  : string :=
  match call with
  | replaceRange replacement p q => splice content (ch p) (ch q) replacement
  | replaceSelection replacement => splice content from to replacement
  end.

Definition run_calls (content : string) (from to : nat)
           (calls : list EditorCall) : string :=
  fold_left (run_call from to) calls content.

(** The toggle on a one-line document: the line afterwards. *)
Definition toggle_line (settings : EasyHighlightSettings) (content : string)
           (from to : nat) (rng : RandomSource) : string :=
  run_calls content from to
    (fst (highlightSelectedText settings (oneLineView content from to) rng)).

(** A source of random numbers that always returns [u]. *)
Definition constant_source (u : Q) : RandomSource := mkRandom (fun _ => u) 0.

(** The palette of the specification's example. *)
Definition blue_green_red : EasyHighlightSettings :=
  mkSettings ["#0000ff"; "#00ff00"; "#ff0000"].

Definition marked_line : string :=
  concat ["a<mark style="; dq; "x"; dq; ">hi</mark>b"].

(** ** Vocabulary of the statements *)

Definition selectedStart (view : MarkdownView) : nat :=
  ch (getCursor_from (editor view)).

Definition selectedEnd (view : MarkdownView) : nat :=
  ch (getCursor_to (editor view)).

Definition currentLine (view : MarkdownView) : string :=
  getLine (editor view) (line (getCursor (editor view))).

(** The span [[markStartIndex, markEndIndex)] of a match of the loop. *)
Definition span_of (mt : MatchResult) : nat * nat :=
  (index mt, index mt + String.length (whole mt)).

Definition mark_spans (lineContent : string) : list (nat * nat) :=
  map span_of (exec_all markRegex lineContent).

Definition overlaps (selStart selEnd : nat) (span : nat * nat) : bool :=
  ((selStart <? snd span) && (fst span <? selEnd))%nat.

Definition isHighlight (view : MarkdownView) : bool :=
  fst (mark_loop (currentLine view) (selectedStart view) (selectedEnd view)).

Definition marksToRemove (view : MarkdownView) : list (nat * nat) :=
  snd (mark_loop (currentLine view) (selectedStart view) (selectedEnd view)).

(** The toggle inserts: something is selected and no mark of the current
    line overlaps the selection. *)
Definition insertion_path (view : MarkdownView) : Prop :=
  getSelection (editor view) <> EmptyString /\ isHighlight view = false.

(** The document has a mark tag that carries a [highlightindex]. *)
Definition tagged (view : MarkdownView) : Prop :=
  exec highlightindexRegex (getValue (editor view)) <> None.

Definition is_replaceSelection (call : EditorCall) : bool :=
  match call with
  | replaceSelection _ => true
  | replaceRange _ _ _ => false
  end.

(** A pattern without capturing groups. *)
Fixpoint groupless (r : regex) : bool :=
  match r with
  | RGroup _ _ => false
  | RSeq r1 r2 => groupless r1 && groupless r2
  | _ => true
  end.

(** A pattern that cannot match without taking a character. *)
Fixpoint consumes (r : regex) : bool :=
  match r with
  | RAtom _ | RPlus _ => true
  | RGroup _ r' => consumes r'
  | RSeq r1 r2 => consumes r1 || consumes r2
  | _ => false
  end.

(** ** Documents of the examples *)

(** One highlight, tagged with offset 2, then plain text. *)
Definition tagged_document : string :=
  (first_mark 2 (Some "#ff0000") "hello" ++ " world")%string.

(** One highlight without a tag (its tagged predecessor was removed, or an
    earlier version of the plugin wrote it), then plain text. *)
Definition untagged_document : string :=
  (later_mark (Some "#ff0000") "hello" ++ " world")%string.

(** ** The colour model: vocabulary *)

Definition is_hex_digit (c : ascii) : bool :=
  match digit_value c with
  | Some d => (d <? 16)%Z
  | None => false
  end.

Definition hex_value (c : ascii) : Z :=
  match digit_value c with
  | Some d => d
  | None => 0%Z
  end.

(** The optional leading [#]. *)
Definition strip_hash (l : list ascii) : list ascii :=
  match l with
  | c :: l' => if Ascii.eqb "#" c then l' else l
  | [] => []
  end.

(** A 3- or 6-digit hex colour, with or without [#], in either case. *)
Definition valid_hex (hex : string) : bool :=
  let ds := strip_hash (chars hex) in
  ((List.length ds =? 3) || (List.length ds =? 6)) && forallb is_hex_digit ds.

Definition lower (c : ascii) : ascii :=
  let n := nat_of_ascii c in
  if (65 <=? n) && (n <=? 90) then ascii_of_nat (n + 32) else c.

(** The 3-digit shorthand written out. *)
Definition expand (ds : list ascii) : list ascii :=
  if List.length ds =? 3 then flat_map (fun c => [c; c]) ds else ds.

(** The canonical form: [#], then six lowercase digits. *)
Definition canonical_hex (hex : string) : string :=
  text ("#"%char :: map lower (expand (strip_hash (chars hex)))).

(** The lowercase digit of a value below 16. *)
Definition hexchar (d : Z) : ascii :=
  if (d <? 10)%Z then ascii_of_nat (Z.to_nat d + 48)
  else ascii_of_nat (Z.to_nat d + 87).

Definition is_byte (c : Z) : Prop := (0 <= c <= 255)%Z.

(** The values of a hex digit. *)
Definition nibbles : list Z := [0; 1; 2; 3; 4; 5; 6; 7; 8; 9; 10; 11; 12; 13; 14; 15]%Z.

(** ** Vocabulary of the sort *)

(** [x] may come before [y] when sorting by [key], largest first. *)
Definition descends {A : Type} (key : A -> Q) (x y : A) : Prop :=
  (key y <= key x)%Q.

Definition has_key {A : Type} (key : A -> Q) (h : Q) (x : A) : bool :=
  Qeq_bool (key x) h.

(** The hue of a colour string, and channels that are bytes. *)
Definition hue_of (color : string) : Q := rgbToHue (hexToRGB color).

Definition bytes (rgb : RGB) : Prop :=
  is_byte (r rgb) /\ is_byte (g rgb) /\ is_byte (b rgb).

(** The fractions that are doubles, and channels of a size at which
    [x / 255] still tells one integer from the next. *)
Definition representable (d : Q) : Prop :=
  exists m e, (Z.abs m <= 2 ^ 53)%Z /\ (d == inject_Z m * pow2 e)%Q.

Definition moderate (rgb : RGB) : Prop :=
  (Z.abs (r rgb) <= 2 ^ 50 /\ Z.abs (g rgb) <= 2 ^ 50 /\
   Z.abs (b rgb) <= 2 ^ 50)%Z.

(** ** The first snapshot of the toggle

    The earlier version of [highlightSelectedText]: the same loop and the
    same removal, and an insertion that rotates through the palette by the
    number of marks alone. *)

Definition highlightSelectedText_first (settings : EasyHighlightSettings)
           (view : MarkdownView) : list EditorCall :=
  let editor := editor view in
  let selectedText := getSelection editor in
  if truthy (Some selectedText) then
    let lineNumber := line (getCursor editor) in
    let lineContent := getLine editor lineNumber in
    let selectedStart := ch (getCursor_from editor) in
    let selectedEnd := ch (getCursor_to editor) in
    let '(isHighlight, marksToRemove) :=
      mark_loop lineContent selectedStart selectedEnd in
    if isHighlight then
      map (remove_mark lineContent lineNumber) marksToRemove
    else
      let markCount := countMarkElements view in
      let colorIndex :=
        rem (Fin (Z.of_nat markCount))
            (Fin (Z.of_nat (List.length (colors settings)))) in
      let highlightColor := array_get (colors settings) colorIndex in
      [replaceSelection (later_mark highlightColor selectedText)]
  else [].

(** ** The settings tab: what its buttons do to the palette *)

(** The [Add] button of the second snapshot: push white, sort by hue. *)
Definition addNewColor (colors : list string) : list string :=
  sortColorsByBlueToRed (colors ++ ["#ffffff"]).

(** The [Delete] button: [colors.splice(index, 1)]. *)
Definition deleteColor (index : nat) (colors : list string) : list string :=
  firstn index colors ++ skipn (S index) colors.

(** The palette is in descending order of hue. *)
Definition hue_descending (colors : list string) : Prop :=
  Sorted (fun x y => (hue_of y <= hue_of x)%Q) colors.

(** The toggle inserts, as a test. *)
Definition is_insertion (view : MarkdownView) : bool :=
  truthy (Some (getSelection (editor view))) && negb (isHighlight view).

Definition is_replaceRange (call : EditorCall) : bool :=
  negb (is_replaceSelection call).

(** The least number of characters a match of a pattern takes. *)
Fixpoint min_len (r : regex) : nat :=
  match r with
  | RAtom _ | RPlus _ => 1
  | RGroup _ r' => min_len r'
  | RSeq r1 r2 => min_len r1 + min_len r2
  | _ => 0
  end.

(** Spans that follow one another from [lo] to [hi] without meeting, each
    at least 13 characters wide: the width of [<mark></mark>]. *)
Fixpoint spans_chain (lo hi : nat) (spans : list (nat * nat)) : Prop :=
  match spans with
  | [] => True
  | (b, e) :: rest => lo <= b /\ b + 13 <= e /\ e <= hi /\ spans_chain e hi rest
  end.

(** ** Vocabulary of the lines with one mark *)

(** The character [x] does not occur. *)
Definition lacksl (x : ascii) (l : list ascii) : bool :=
  forallb (fun c => negb (Ascii.eqb x c)) l.

Definition lacks (x : ascii) (s : string) : bool := lacksl x (chars s).

(** No line terminator occurs. *)
Definition single_line (s : string) : bool :=
  forallb (fun c => negb (is_line_terminator c)) (chars s).

(** The character every match of a pattern starts with, when there is one. *)
Fixpoint first_char (r : regex) : option ascii :=
  match r with
  | RAtom (CChar x) => Some x
  | RGroup _ r' => first_char r'
  | RSeq r1 _ => first_char r1
  | _ => None
  end.

(** A mark element: [<mark], its attributes, [>], its content, [</mark>]. *)
Definition mark_text (attrs inner : string) : string :=
  ("<mark" ++ attrs ++ ">" ++ inner ++ "</mark>")%string.

(** The attributes the two insertions write. *)
Definition style_attr (highlightColor : option string) : string :=
  concat [" style="; dq; "background-color: ";
          string_or_undefined highlightColor; ";"; dq].

Definition first_attrs (indexOffset : Z) (highlightColor : option string)
  : string :=
  concat [" highlightindex="; dq; Z_to_string indexOffset; dq;
          style_attr highlightColor].

(** A mark element after its first character. *)
Definition mark_tail (attrs inner : list ascii) : list ascii :=
  chars "mark" ++ attrs ++ ">"%char :: inner ++ chars "</mark>".




(** ** The default sort and the handlers that use it *)

(** The comparison [colors.sort()] makes without a comparator: strings by
    their code units. *)
Definition defaultCompare (x y : string) : Q :=
  if String.ltb x y then (-1)%Q else if String.ltb y x then 1%Q else 0%Q.

Definition sortDefault (colors : list string) : list string :=
  sort defaultCompare colors.

(** The [Add] button of the first snapshot: [answer] is what [prompt]
    returns, [None] when it is cancelled. *)
Definition addPromptedColor (answer : option string) (colors : list string)
  : list string :=
  if truthy answer then sortDefault (colors ++ [string_or_undefined answer])
  else colors.

(** A text field losing focus: [colors[index] = text.getValue()] and
    [colors.sort()].  The field is the one drawn for [index], which is then
    below the length; past the end the array would get holes, which a list
    of strings does not have: [None]. *)
Definition blurColor (index : nat) (value : string) (colors : list string)
  : option (list string) :=
  if index <? List.length colors then
    Some (sortDefault (firstn index colors ++ value :: skipn (S index) colors))
  else None.

(** The palette is in ascending order of code units. *)
Definition ascending (colors : list string) : Prop :=
  Sorted (fun x y => String.leb x y = true) colors.

(** ** The loop over the marks of the line *)

Lemma mark_step_overlaps (a z : nat) (st : bool * list (nat * nat))
      (mt : MatchResult) :
  mark_step a z st mt =
  if overlaps a z (span_of mt) then (true, snd st ++ [span_of mt]) else st.
Proof. reflexivity. Qed.

Lemma fold_mark_step (a z : nat) (ms : list MatchResult) :
  forall st,
    fold_left (mark_step a z) ms st =
    (fst st || existsb (overlaps a z) (map span_of ms),
     snd st ++ filter (overlaps a z) (map span_of ms)).
Proof.
  induction ms as [|mt ms IH]; intros [flag acc].
  - cbn. now rewrite orb_false_r, app_nil_r.
  - cbn [fold_left map existsb filter]. rewrite IH, mark_step_overlaps.
    destruct (overlaps a z (span_of mt)); cbn [fst snd].
    + now rewrite orb_true_r, <- app_assoc.
    + reflexivity.
Qed.

Lemma mark_loop_filter (lineContent : string) (a z : nat) :
  mark_loop lineContent a z =
  (existsb (overlaps a z) (mark_spans lineContent),
   filter (overlaps a z) (mark_spans lineContent)).
Proof. unfold mark_loop, mark_spans. now rewrite fold_mark_step. Qed.

Lemma overlaps_iff (a z : nat) (span : nat * nat) :
  overlaps a z span = true <-> a < snd span /\ z > fst span.
Proof.
  unfold overlaps. rewrite andb_true_iff, !Nat.ltb_lt. lia.
Qed.

(** ** The paths of the toggle *)

Lemma truthy_nonempty (s : string) :
  truthy (Some s) = true <-> s <> EmptyString.
Proof. destruct s; cbn; split; congruence. Qed.

Lemma toggle_nothing_selected settings view rng :
  getSelection (editor view) = EmptyString ->
  highlightSelectedText settings view rng = ([], rng).
Proof. unfold highlightSelectedText. now intros ->. Qed.

Lemma toggle_removal settings view rng :
  getSelection (editor view) <> EmptyString ->
  isHighlight view = true ->
  highlightSelectedText settings view rng =
  (map (remove_mark (currentLine view) (line (getCursor (editor view))))
       (marksToRemove view), rng).
Proof.
  intros Hsel Hhl. unfold highlightSelectedText.
  apply truthy_nonempty in Hsel. rewrite Hsel.
  unfold isHighlight, marksToRemove, currentLine, selectedStart, selectedEnd in *.
  destruct (mark_loop _ _ _) as [flag marks]. cbn [fst snd] in *.
  now rewrite Hhl.
Qed.

Lemma toggle_insertion settings view rng :
  insertion_path view ->
  highlightSelectedText settings view rng =
  let markCount := countMarkElements view in
  let indexOffset := fst (getColorIndexOffset settings view rng) in
  let highlightColor :=
    array_get (colors settings) (colorIndexOf settings indexOffset markCount) in
  ([replaceSelection
      (if markCount =? 0
       then first_mark indexOffset highlightColor (getSelection (editor view))
       else later_mark highlightColor (getSelection (editor view)))],
   snd (getColorIndexOffset settings view rng)).
Proof.
  intros [Hsel Hhl]. unfold highlightSelectedText.
  apply truthy_nonempty in Hsel. rewrite Hsel.
  unfold isHighlight, currentLine, selectedStart, selectedEnd in Hhl.
  destruct (mark_loop _ _ _) as [flag marks]. cbn [fst] in Hhl. subst flag.
  destruct (getColorIndexOffset settings view rng) as [off rng'].
  cbn [fst snd]. now destruct (countMarkElements view =? 0).
Qed.

(** ** Where a match comes from

    A successful run of the matcher ends in its continuation, further on in
    the input; a pattern without groups hands it the captures it was
    given. *)

Lemma atom_inv cl k caps pos s res :
  atom cl k caps pos s = Some res ->
  exists c s', s = c :: s' /\ class_matches cl c = true /\
               k (S pos) s' caps = Some res.
Proof.
  unfold atom. destruct s as [|c s']; [discriminate|].
  destruct (class_matches cl c) eqn:E; [|discriminate].
  intros H. now exists c, s'.
Qed.

Lemma star_inv cl k caps s :
  forall pos res,
    star cl k caps pos s = Some res ->
    exists pos' s', pos <= pos' /\ k pos' s' caps = Some res.
Proof.
  induction s as [|c s IH]; intros pos res; cbn.
  - intros H. now exists pos, [].
  - destruct (class_matches cl c).
    + destruct (star cl k caps (S pos) s) as [res'|] eqn:E.
      * intros [= <-]. destruct (IH _ _ E) as (pos' & s' & Hle & Hk).
        exists pos', s'. split; [lia | assumption].
      * intros H. now exists pos, (c :: s).
    + intros H. now exists pos, (c :: s).
Qed.

Lemma lazy_star_inv cl k caps s :
  forall pos res,
    lazy_star cl k caps pos s = Some res ->
    exists pos' s', pos <= pos' /\ k pos' s' caps = Some res.
Proof.
  induction s as [|c s IH]; intros pos res; cbn.
  - destruct (k pos [] caps) eqn:E; [|discriminate].
    intros [= <-]. now exists pos, [].
  - destruct (k pos (c :: s) caps) eqn:E.
    + intros [= <-]. now exists pos, (c :: s).
    + destruct (class_matches cl c); [|discriminate].
      intros H. destruct (IH _ _ H) as (pos' & s' & Hle & Hk).
      exists pos', s'. split; [lia | assumption].
Qed.

Lemma m_groupless_inv r :
  groupless r = true ->
  forall k pos s caps res,
    m r k pos s caps = Some res ->
    exists pos' s', pos <= pos' /\ k pos' s' caps = Some res.
Proof.
  induction r as [| |cl|cl|cl|cl|cl|i r IH|r1 IH1 r2 IH2];
    intros Hg k pos s caps res; cbn [m].
  - intros H. now exists pos, s.
  - destruct (pos =? 0); [|discriminate]. intros H. now exists pos, s.
  - intros H. apply atom_inv in H as (c & s' & _ & _ & H).
    exists (S pos), s'. split; [lia | assumption].
  - destruct (atom cl k caps pos s) eqn:E.
    + intros [= <-]. apply atom_inv in E as (c & s' & _ & _ & H).
      exists (S pos), s'. split; [lia | assumption].
    + intros H. now exists pos, s.
  - apply star_inv.
  - intros H. apply atom_inv in H as (c & s' & _ & _ & H).
    apply star_inv in H as (pos' & s'' & Hle & H).
    exists pos', s''. split; [lia | assumption].
  - apply lazy_star_inv.
  - discriminate.
  - cbn in Hg. apply andb_true_iff in Hg as [Hg1 Hg2]. intros H.
    apply (IH1 Hg1) in H as (p1 & s1 & Hle1 & H).
    apply (IH2 Hg2) in H as (p2 & s2 & Hle2 & H).
    exists p2, s2. split; [lia | assumption].
Qed.

Lemma m_advances r :
  forall k pos s caps res,
    m r k pos s caps = Some res ->
    exists pos' s' caps', pos <= pos' /\ k pos' s' caps' = Some res.
Proof.
  induction r as [| |cl|cl|cl|cl|cl|i r IH|r1 IH1 r2 IH2];
    intros k pos s caps res H.
  1-7: apply m_groupless_inv in H as (pos' & s' & Hle & H);
    [now exists pos', s', caps | reflexivity].
  - cbn [m] in H. apply IH in H as (pos' & s' & caps' & Hle & H).
    now exists pos', s', ((i, firstn (pos' - pos) s) :: caps').
  - cbn [m] in H. apply IH1 in H as (p1 & s1 & caps1 & Hle1 & H).
    apply IH2 in H as (p2 & s2 & caps2 & Hle2 & H).
    exists p2, s2, caps2. split; [lia | assumption].
Qed.

Lemma m_consumes r :
  consumes r = true ->
  forall k pos s caps res,
    m r k pos s caps = Some res ->
    exists pos' s' caps', pos < pos' /\ k pos' s' caps' = Some res.
Proof.
  induction r as [| |cl|cl|cl|cl|cl|i r IH|r1 IH1 r2 IH2];
    intros Hc k pos s caps res H; try discriminate Hc.
  - cbn [m] in H. apply atom_inv in H as (c & s' & _ & _ & H).
    exists (S pos), s', caps. split; [lia | assumption].
  - cbn [m] in H. apply atom_inv in H as (c & s' & _ & _ & H).
    apply star_inv in H as (pos' & s'' & Hle & H).
    exists pos', s'', caps. split; [lia | assumption].
  - cbn [m] in H. cbn in Hc. apply (IH Hc) in H as (pos' & s' & caps' & Hlt & H).
    now exists pos', s', ((i, firstn (pos' - pos) s) :: caps').
  - cbn [m] in H. cbn in Hc. apply orb_true_iff in Hc as [Hc|Hc].
    + apply (IH1 Hc) in H as (p1 & s1 & caps1 & Hlt & H).
      apply m_advances in H as (p2 & s2 & caps2 & Hle & H).
      exists p2, s2, caps2. split; [lia | assumption].
    + apply m_advances in H as (p1 & s1 & caps1 & Hle & H).
      apply (IH2 Hc) in H as (p2 & s2 & caps2 & Hlt & H).
      exists p2, s2, caps2. split; [lia | assumption].
Qed.

(** No match of the mark pattern is empty: the loop of the toggle moves on
    at every round, as [scan] does. *)
Lemma mark_match_nonempty (pos e : nat) (s : list ascii) (caps : captures) :
  match_at markRegex pos s = Some (e, caps) -> pos < e.
Proof.
  unfold match_at. intros H.
  apply m_consumes in H as (pos' & s' & caps' & Hlt & H); [|reflexivity].
  injection H as <- _. assumption.
Qed.

Lemma seq_groupless_inv r1 r2 k pos s caps res :
  groupless r1 = true ->
  m (RSeq r1 r2) k pos s caps = Some res ->
  exists pos' s', pos <= pos' /\ m r2 k pos' s' caps = Some res.
Proof. intros Hg H. cbn [m] in H. now apply (m_groupless_inv r1 Hg) in H. Qed.

(** A group around [\d+] captures at least one character. *)
Lemma seq_digits_group_inv i r2 k pos s caps res :
  m (RSeq (RGroup i (RPlus CDigit)) r2) k pos s caps = Some res ->
  exists pos' s' c l,
    m r2 k pos' s' ((i, c :: l) :: caps) = Some res.
Proof.
  cbn [m]. intros H.
  apply atom_inv in H as (c & s0 & -> & _ & H).
  apply star_inv in H as (pos' & s' & Hle & H).
  destruct (pos' - pos) as [|n] eqn:E; [lia|].
  cbn [firstn] in H. now exists pos', s', c, (firstn n s0).
Qed.

Lemma search_inv r s :
  forall pos b e caps,
    search r pos s = Some (b, e, caps) ->
    exists s', match_at r b s' = Some (e, caps).
Proof.
  induction s as [|c s IH]; intros pos b e caps; cbn [search];
    destruct (match_at r pos _) as [[e' caps']|] eqn:E.
  - intros [= <- <- <-]. now exists [].
  - discriminate.
  - intros [= <- <- <-]. now exists (c :: s).
  - apply IH.
Qed.

Lemma highlightindex_group (content : string) (mt : MatchResult) :
  exec highlightindexRegex content = Some mt ->
  exists c l, groups mt = [(1, c :: l)].
Proof.
  unfold exec. destruct (search _ _ _) as [[[b e] caps]|] eqn:E; [|discriminate].
  intros [= <-]. cbn [groups].
  apply search_inv in E as (s' & H). unfold match_at in H.
  unfold highlightindexRegex in H. cbn [seq_of] in H.
  apply seq_groupless_inv in H as (p1 & s1 & _ & H); [|reflexivity].
  apply seq_groupless_inv in H as (p2 & s2 & _ & H); [|reflexivity].
  apply seq_groupless_inv in H as (p3 & s3 & _ & H); [|reflexivity].
  apply seq_groupless_inv in H as (p4 & s4 & _ & H); [|reflexivity].
  apply seq_digits_group_inv in H as (p5 & s5 & c & l & H).
  apply seq_groupless_inv in H as (p6 & s6 & _ & H); [|reflexivity].
  apply seq_groupless_inv in H as (p7 & s7 & _ & H); [|reflexivity].
  apply m_groupless_inv in H as (p8 & s8 & _ & H); [|reflexivity].
  injection H as _ <-. now exists c, l.
Qed.

(** ** The offset *)

Lemma getColorIndexOffset_tagged settings view rng mt :
  exec highlightindexRegex (getValue (editor view)) = Some mt ->
  exists digits,
    group 1 mt = Some digits /\ digits <> EmptyString /\
    getColorIndexOffset settings view rng =
    (bitor (parseInt digits 10) (Fin 0), rng).
Proof.
  intros H. unfold getColorIndexOffset. rewrite H.
  destruct (highlightindex_group _ _ H) as (c & l & Hg).
  unfold group, capture. rewrite Hg. cbn.
  exists (String c (text l)). repeat split. discriminate.
Qed.

Lemma getColorIndexOffset_untagged settings view rng :
  exec highlightindexRegex (getValue (editor view)) = None ->
  getColorIndexOffset settings view rng =
  getRandomBetween 0 (Z.of_nat (List.length (colors settings))) rng.
Proof. intros H. unfold getColorIndexOffset. now rewrite H. Qed.

Lemma bitor_zero (x : number) : bitor x (Fin 0) = to_int32 x.
Proof. unfold bitor. cbn. apply Z.lor_0_r. Qed.

(** ** The toggle: statements *)

Lemma array_get_empty {A : Type} (i : number) : array_get (@nil A) i = None.
Proof.
  destruct i as [z| |n]; cbn; try reflexivity.
  destruct (z <? 0)%Z; [reflexivity|]. now destruct (Z.to_nat z).
Qed.

Lemma slice_nonempty (s : string) (from to : nat) :
  from < to -> to <= String.length s -> slice s from to <> EmptyString.
Proof.
  intros Hlt Hle. unfold slice, text, chars.
  assert (Hlen : List.length (skipn from (list_ascii_of_string s)) =
                 String.length s - from).
  { rewrite length_skipn. f_equal.
    rewrite <- (string_of_list_ascii_of_string s) at 2.
    generalize (list_ascii_of_string s) as l.
    induction l as [|c l IH]; cbn; congruence. }
  destruct (skipn from (list_ascii_of_string s)) as [|c l]; cbn in Hlen; [lia|].
  destruct (to - from) as [|n] eqn:E; [lia|]. cbn. discriminate.
Qed.


(** C6.  Every mark span of the current line is put on the removal list
    exactly when [selectedStart < markEnd] and [selectedEnd > markStart];
    the toggle removes exactly when some span is, and otherwise issues no
    [replaceRange].  When it removes, its calls are the [replaceRange]s of
    the overlapping spans of the line, one for each, in the order of the
    line, and of no other span.  A selection that only touches a span, as
    (0,2) touches (2,8), does not overlap it, while (2,5) overlaps (4,8). *)
Theorem overlap_classification settings view rng :
  (forall span, In span (mark_spans (currentLine view)) ->
     (In span (marksToRemove view) <->
      selectedStart view < snd span /\ selectedEnd view > fst span)) /\
  (forall span, In span (marksToRemove view) ->
     In span (mark_spans (currentLine view))) /\
  (isHighlight view = true <->
   exists span, In span (mark_spans (currentLine view)) /\
                selectedStart view < snd span /\ selectedEnd view > fst span) /\
  (isHighlight view = false ->
   forallb is_replaceSelection
           (fst (highlightSelectedText settings view rng)) = true) /\
  mark_step 0 2 (false, []) (mkMatch 2 "<mark>" []) = (false, []) /\
  mark_step 2 5 (false, []) (mkMatch 4 "<mar" []) = (true, [(4, 8)]) /\
  (getSelection (editor view) <> EmptyString -> isHighlight view = true ->
   highlightSelectedText settings view rng =
   (map (remove_mark (currentLine view) (line (getCursor (editor view))))
        (filter (overlaps (selectedStart view) (selectedEnd view))
                (mark_spans (currentLine view))), rng)) /\
  (getSelection (editor view) <> EmptyString -> isHighlight view = false ->
   exists replacement,
     fst (highlightSelectedText settings view rng) =
     [replaceSelection replacement]).
Proof.
  split; [|split; [|split; [|split; [|split; [|split; [|split]]]]]];
    try reflexivity.
  - unfold marksToRemove. rewrite mark_loop_filter. cbn [snd].
    intros span Hin. rewrite filter_In, overlaps_iff. tauto.
  - unfold marksToRemove. rewrite mark_loop_filter. cbn [snd].
    intros span Hin. now apply filter_In in Hin.
  - unfold isHighlight. rewrite mark_loop_filter. cbn [fst].
    rewrite existsb_exists. split; intros (span & Hin & Hov); exists span.
    + split; [assumption|]. now apply overlaps_iff.
    + split; [assumption|]. now apply overlaps_iff.
  - intros Hno.
    destruct (string_dec (getSelection (editor view)) EmptyString) as [E|E].
    + now rewrite toggle_nothing_selected.
    + rewrite toggle_insertion; [reflexivity|]. now split.
  - intros Hsel Hhl. rewrite toggle_removal by assumption.
    unfold marksToRemove. rewrite mark_loop_filter. reflexivity.
  - intros Hsel Hno. rewrite toggle_insertion by now split.
    cbv zeta. cbn [fst]. eexists. reflexivity.
Qed.

Lemma overlap_classification_witness :
  In (1, 26) (marksToRemove (oneLineView marked_line 17 19)) /\
  ~ In (1, 26) (marksToRemove (oneLineView marked_line 0 1)) /\
  highlightSelectedText DEFAULT_SETTINGS (oneLineView marked_line 17 19)
                        (constant_source 0) =
  ([replaceRange "hi" (mkPos 0 1) (mkPos 0 26)], constant_source 0).
Proof.
  split; [|split].
  - apply (proj1 (overlap_classification DEFAULT_SETTINGS
                    (oneLineView marked_line 17 19) (constant_source 0)) (1, 26)).
    + vm_compute. now left.
    + cbn. lia.
  - intros H.
    apply (proj1 (overlap_classification DEFAULT_SETTINGS
                    (oneLineView marked_line 0 1) (constant_source 0)) (1, 26)) in H.
    + cbn in H. lia.
    + vm_compute. now left.
  - rewrite (proj1 (proj2 (proj2 (proj2 (proj2 (proj2 (proj2
               (overlap_classification DEFAULT_SETTINGS
                  (oneLineView marked_line 17 19) (constant_source 0)))))))));
      vm_compute; (reflexivity || discriminate).
Defined.

(** C2, as the code has it.  With an empty palette the insertion path
    reports nothing and still replaces the selection, by a mark around the
    selected text whose colour reads [undefined]. *)
Theorem empty_palette_still_inserts settings view rng :
  insertion_path view ->
  colors settings = [] ->
  fst (highlightSelectedText settings view rng) =
  [replaceSelection
     (if countMarkElements view =? 0
      then first_mark (fst (getColorIndexOffset settings view rng)) None
                      (getSelection (editor view))
      else later_mark None (getSelection (editor view)))].
Proof.
  intros Hins Hempty. rewrite (toggle_insertion _ _ _ Hins). cbn [fst].
  now rewrite Hempty, array_get_empty.
Qed.

Lemma empty_palette_still_inserts_witness :
  fst (highlightSelectedText DEFAULT_SETTINGS
         (oneLineView "hello world" 0 5) (constant_source (1 # 4))) =
  [replaceSelection (first_mark 0 None "hello")].
Proof.
  rewrite (empty_palette_still_inserts DEFAULT_SETTINGS
             (oneLineView "hello world" 0 5) (constant_source (1 # 4))).
  - vm_compute. reflexivity.
  - split; [discriminate | vm_compute; reflexivity].
  - reflexivity.
Defined.

(** C2, as the specification has it, fails: the default settings have no
    colour, and selecting [hello] in [hello world] takes the insertion path
    and changes the line. *)
Lemma empty_palette_edits_buffer :
  insertion_path (oneLineView "hello world" 0 5) /\
  colors DEFAULT_SETTINGS = [] /\
  fst (highlightSelectedText DEFAULT_SETTINGS
         (oneLineView "hello world" 0 5) (constant_source (1 # 4))) <> [] /\
  toggle_line DEFAULT_SETTINGS "hello world" 0 5 (constant_source (1 # 4)) =
    (first_mark 0 None "hello" ++ " world")%string /\
  toggle_line DEFAULT_SETTINGS "hello world" 0 5 (constant_source (1 # 4)) <>
    "hello world".
Proof.
  split; [split; [discriminate | vm_compute; reflexivity]|].
  split; [reflexivity|].
  split; [vm_compute; discriminate|].
  split; [vm_compute; reflexivity | vm_compute; discriminate].
Qed.

(** C1, at an input where it fails.  In a document whose one mark is tagged
    with offset 2 (so [markCount = 1]) and with three colours, the index is
    [2 + 1 % 3 = 3], not [(2 + 1) mod 3 = 0]: it lies outside the palette,
    and the colour written is [undefined], not the first colour. *)
Theorem color_index_out_of_bounds rng :
  let view := oneLineView tagged_document 73 78 in
  insertion_path view /\
  countMarkElements view = 1 /\
  getColorIndexOffset blue_green_red view rng = (2%Z, rng) /\
  colorIndexOf blue_green_red 2 1 = Fin 3 /\
  ((2 + 1) mod 3 = 0)%Z /\
  array_get (colors blue_green_red) (Fin 3) = None /\
  fst (highlightSelectedText blue_green_red view rng) =
    [replaceSelection (later_mark None "world")] /\
  fst (highlightSelectedText blue_green_red view rng) <>
    [replaceSelection (later_mark (Some "#0000ff") "world")].
Proof.
  cbv zeta.
  split; [split; [vm_compute; discriminate | vm_compute; reflexivity]|].
  split; [vm_compute; reflexivity|].
  split; [vm_compute; reflexivity|].
  split; [vm_compute; reflexivity|].
  split; [reflexivity|].
  split; [reflexivity|].
  split; [vm_compute; reflexivity | vm_compute; discriminate].
Qed.

(** C3, at an input where it fails.  With three colours, a document without
    marks and [Math.random()] returning 0.75, the offset drawn is
    [floor(0.75 * 4) = 3], the length of the palette; it is written into
    the new mark, whose colour is then [undefined]. *)
Theorem random_offset_reaches_length :
  let view := oneLineView "hello world" 0 5 in
  let rng := constant_source (3 # 4) in
  (0 <= 3 # 4)%Q /\ (3 # 4 < 1)%Q /\
  insertion_path view /\
  countMarkElements view = 0 /\
  fst (getColorIndexOffset blue_green_red view rng) =
    Z.of_nat (List.length (colors blue_green_red)) /\
  fst (highlightSelectedText blue_green_red view rng) =
    [replaceSelection (first_mark 3 None "hello")].
Proof.
  cbv zeta.
  split; [discriminate|].
  split; [reflexivity|].
  split; [split; [vm_compute; discriminate | vm_compute; reflexivity]|].
  split; [vm_compute; reflexivity|].
  split; vm_compute; reflexivity.
Qed.

Lemma search_leftmost r s :
  forall pos b e caps,
    search r pos s = Some (b, e, caps) ->
    forall p, pos <= p < b -> match_at r p (skipn (p - pos) s) = None.
Proof.
  induction s as [|c s IH]; intros pos b e caps; cbn [search];
    destruct (match_at r pos _) as [[e' caps']|] eqn:E.
  - intros [= <- <- <-] p Hp. lia.
  - discriminate.
  - intros [= <- <- <-] p Hp. lia.
  - intros H p Hp. destruct (Nat.eq_dec p pos) as [->|Hne].
    + now rewrite Nat.sub_diag.
    + replace (p - pos) with (S (p - S pos)) by lia. cbn [skipn].
      apply (IH _ _ _ _ H). lia.
Qed.

(** C4, as the code has it.  An insertion into a document that already has
    marks never writes a [highlightindex].  When a mark tag of the document
    carries one, the offset is the number its digits denote, as a signed
    32-bit integer, read from the leftmost such tag, and no random number
    is drawn; when none does, the offset is drawn at random. *)
Theorem later_insertion_offset settings view rng :
  insertion_path view ->
  0 < countMarkElements view ->
  (forall mt,
     exec highlightindexRegex (getValue (editor view)) = Some mt ->
     (forall p, p < index mt ->
        match_at highlightindexRegex p
                 (skipn p (chars (getValue (editor view)))) = None) /\
     exists digits,
       group 1 mt = Some digits /\
       getColorIndexOffset settings view rng =
       (to_int32 (parseInt digits 10), rng)) /\
  (exec highlightindexRegex (getValue (editor view)) = None ->
   getColorIndexOffset settings view rng =
   getRandomBetween 0 (Z.of_nat (List.length (colors settings))) rng) /\
  highlightSelectedText settings view rng =
  ([replaceSelection
      (later_mark
         (array_get (colors settings)
            (colorIndexOf settings (fst (getColorIndexOffset settings view rng))
                          (countMarkElements view)))
         (getSelection (editor view)))],
   snd (getColorIndexOffset settings view rng)).
Proof.
  intros Hins Hcount. split; [|split].
  - intros mt Hmt. split.
    + intros p Hp. unfold exec in Hmt.
      destruct (search _ _ _) as [[[b e] caps]|] eqn:E; [|discriminate].
      injection Hmt as <-. cbn [index] in Hp.
      rewrite <- (Nat.sub_0_r p) at 2.
      apply (search_leftmost _ _ _ _ _ _ E). lia.
    + destruct (getColorIndexOffset_tagged settings view rng mt Hmt)
        as (digits & Hg & _ & Hoff).
      exists digits. split; [assumption|]. now rewrite Hoff, bitor_zero.
  - apply getColorIndexOffset_untagged.
  - rewrite (toggle_insertion _ _ _ Hins). cbv zeta.
    destruct (countMarkElements view =? 0) eqn:E; [|reflexivity].
    apply Nat.eqb_eq in E. lia.
Qed.

Lemma later_insertion_offset_witness :
  highlightSelectedText blue_green_red (oneLineView untagged_document 54 59)
                        (constant_source 0) =
  ([replaceSelection (later_mark (Some "#00ff00") "world")],
   mkRandom (fun _ => 0%Q) 1).
Proof.
  assert (Hins : insertion_path (oneLineView untagged_document 54 59))
    by (split; [vm_compute; discriminate | vm_compute; reflexivity]).
  assert (Hcount : 0 < countMarkElements (oneLineView untagged_document 54 59))
    by (vm_compute; lia).
  rewrite (proj2 (proj2 (later_insertion_offset blue_green_red
             (oneLineView untagged_document 54 59) (constant_source 0)
             Hins Hcount))).
  vm_compute. reflexivity.
Defined.

(** C4, as the specification has it, fails: a document can have marks and
    no tag.  Then the offset is not read from the document but drawn, so
    two runs on the same document colour the selection differently. *)
Lemma untagged_offset_is_drawn :
  let view := oneLineView untagged_document 54 59 in
  insertion_path view /\
  countMarkElements view = 1 /\
  exec highlightindexRegex (getValue (editor view)) = None /\
  fst (getColorIndexOffset blue_green_red view (constant_source 0)) = 0%Z /\
  fst (getColorIndexOffset blue_green_red view (constant_source (1 # 3))) = 1%Z /\
  fst (highlightSelectedText blue_green_red view (constant_source 0)) =
    [replaceSelection (later_mark (Some "#00ff00") "world")] /\
  fst (highlightSelectedText blue_green_red view (constant_source (1 # 3))) =
    [replaceSelection (later_mark (Some "#ff0000") "world")].
Proof.
  cbv zeta.
  split; [split; [vm_compute; discriminate | vm_compute; reflexivity]|].
  repeat split; vm_compute; reflexivity.
Qed.

(** C10.  When the document has a mark tag with a [highlightindex], the
    calls the toggle issues do not depend on the random source, and none of
    its numbers is drawn: two runs on the same inputs agree.  (The palette
    may even be empty.) *)
Theorem tagged_toggle_deterministic settings view rng1 rng2 :
  tagged view ->
  fst (highlightSelectedText settings view rng1) =
  fst (highlightSelectedText settings view rng2) /\
  snd (highlightSelectedText settings view rng1) = rng1.
Proof.
  intros Htag. unfold tagged in Htag.
  destruct (exec highlightindexRegex (getValue (editor view))) as [mt|] eqn:Hmt;
    [clear Htag | congruence].
  destruct (string_dec (getSelection (editor view)) EmptyString) as [E|E].
  - now rewrite !toggle_nothing_selected.
  - destruct (isHighlight view) eqn:Hhl.
    + now rewrite !toggle_removal.
    + assert (Hins : insertion_path view) by now split.
      rewrite !(toggle_insertion _ _ _ Hins). cbv zeta. cbn [fst snd].
      destruct (getColorIndexOffset_tagged settings view rng1 mt Hmt)
        as (d1 & Hg1 & _ & H1).
      destruct (getColorIndexOffset_tagged settings view rng2 mt Hmt)
        as (d2 & Hg2 & _ & H2).
      assert (d1 = d2) as -> by congruence.
      rewrite H1, H2. cbn [fst snd]. split; reflexivity.
Qed.

Lemma tagged_toggle_deterministic_witness :
  fst (highlightSelectedText blue_green_red
         (oneLineView tagged_document 73 78) (constant_source 0)) =
  fst (highlightSelectedText blue_green_red
         (oneLineView tagged_document 73 78) (constant_source (1 # 2))).
Proof.
  apply (tagged_toggle_deterministic blue_green_red
           (oneLineView tagged_document 73 78)
           (constant_source 0) (constant_source (1 # 2))).
  unfold tagged. vm_compute. discriminate.
Defined.

(** ** Strings and lists of characters *)

Lemma chars_text (l : list ascii) : chars (text l) = l.
Proof. apply list_ascii_of_string_of_list_ascii. Qed.

Lemma text_chars (s : string) : text (chars s) = s.
Proof. apply string_of_list_ascii_of_string. Qed.

Lemma length_text (l : list ascii) : String.length (text l) = List.length l.
Proof. unfold text. induction l as [|c l IH]; cbn; congruence. Qed.

(** ** [hex.replace(/^#/, '')] *)

Lemma search_hash_later (s : list ascii) :
  forall pos, search hashRegex (S pos) s = None.
Proof. induction s as [|c s IH]; intros pos; cbn; [reflexivity | apply IH]. Qed.

Lemma replace_hash (hex : string) :
  replace hashRegex EmptyString hex = text (strip_hash (chars hex)).
Proof.
  unfold replace. destruct (chars hex) as [|c l] eqn:E.
  - cbn. rewrite <- (text_chars hex), E. reflexivity.
  - cbn [search strip_hash]. unfold match_at, hashRegex. cbn [m Nat.eqb atom].
    cbn [class_matches]. destruct (Ascii.eqb "#" c).
    + reflexivity.
    + rewrite search_hash_later. rewrite <- (text_chars hex), E. reflexivity.
Qed.

(** ** Hex digits *)

Lemma hex_digit_facts (c : ascii) :
  is_hex_digit c = true ->
  digit_value c = Some (hex_value c) /\
  (0 <= hex_value c < 16)%Z /\
  is_space c = false /\
  Ascii.eqb c "-" = false /\ Ascii.eqb c "+" = false /\
  Ascii.eqb c "x" = false /\ Ascii.eqb c "X" = false /\
  hexchar (hex_value c) = lower c.
Proof.
  destruct c as [b0 b1 b2 b3 b4 b5 b6 b7].
  destruct b0, b1, b2, b3, b4, b5, b6, b7;
    (intros H; vm_compute in H; try discriminate H);
    vm_compute; intuition congruence.
Qed.

Lemma hexchar_value (d : Z) :
  (0 <= d < 16)%Z ->
  is_hex_digit (hexchar d) = true /\ hex_value (hexchar d) = d /\
  lower (hexchar d) = hexchar d.
Proof.
  intros H.
  assert (E : In d [0; 1; 2; 3; 4; 5; 6; 7; 8; 9; 10; 11; 12; 13; 14; 15]%Z)
    by (cbn; lia).
  cbn in E. intuition (subst; vm_compute; intuition congruence).
Qed.

Lemma digits_prefix_hex (l : list ascii) :
  forallb is_hex_digit l = true ->
  digits_prefix 16 l = map hex_value l.
Proof.
  induction l as [|c l IH]; cbn [forallb digits_prefix map]; [reflexivity|].
  intros H. apply andb_true_iff in H as [Hc Hl].
  destruct (hex_digit_facts c Hc) as (Hd & Hr & _).
  rewrite Hd, (proj2 (Z.ltb_lt _ _) (proj2 Hr)), (IH Hl). reflexivity.
Qed.

Lemma round_double_small (z : Z) :
  (Z.abs z < 2 ^ 53)%Z -> round_double z = Fin z.
Proof.
  intros H. unfold round_double. now rewrite (proj2 (Z.ltb_lt _ _) H).
Qed.

Lemma parseInt_hex (c1 c2 : ascii) (l : list ascii) :
  forallb is_hex_digit (c1 :: c2 :: l) = true ->
  parseInt (text (c1 :: c2 :: l)) 16 =
  round_double (digits_value 16 (map hex_value (c1 :: c2 :: l))).
Proof.
  intros H. pose proof (digits_prefix_hex _ H) as Hd.
  cbn [forallb] in H. apply andb_true_iff in H as [H1 H].
  apply andb_true_iff in H as [H2 _].
  destruct (hex_digit_facts c1 H1) as (_ & _ & Hs & Hm & Hp & _).
  destruct (hex_digit_facts c2 H2) as (_ & _ & _ & _ & _ & Hx & HX & _).
  unfold parseInt. rewrite chars_text. cbn [trim_start]. rewrite Hs.
  cbn [split_sign]. rewrite Hm, Hp.
  change (16 =? 16)%Z with true. cbn [strip_0x].
  rewrite Hx, HX, andb_false_r, Hd. cbn [map].
  now rewrite Z.mul_1_l.
Qed.

(** ** Bits *)

Lemma to_int32_small (z : Z) :
  (0 <= z < 2 ^ 31)%Z -> to_int32 (Fin z) = z.
Proof.
  intros H. unfold to_int32.
  rewrite Z.mod_small by (change (2 ^ 32)%Z with (2 * 2 ^ 31)%Z; lia).
  now rewrite (proj2 (Z.ltb_lt _ _) (proj2 H)).
Qed.

Lemma bitand_255 (x : number) :
  bitand x (Fin 255) = (to_int32 x mod 256)%Z.
Proof.
  unfold bitand. change (to_int32 (Fin 255)) with (Z.ones 8).
  now rewrite Z.land_ones by lia.
Qed.

Lemma bitand_255_byte (x : number) : is_byte (bitand x (Fin 255)).
Proof.
  rewrite bitand_255. unfold is_byte.
  pose proof (Z.mod_pos_bound (to_int32 x) 256). lia.
Qed.

Lemma shr_small (z k : Z) :
  (0 <= z < 2 ^ 31)%Z -> (0 <= k < 32)%Z ->
  shr (Fin z) k = (z / 2 ^ k)%Z.
Proof.
  intros Hz Hk. unfold shr. rewrite to_int32_small by assumption.
  rewrite Z.mod_small by assumption. apply Z.shiftr_div_pow2. lia.
Qed.

(** The three channels of a number below 2^24. *)
Lemma channels_of_rgb24 (v : Z) :
  (0 <= v < 2 ^ 24)%Z ->
  bitand (Fin (shr (Fin v) 16)) (Fin 255) = (v / 65536)%Z /\
  bitand (Fin (shr (Fin v) 8)) (Fin 255) = ((v / 256) mod 256)%Z /\
  bitand (Fin v) (Fin 255) = (v mod 256)%Z.
Proof.
  intros H.
  assert (H31 : (0 <= v < 2 ^ 31)%Z) by (change (2 ^ 31)%Z with (128 * 2 ^ 24)%Z; lia).
  change (2 ^ 24)%Z with 16777216%Z in H.
  change (2 ^ 31)%Z with 2147483648%Z in H31.
  rewrite !bitand_255, !shr_small by (assumption || lia).
  change (2 ^ 16)%Z with 65536%Z. change (2 ^ 8)%Z with 256%Z.
  assert (H16 : (0 <= v / 65536 < 256)%Z)
    by (split; [apply Z.div_pos | apply Z.div_lt_upper_bound]; lia).
  assert (H8 : (0 <= v / 256 < 65536)%Z)
    by (split; [apply Z.div_pos | apply Z.div_lt_upper_bound]; lia).
  rewrite !to_int32_small by (change (2 ^ 31)%Z with 2147483648%Z; lia).
  split; [|split]; try reflexivity.
  apply Z.mod_small. assumption.
Qed.

Lemma digits_value_six (d1 d2 d3 d4 d5 d6 : Z) :
  digits_value 16 [d1; d2; d3; d4; d5; d6] =
  ((d1 * 16 + d2) * 65536 + (d3 * 16 + d4) * 256 + (d5 * 16 + d6))%Z.
Proof. unfold digits_value. cbn [fold_left]. lia. Qed.

Lemma channels_of_digits (c1 c2 c3 c4 c5 c6 : ascii) :
  forallb is_hex_digit [c1; c2; c3; c4; c5; c6] = true ->
  let bigint := parseInt (text [c1; c2; c3; c4; c5; c6]) 16 in
  bitand (Fin (shr bigint 16)) (Fin 255) = (hex_value c1 * 16 + hex_value c2)%Z /\
  bitand (Fin (shr bigint 8)) (Fin 255) = (hex_value c3 * 16 + hex_value c4)%Z /\
  bitand bigint (Fin 255) = (hex_value c5 * 16 + hex_value c6)%Z.
Proof.
  intros H. cbv zeta. rewrite (parseInt_hex _ _ _ H). cbn [map].
  rewrite digits_value_six.
  cbn [forallb] in H. rewrite !andb_true_iff in H.
  destruct H as (H1 & H2 & H3 & H4 & H5 & H6 & _).
  apply hex_digit_facts in H1 as (_ & H1 & _), H2 as (_ & H2 & _),
    H3 as (_ & H3 & _), H4 as (_ & H4 & _), H5 as (_ & H5 & _),
    H6 as (_ & H6 & _).
  set (v := ((hex_value c1 * 16 + hex_value c2) * 65536 +
             (hex_value c3 * 16 + hex_value c4) * 256 +
             (hex_value c5 * 16 + hex_value c6))%Z).
  assert (Hv : (0 <= v < 16777216)%Z) by (unfold v; lia).
  rewrite round_double_small
    by (change (2 ^ 53)%Z with 9007199254740992%Z; lia).
  destruct (channels_of_rgb24 v) as (Hr & Hg & Hb);
    [change (2 ^ 24)%Z with 16777216%Z; lia|].
  rewrite Hr, Hg, Hb. unfold v.
  split; [|split].
  - symmetry. apply Z.div_unique with
      ((hex_value c3 * 16 + hex_value c4) * 256 + (hex_value c5 * 16 + hex_value c6))%Z; lia.
  - rewrite <- (Z.div_unique
      ((hex_value c1 * 16 + hex_value c2) * 65536 +
       (hex_value c3 * 16 + hex_value c4) * 256 + (hex_value c5 * 16 + hex_value c6))
      256
      ((hex_value c1 * 16 + hex_value c2) * 256 + (hex_value c3 * 16 + hex_value c4))
      (hex_value c5 * 16 + hex_value c6))%Z by lia.
    symmetry. apply Z.mod_unique with (hex_value c1 * 16 + hex_value c2)%Z; lia.
  - symmetry. apply Z.mod_unique with
      ((hex_value c1 * 16 + hex_value c2) * 256 + (hex_value c3 * 16 + hex_value c4))%Z; lia.
Qed.

(** ** From bytes to digits and back *)

Lemma nibble_In (d : Z) : (0 <= d < 16)%Z -> In d nibbles.
Proof. intros H. cbn. lia. Qed.

Lemma toHex_nibbles (hi lo : Z) :
  (0 <= hi < 16)%Z -> (0 <= lo < 16)%Z ->
  toHex (hi * 16 + lo) = text [hexchar hi; hexchar lo].
Proof.
  intros Hhi Hlo.
  assert (Hall :
    forallb (fun x =>
      forallb (fun y =>
        String.eqb (toHex (x * 16 + y)) (text [hexchar x; hexchar y]))
        nibbles) nibbles = true) by (vm_compute; reflexivity).
  rewrite forallb_forall in Hall.
  specialize (Hall hi (nibble_In hi Hhi)). rewrite forallb_forall in Hall.
  specialize (Hall lo (nibble_In lo Hlo)). now apply String.eqb_eq in Hall.
Qed.

Lemma toHex_hex_digits (c1 c2 : ascii) :
  is_hex_digit c1 = true -> is_hex_digit c2 = true ->
  toHex (hex_value c1 * 16 + hex_value c2) = text [lower c1; lower c2].
Proof.
  intros H1 H2.
  destruct (hex_digit_facts c1 H1) as (_ & Hr1 & _ & _ & _ & _ & _ & Hc1).
  destruct (hex_digit_facts c2 H2) as (_ & Hr2 & _ & _ & _ & _ & _ & Hc2).
  now rewrite toHex_nibbles, Hc1, Hc2.
Qed.

Lemma toHex_byte (c : Z) :
  is_byte c -> toHex c = text [hexchar (c / 16); hexchar (c mod 16)].
Proof.
  intros H. unfold is_byte in H.
  rewrite (Z.div_mod c 16) at 1 by lia.
  rewrite (Z.mul_comm 16). apply toHex_nibbles.
  - split; [apply Z.div_pos | apply Z.div_lt_upper_bound]; lia.
  - apply Z.mod_pos_bound. lia.
Qed.

(** ** [hexToRGB] on digits *)

Lemma hexToRGB_six (hex : string) (c1 c2 c3 c4 c5 c6 : ascii) :
  strip_hash (chars hex) = [c1; c2; c3; c4; c5; c6] ->
  forallb is_hex_digit [c1; c2; c3; c4; c5; c6] = true ->
  hexToRGB hex =
  mkRGB (hex_value c1 * 16 + hex_value c2)
        (hex_value c3 * 16 + hex_value c4)
        (hex_value c5 * 16 + hex_value c6).
Proof.
  intros Hs Hd. unfold hexToRGB. rewrite replace_hash, Hs, length_text.
  cbn [List.length Nat.eqb].
  destruct (channels_of_digits _ _ _ _ _ _ Hd) as (Hr & Hg & Hb).
  now rewrite Hr, Hg, Hb.
Qed.

Lemma hexToRGB_three (hex : string) (c1 c2 c3 : ascii) :
  strip_hash (chars hex) = [c1; c2; c3] ->
  forallb is_hex_digit [c1; c2; c3] = true ->
  hexToRGB hex =
  mkRGB (hex_value c1 * 16 + hex_value c1)
        (hex_value c2 * 16 + hex_value c2)
        (hex_value c3 * 16 + hex_value c3).
Proof.
  intros Hs Hd. unfold hexToRGB. rewrite replace_hash, Hs, length_text.
  cbn [List.length Nat.eqb]. rewrite chars_text. cbn [map concat fold_right].
  change (String c1 (String c1 EmptyString) ++
          String c2 (String c2 EmptyString) ++
          String c3 (String c3 EmptyString) ++ EmptyString)%string
    with (text [c1; c1; c2; c2; c3; c3]).
  assert (Hd6 : forallb is_hex_digit [c1; c1; c2; c2; c3; c3] = true).
  { cbn [forallb] in *. rewrite !andb_true_iff in *. tauto. }
  destruct (channels_of_digits _ _ _ _ _ _ Hd6) as (Hr & Hg & Hb).
  now rewrite Hr, Hg, Hb.
Qed.

(** C7.  For a valid 3- or 6-digit hex colour, with or without [#] and in
    either case, [rgbToHex (hexToRGB hex)] is the canonical form: [#] and
    six lowercase digits, the three of the shorthand each doubled. *)
Theorem hex_round_trip (hex : string) :
  valid_hex hex = true ->
  rgbToHex (hexToRGB hex) = canonical_hex hex.
Proof.
  unfold valid_hex, canonical_hex. intros H.
  apply andb_true_iff in H as [Hlen Hd].
  destruct (strip_hash (chars hex)) as [|c1 [|c2 [|c3 l]]] eqn:Hs;
    try discriminate Hlen.
  destruct l as [|c4 [|c5 [|c6 [|c7 l]]]]; try discriminate Hlen.
  - rewrite (hexToRGB_three hex c1 c2 c3 Hs Hd).
    cbn [forallb] in Hd. rewrite !andb_true_iff in Hd.
    destruct Hd as (H1 & H2 & H3 & _).
    unfold rgbToHex. cbn [r g b].
    rewrite !toHex_hex_digits by assumption. reflexivity.
  - rewrite (hexToRGB_six hex c1 c2 c3 c4 c5 c6 Hs Hd).
    cbn [forallb] in Hd. rewrite !andb_true_iff in Hd.
    destruct Hd as (H1 & H2 & H3 & H4 & H5 & H6 & _).
    unfold rgbToHex. cbn [r g b].
    rewrite !toHex_hex_digits by assumption. reflexivity.
Qed.

Lemma hex_round_trip_witness :
  rgbToHex (hexToRGB "#FfA") = "#ffffaa" /\
  rgbToHex (hexToRGB "12aBcD") = "#12abcd".
Proof.
  split.
  - rewrite (hex_round_trip "#FfA"); reflexivity.
  - rewrite (hex_round_trip "12aBcD"); reflexivity.
Defined.

(** C9, as the code has it.  [hexToRGB] has no failure: whatever the
    string, it returns three channels, each an integer from 0 to 255. *)
Theorem hexToRGB_total (hex : string) :
  is_byte (r (hexToRGB hex)) /\
  is_byte (g (hexToRGB hex)) /\
  is_byte (b (hexToRGB hex)).
Proof.
  unfold hexToRGB. cbn [r g b]. repeat split; apply bitand_255_byte.
Qed.

(** C9, as the specification has it, fails: [zzz] has no hex digit and
    [12345678] has eight, and both are given a colour. *)
Lemma invalid_hex_is_accepted :
  valid_hex "zzz" = false /\ hexToRGB "zzz" = mkRGB 0 0 0 /\
  valid_hex "12345678" = false /\ hexToRGB "12345678" = mkRGB 52 86 120.
Proof. repeat split; vm_compute; reflexivity. Qed.

(** ** Rounding to doubles

    [to_double x] is a double, and no double is nearer to [x]; so it is
    monotone, keeps the sign and leaves a double as it is. *)

Section Doubles.
Local Open Scope Q_scope.

Lemma pow2_pos e : 0 < pow2 e.
Proof. apply Qpower_0_lt. reflexivity. Qed.

Lemma pow2_add a b : pow2 (a + b) == pow2 a * pow2 b.
Proof. apply Qpower_plus. discriminate. Qed.

Lemma pow2_cancel e : pow2 e * pow2 (- e) == 1.
Proof. rewrite <- pow2_add, Z.add_opp_diag_r. reflexivity. Qed.

Lemma pow2_Z n : (0 <= n)%Z -> inject_Z (2 ^ n) == pow2 n.
Proof. intros H. unfold pow2. now rewrite Zpower_Qpower. Qed.

Lemma pow2_le a b : (a <= b)%Z -> pow2 a <= pow2 b.
Proof.
  intros H. replace b with (a + (b - a))%Z by lia.
  rewrite pow2_add, <- (pow2_Z (b - a)) by lia.
  assert (1 <= 2 ^ (b - a))%Z by (apply (Z.pow_le_mono_r 2 0); lia).
  rewrite Zle_Qle in H0. change (inject_Z 1) with 1 in H0.
  pose proof (pow2_pos a) as Hp.
  setoid_replace (pow2 a) with (pow2 a * 1) at 1 by ring.
  apply Qmult_le_l; assumption.
Qed.

(** The logarithms of numerator and denominator bracket a positive
    fraction. *)
Lemma log2_bracket (x : Q) :
  0 < x ->
  let l := (Z.log2 (Qnum x) - Z.log2 (Zpos (Qden x)))%Z in
  pow2 (l - 1) < x /\ x < pow2 (l + 1).
Proof.
  intros Hx l. destruct x as [n d]. cbn [Qnum Qden] in *.
  assert (Hn : (0 < n)%Z).
  { unfold Qlt in Hx. cbn in Hx. lia. }
  destruct (Z.log2_spec n Hn) as [Hn1 Hn2].
  destruct (Z.log2_spec (Zpos d) (Pos2Z.is_pos d)) as [Hd1 Hd2].
  set (a := Z.log2 n) in *. set (b := Z.log2 (Zpos d)) in *.
  assert (Ha : (0 <= a)%Z) by apply Z.log2_nonneg.
  assert (Hb : (0 <= b)%Z) by apply Z.log2_nonneg.
  rewrite Zle_Qle in Hn1, Hd1. rewrite Zlt_Qlt in Hn2, Hd2.
  rewrite pow2_Z in Hn1, Hn2, Hd1, Hd2 by lia.
  rewrite (Qmake_Qdiv n d).
  assert (Hdpos : 0 < inject_Z (Zpos d)) by reflexivity.
  subst l. split.
  - apply Qlt_shift_div_l; [assumption|].
    replace (Z.succ b) with (b + 1)%Z in Hd2 by lia.
    replace a with ((a - b - 1) + (b + 1))%Z in Hn1 by lia.
    rewrite pow2_add in Hn1.
    pose proof (pow2_pos (a - b - 1)). nra.
  - apply Qlt_shift_div_r; [assumption|].
    replace (Z.succ a) with ((a - b + 1) + b)%Z in Hn2 by lia.
    rewrite pow2_add in Hn2.
    pose proof (pow2_pos (a - b + 1)). nra.
Qed.

Lemma exponent_bracket (x : Q) :
  0 < x ->
  pow2 52 <= x * pow2 (- exponent x) /\ x * pow2 (- exponent x) < pow2 53.
Proof.
  intros Hx. destruct (log2_bracket x Hx) as [Hlo Hhi].
  unfold exponent.
  set (l := (Z.log2 (Qnum x) - Z.log2 (Zpos (Qden x)))%Z) in *.
  replace (Z.log2 (Qnum x) - Z.log2 (Zpos (Qden x)) - 52)%Z with (l - 52)%Z
    by reflexivity.
  assert (Hup : x * pow2 (- (l - 52)) < pow2 53).
  { replace 53%Z with ((l + 1) + - (l - 52))%Z by lia.
    rewrite pow2_add. pose proof (pow2_pos (- (l - 52))). nra. }
  assert (Hdown : pow2 51 < x * pow2 (- (l - 52))).
  { replace 51%Z with ((l - 1) + - (l - 52))%Z by lia.
    rewrite pow2_add. pose proof (pow2_pos (- (l - 52))). nra. }
  destruct (Qle_bool (pow2 52) (x * pow2 (- (l - 52)))) eqn:E.
  - apply Qle_bool_iff in E. now split.
  - assert (Hlt : x * pow2 (- (l - 52)) < pow2 52).
    { apply Qnot_le_lt. intros H. apply Qle_bool_iff in H. congruence. }
    replace (- (l - 52 - 1))%Z with (- (l - 52) + 1)%Z by lia.
    rewrite pow2_add.
    assert (E1 : pow2 1 == 2) by (vm_compute; reflexivity).
    assert (E51 : pow2 51 == pow2 52 * (1 # 2)) by (vm_compute; reflexivity).
    assert (E53 : pow2 53 == pow2 52 * 2) by (vm_compute; reflexivity).
    rewrite E1, E53. rewrite E51 in Hdown.
    set (p := pow2 52) in *. set (s := x * pow2 (- (l - 52))) in *.
    assert (Hs : x * (pow2 (- (l - 52)) * 2) == s * 2) by (unfold s; ring).
    rewrite Hs. split; lra.
Qed.

Lemma pow2_split (e k : Z) :
  (e <= k)%Z -> pow2 k == inject_Z (2 ^ (k - e)) * pow2 e.
Proof.
  intros H. rewrite pow2_Z by lia. rewrite <- pow2_add.
  now replace (k - e + e)%Z with k by lia.
Qed.

Lemma nearest_even_spec (s : Q) :
  let q := Qfloor s in
  (inject_Z q <= s /\ s < inject_Z q + 1) /\
  ((nearest_even s = q /\ 2 * s <= 2 * inject_Z q + 1) \/
   (nearest_even s = (q + 1)%Z /\ 2 * inject_Z q + 1 <= 2 * s)).
Proof.
  intros q. pose proof (Qfloor_le s) as Hlo. pose proof (Qlt_floor s) as Hhi.
  fold q in Hlo, Hhi. rewrite inject_Z_plus in Hhi.
  change (inject_Z 1) with 1 in Hhi.
  split; [now split|].
  unfold nearest_even. fold q.
  destruct (Qle_bool (s - inject_Z q) (1 # 2)) eqn:E.
  - apply Qle_bool_iff in E.
    destruct (Qeq_bool (s - inject_Z q) (1 # 2) && Z.odd q) eqn:E2.
    + apply andb_true_iff in E2 as [E2 _]. apply Qeq_bool_iff in E2.
      right. split; [reflexivity|lra].
    + left. split; [reflexivity|lra].
  - right. split; [reflexivity|].
    assert (~ s - inject_Z q <= 1 # 2).
    { intros H. apply Qle_bool_iff in H. congruence. }
    apply Qnot_le_lt in H. lra.
Qed.

Lemma round_pos_spec (a : Q) :
  0 < a ->
  exists q e,
    (2 ^ 52 <= q < 2 ^ 53)%Z /\
    (inject_Z q * pow2 e <= a /\ a < (inject_Z q + 1) * pow2 e) /\
    ((round_pos a == inject_Z q * pow2 e /\
      2 * a <= (2 * inject_Z q + 1) * pow2 e) \/
     (round_pos a == (inject_Z q + 1) * pow2 e /\
      (2 * inject_Z q + 1) * pow2 e <= 2 * a)).
Proof.
  intros Ha. destruct (exponent_bracket a Ha) as [Hlo Hhi].
  unfold round_pos. set (e := exponent a) in *.
  set (s := a * pow2 (- e)) in *.
  destruct (nearest_even_spec s) as [[Hq1 Hq2] Hn].
  set (q := Qfloor s) in *.
  pose proof (pow2_pos e) as He.
  assert (Has : a == s * pow2 e).
  { unfold s. rewrite <- Qmult_assoc, (Qmult_comm (pow2 (- e))), pow2_cancel.
    ring. }
  exists q, e. split; [|split].
  - split.
    + replace (2 ^ 52)%Z with (Qfloor (inject_Z (2 ^ 52))) by apply Qfloor_Z.
      apply Qfloor_resp_le. now rewrite pow2_Z by lia.
    + rewrite Zlt_Qlt. rewrite pow2_Z by lia. lra.
  - rewrite Has. split.
    + apply Qmult_le_compat_r; lra.
    + apply Qmult_lt_compat_r; lra.
  - destruct Hn as [[-> Hn]|[-> Hn]]; [left|right].
    + split; [reflexivity|]. rewrite Has.
      setoid_replace (2 * (s * pow2 e)) with ((2 * s) * pow2 e) by ring.
      apply Qmult_le_compat_r; lra.
    + split; [now rewrite inject_Z_plus|]. rewrite Has.
      setoid_replace (2 * (s * pow2 e)) with ((2 * s) * pow2 e) by ring.
      apply Qmult_le_compat_r; lra.
Qed.

Lemma no_double_between (q e : Z) (d : Q) :
  (2 ^ 52 <= q)%Z -> representable d ->
  inject_Z q * pow2 e < d -> d < (inject_Z q + 1) * pow2 e -> False.
Proof.
  intros Hq (m & k & Hm & Hd) Hlo Hhi. rewrite Hd in Hlo, Hhi.
  destruct (Z_le_gt_dec e k) as [Hek|Hek].
  - rewrite (pow2_split e k Hek) in Hlo, Hhi.
    rewrite Qmult_assoc, <- inject_Z_mult in Hlo, Hhi.
    apply Qmult_lt_r in Hlo; [|apply pow2_pos].
    apply Qmult_lt_r in Hhi; [|apply pow2_pos].
    change 1 with (inject_Z 1) in Hhi. rewrite <- inject_Z_plus in Hhi.
    rewrite <- Zlt_Qlt in Hlo, Hhi. lia.
  - rewrite (pow2_split k e) in Hlo by lia.
    rewrite Qmult_assoc, <- inject_Z_mult in Hlo.
    apply Qmult_lt_r in Hlo; [|apply pow2_pos].
    rewrite <- Zlt_Qlt in Hlo.
    assert (2 <= 2 ^ (e - k))%Z.
    { change 2%Z with (2 ^ 1)%Z at 1. apply Z.pow_le_mono_r; lia. }
    assert (2 ^ 53 = 2 ^ 52 * 2)%Z by reflexivity.
    nia.
Qed.

Lemma round_pos_representable (a : Q) : 0 < a -> representable (round_pos a).
Proof.
  intros Ha. destruct (round_pos_spec a Ha) as (q & e & Hq & _ & [[H _]|[H _]]).
  - exists q, e. split; [lia|assumption].
  - exists (q + 1)%Z, e. split; [lia|]. now rewrite inject_Z_plus.
Qed.

Lemma round_pos_positive (a : Q) : 0 < a -> 0 < round_pos a.
Proof.
  intros Ha. destruct (round_pos_spec a Ha) as (q & e & Hq & _ & H).
  pose proof (pow2_pos e) as He.
  assert (0 < inject_Z q).
  { change 0 with (inject_Z 0). rewrite <- Zlt_Qlt. lia. }
  destruct H as [[-> _]|[-> _]]; nra.
Qed.

Lemma round_pos_nearest (a d : Q) :
  0 < a -> representable d -> Qabs (a - round_pos a) <= Qabs (a - d).
Proof.
  intros Ha Hd. destruct (round_pos_spec a Ha) as (q & e & Hq & [Hlo Hhi] & H).
  pose proof (pow2_pos e) as He.
  set (lo := inject_Z q * pow2 e) in *.
  set (hi := (inject_Z q + 1) * pow2 e) in *.
  assert (Hmid : (2 * inject_Z q + 1) * pow2 e == lo + hi)
    by (unfold lo, hi; ring).
  rewrite Hmid in H.
  assert (Hout : d <= lo \/ hi <= d).
  { destruct (Qlt_le_dec lo d) as [H1|H1]; [|now left].
    destruct (Qlt_le_dec d hi) as [H2|H2]; [|now right].
    exfalso. apply (no_double_between q e d); (lia || assumption). }
  apply Qabs_Qle_condition.
  destruct H as [[-> Hr]|[-> Hr]]; destruct Hout as [Hout|Hout].
  - rewrite (Qabs_pos (a - d)) by lra. lra.
  - rewrite (Qabs_neg (a - d)) by lra. lra.
  - rewrite (Qabs_pos (a - d)) by lra. lra.
  - rewrite (Qabs_neg (a - d)) by lra. lra.
Qed.

Lemma to_double_eq (x y : Q) : x == y -> to_double x = to_double y.
Proof. intros H. unfold to_double. now rewrite (Qred_complete x y H). Qed.

#[global] Instance to_double_comp : Proper (Qeq ==> Qeq) to_double.
Proof. intros x y H. now rewrite (to_double_eq x y H). Qed.

Lemma representable_opp (d : Q) : representable d -> representable (- d).
Proof.
  intros (m & e & Hm & Hd). exists (- m)%Z, e. split; [lia|].
  rewrite Hd, inject_Z_opp. ring.
Qed.

Lemma representable_0 : representable 0.
Proof. exists 0%Z, 0%Z. split; [discriminate | reflexivity]. Qed.

(** The three cases of [to_double]. *)
Lemma to_double_cases (x : Q) :
  (x == 0 /\ to_double x = 0) \/
  (0 < x /\ exists a, a == x /\ to_double x == round_pos a) \/
  (x < 0 /\ exists a, a == - x /\ to_double x == - round_pos a).
Proof.
  unfold to_double. pose proof (Qred_correct x) as Hx.
  destruct (Qred x) as [n d] eqn:E. cbn [Qnum]. destruct n as [|p|p].
  - left. split; [|reflexivity]. rewrite <- Hx. reflexivity.
  - right; left. split; [rewrite <- Hx; reflexivity|].
    exists (Zpos p # d). split; [assumption|apply Qred_correct].
  - right; right. split; [rewrite <- Hx; reflexivity|].
    exists (- (Zneg p # d)). split; [now rewrite Hx|apply Qred_correct].
Qed.

#[global] Instance representable_comp : Proper (Qeq ==> iff) representable.
Proof.
  intros x y H. unfold representable.
  split; intros (m & e & Hm & Hd); exists m, e; split; try assumption.
  - now rewrite <- H.
  - now rewrite H.
Qed.

Lemma to_double_representable (x : Q) : representable (to_double x).
Proof.
  destruct (to_double_cases x) as [[_ E]|[[Hx (a & Ha & E)]|[Hx (a & Ha & E)]]];
    rewrite E.
  - apply representable_0.
  - apply round_pos_representable. now rewrite Ha.
  - apply representable_opp, round_pos_representable. rewrite Ha. lra.
Qed.

Lemma to_double_nearest (x d : Q) :
  representable d -> Qabs (x - to_double x) <= Qabs (x - d).
Proof.
  intros Hd.
  destruct (to_double_cases x) as [[H0 E]|[[Hx (a & Ha & E)]|[Hx (a & Ha & E)]]];
    rewrite E.
  - rewrite H0. setoid_replace (0 - 0) with 0 by ring. apply Qabs_nonneg.
  - rewrite <- Ha. apply round_pos_nearest; [now rewrite Ha|assumption].
  - assert (Hxa : x == - a) by (rewrite Ha; ring).
    setoid_replace (x - - round_pos a) with (- (a - round_pos a))
      by (rewrite Hxa; ring).
    setoid_replace (x - d) with (- (a - - d)) by (rewrite Hxa; ring).
    rewrite !Qabs_opp.
    apply round_pos_nearest; [rewrite Ha; lra|now apply representable_opp].
Qed.

Lemma to_double_exact (d : Q) : representable d -> to_double d == d.
Proof.
  intros Hd. pose proof (to_double_nearest d d Hd) as H.
  setoid_replace (d - d) with 0 in H by ring.
  change (Qabs 0) with 0 in H.
  apply Qabs_Qle_condition in H. lra.
Qed.

Lemma to_double_monotone (x y : Q) : x <= y -> to_double x <= to_double y.
Proof.
  intros Hxy. apply Qnot_lt_le. intros Hlt.
  pose proof (to_double_nearest x (to_double y) (to_double_representable y)) as Hx.
  pose proof (to_double_nearest y (to_double x) (to_double_representable x)) as Hy.
  set (a := to_double x) in *. set (b := to_double y) in *.
  assert (Hmid1 : a + b <= 2 * x).
  { apply Qabs_Qle_condition in Hx.
    destruct (Qlt_le_dec x b) as [H|H].
    - rewrite (Qabs_neg (x - b)) in Hx by lra. lra.
    - rewrite (Qabs_pos (x - b)) in Hx by lra. lra. }
  assert (Hmid2 : 2 * y <= a + b).
  { apply Qabs_Qle_condition in Hy.
    destruct (Qlt_le_dec a y) as [H|H].
    - rewrite (Qabs_pos (y - a)) in Hy by lra. lra.
    - rewrite (Qabs_neg (y - a)) in Hy by lra. lra. }
  assert (E : x == y) by lra.
  unfold a, b in Hlt. rewrite (to_double_eq x y E) in Hlt.
  apply (Qlt_irrefl _ Hlt).
Qed.

Lemma to_double_positive (x : Q) : 0 < x -> 0 < to_double x.
Proof.
  intros Hx.
  destruct (to_double_cases x) as [[H0 _]|[[_ (a & Ha & E)]|[H _]]]; try lra.
  rewrite E. apply round_pos_positive. now rewrite Ha.
Qed.

Lemma to_double_opp (x : Q) : to_double (- x) == - to_double x.
Proof.
  unfold to_double. rewrite Qred_opp.
  destruct (Qred x) as [n d]. destruct n as [|p|p]; cbn [Qnum Qopp Z.opp].
  - reflexivity.
  - rewrite !Qred_correct. reflexivity.
  - rewrite !Qred_correct. cbn [Qopp Qnum Qden Z.opp]. ring.
Qed.

Lemma to_double_sign (x : Q) : to_double x <= 0 <-> x <= 0.
Proof.
  split; intros H.
  - apply Qnot_lt_le. intros Hx. apply to_double_positive in Hx. lra.
  - apply to_double_monotone in H. exact H.
Qed.

Lemma to_double_le (x c : Q) : to_double c == c -> x <= c -> to_double x <= c.
Proof. intros Hc H. rewrite <- Hc. now apply to_double_monotone. Qed.

Lemma to_double_ge (x c : Q) : to_double c == c -> c <= x -> c <= to_double x.
Proof. intros Hc H. rewrite <- Hc. now apply to_double_monotone. Qed.

End Doubles.

(** The comparator rounds the difference of the two hues; the sign of the
    difference is kept. *)
Lemma byHueDescending_sign (x y : HexRGB) :
  (byHueDescending x y <= 0)%Q <->
  (rgbToHue (rgb_of y) <= rgbToHue (rgb_of x))%Q.
Proof.
  unfold byHueDescending, fsub. rewrite to_double_sign. split; intros; lra.
Qed.

(** ** Sorting by a key, largest first

    What follows holds of [sort] for any comparator that has the sign of
    the difference of a key, whatever the key. *)

Section SortByKey.
Context {A : Type}.
Variable key : A -> Q.
Variable compare : A -> A -> Q.
Hypothesis compare_key :
  forall x y, (compare x y <= 0)%Q <-> (key y <= key x)%Q.

Lemma compare_le (x y : A) :
  Qle_bool (compare x y) 0 = true <-> (key y <= key x)%Q.
Proof. rewrite Qle_bool_iff. apply compare_key. Qed.

Lemma compare_gt (x y : A) :
  Qle_bool (compare x y) 0 = false -> (key x < key y)%Q.
Proof.
  intros H. destruct (Qlt_le_dec (key x) (key y)) as [Hlt|Hle]; [assumption|].
  apply compare_le in Hle. congruence.
Qed.

Lemma insert_front (x : A) (l : list A) :
  HdRel (descends key) x l -> insert compare x l = x :: l.
Proof.
  intros H. destruct H as [|y l H]; cbn; [reflexivity|].
  now rewrite (proj2 (compare_le x y) H).
Qed.

Lemma sort_descending_id (l : list A) :
  Sorted (descends key) l -> sort compare l = l.
Proof.
  induction 1 as [|x l Hs IH Hhd]; cbn; [reflexivity|].
  rewrite IH. now apply insert_front.
Qed.

Lemma insert_descending (x : A) (l : list A) :
  Sorted (descends key) l -> Sorted (descends key) (insert compare x l).
Proof.
  induction 1 as [|y l Hs IH Hhd]; cbn.
  - repeat constructor.
  - destruct (Qle_bool (compare x y) 0) eqn:E.
    + apply compare_le in E. repeat constructor; assumption.
    + apply compare_gt in E. constructor; [assumption|].
      destruct Hhd as [|z l Hz]; cbn.
      * constructor. unfold descends. lra.
      * destruct (Qle_bool (compare x z) 0); constructor;
          unfold descends in *; lra.
Qed.

Lemma sort_descending (l : list A) : Sorted (descends key) (sort compare l).
Proof.
  induction l as [|x l IH]; cbn; [constructor|].
  now apply insert_descending.
Qed.

Lemma sort_idempotent (l : list A) :
  sort compare (sort compare l) = sort compare l.
Proof. apply sort_descending_id, sort_descending. Qed.

Lemma filter_insert (h : Q) (x : A) (l : list A) :
  filter (has_key key h) (insert compare x l) = filter (has_key key h) (x :: l).
Proof.
  induction l as [|y l IH]; [reflexivity|]. cbn [insert].
  destruct (Qle_bool (compare x y) 0) eqn:E; [reflexivity|].
  apply compare_gt in E. cbn [filter] in *. rewrite IH.
  destruct (has_key key h x) eqn:Hx; [|reflexivity].
  destruct (has_key key h y) eqn:Hy; [|reflexivity].
  unfold has_key in Hx, Hy. apply Qeq_bool_iff in Hx, Hy. lra.
Qed.

Lemma sort_stable (h : Q) (l : list A) :
  filter (has_key key h) (sort compare l) = filter (has_key key h) l.
Proof.
  induction l as [|x l IH]; [reflexivity|]. cbn [sort].
  rewrite filter_insert. cbn [filter]. now rewrite IH.
Qed.
End SortByKey.

Section SortFacts.
Context {A : Type}.
Variable compare : A -> A -> Q.

Lemma insert_Forall (P : A -> Prop) (x : A) (l : list A) :
  P x -> Forall P l -> Forall P (insert compare x l).
Proof.
  intros Hx. induction 1 as [|y l Hy Hl IH]; cbn.
  - now repeat constructor.
  - destruct (Qle_bool (compare x y) 0); repeat constructor; assumption.
Qed.

Lemma sort_Forall (P : A -> Prop) (l : list A) :
  Forall P l -> Forall P (sort compare l).
Proof.
  induction 1 as [|x l Hx Hl IH]; cbn; [constructor|].
  now apply insert_Forall.
Qed.

Lemma sort_map (f : A -> A) (l : list A) :
  (forall x y, compare (f x) (f y) = compare x y) ->
  sort compare (map f l) = map f (sort compare l).
Proof.
  intros Hf.
  assert (Hins : forall x l', insert compare (f x) (map f l') =
                              map f (insert compare x l')).
  { intros x l'. induction l' as [|y l' IH]; cbn; [reflexivity|].
    rewrite Hf. destruct (Qle_bool (compare x y) 0); cbn; [reflexivity|].
    now rewrite IH. }
  induction l as [|x l IH]; cbn; [reflexivity|].
  now rewrite IH, Hins.
Qed.
End SortFacts.

Lemma Sorted_map {A B : Type} (R : A -> A -> Prop) (R' : B -> B -> Prop)
      (P : A -> Prop) (f : A -> B) (l : list A) :
  (forall x y, P x -> P y -> R x y -> R' (f x) (f y)) ->
  Forall P l -> Sorted R l -> Sorted R' (map f l).
Proof.
  intros Hf HP Hs. induction Hs as [|x l Hs IH Hhd]; cbn; [constructor|].
  inversion HP as [|? ? Hx Hl]; subst. constructor; [now apply IH|].
  destruct Hhd as [|y l Hxy]; cbn; constructor.
  inversion Hl; subst. now apply Hf.
Qed.

Lemma filter_map_swap {A B : Type} (p : B -> bool) (f : A -> B) (l : list A) :
  filter p (map f l) = map f (filter (fun x => p (f x)) l).
Proof.
  induction l as [|x l IH]; cbn; [reflexivity|].
  destruct (p (f x)); cbn; now rewrite IH.
Qed.

(** ** The sort of the palette *)

Lemma hexToRGB_rgbToHex (rgb : RGB) :
  bytes rgb -> hexToRGB (rgbToHex rgb) = rgb.
Proof.
  destruct rgb as [cr cg cb]. intros (Hr & Hg & Hb). cbn [r g b] in *.
  unfold rgbToHex. cbn [r g b].
  rewrite (toHex_byte cr Hr), (toHex_byte cg Hg), (toHex_byte cb Hb).
  unfold is_byte in *.
  assert (Hd : forall c, (0 <= c <= 255)%Z ->
                         (0 <= c / 16 < 16)%Z /\ (0 <= c mod 16 < 16)%Z).
  { intros c Hc. split; [split; [apply Z.div_pos | apply Z.div_lt_upper_bound];
      lia | apply Z.mod_pos_bound; lia]. }
  destruct (Hd cr Hr) as [Hr1 Hr2], (Hd cg Hg) as [Hg1 Hg2],
    (Hd cb Hb) as [Hb1 Hb2].
  destruct (hexchar_value _ Hr1) as (Dr1 & Vr1 & _),
    (hexchar_value _ Hr2) as (Dr2 & Vr2 & _),
    (hexchar_value _ Hg1) as (Dg1 & Vg1 & _),
    (hexchar_value _ Hg2) as (Dg2 & Vg2 & _),
    (hexchar_value _ Hb1) as (Db1 & Vb1 & _),
    (hexchar_value _ Hb2) as (Db2 & Vb2 & _).
  rewrite (hexToRGB_six _ (hexchar (cr / 16)) (hexchar (cr mod 16))
             (hexchar (cg / 16)) (hexchar (cg mod 16))
             (hexchar (cb / 16)) (hexchar (cb mod 16))).
  - rewrite Vr1, Vr2, Vg1, Vg2, Vb1, Vb2.
    f_equal; rewrite Z.mul_comm; symmetry; apply Z.div_mod; lia.
  - reflexivity.
  - cbn [forallb]. now rewrite Dr1, Dr2, Dg1, Dg2, Db1, Db2.
Qed.

Lemma hexToRGB_bytes (hex : string) : bytes (hexToRGB hex).
Proof.
  unfold bytes, hexToRGB. cbn [r g b].
  split; [|split]; apply bitand_255_byte.
Qed.

(** C8.  [sortColorsByBlueToRed] puts the palette in descending order of
    hue, the hue being the double [rgbToHue] returns; sorting its result
    again changes nothing; and the colours of any one hue come out in the
    order they came in (each in the form [rgbToHex] gives it). *)
Theorem sort_idempotent_and_stable (colors : list string) :
  sortColorsByBlueToRed (sortColorsByBlueToRed colors) =
    sortColorsByBlueToRed colors /\
  (forall h : Q,
     filter (fun color => Qeq_bool (hue_of color) h)
            (sortColorsByBlueToRed colors) =
     map (fun color => rgbToHex (hexToRGB color))
         (filter (fun color => Qeq_bool (hue_of color) h) colors)) /\
  Sorted (fun x y => (hue_of y <= hue_of x)%Q) (sortColorsByBlueToRed colors).
Proof.
  set (key := fun color : HexRGB => rgbToHue (rgb_of color)).
  assert (Hkey : forall x y, (byHueDescending x y <= 0)%Q <->
                             (key y <= key x)%Q)
    by (intros x y; apply byHueDescending_sign).
  set (mk := fun hex => mkHexRGB hex (hexToRGB hex)).
  set (out := fun color : HexRGB => rgbToHex (rgb_of color)).
  set (sorted := sort byHueDescending (map mk colors)).
  assert (Hbytes : Forall (fun color => bytes (rgb_of color)) sorted).
  { apply sort_Forall, Forall_forall. intros color Hin.
    apply in_map_iff in Hin as (hex & <- & _). apply hexToRGB_bytes. }
  assert (Hback : forall color, bytes (rgb_of color) ->
                                hexToRGB (out color) = rgb_of color)
    by (intros color Hc; now apply hexToRGB_rgbToHex).
  change (sortColorsByBlueToRed colors) with (map out sorted).
  split; [|split].
  - unfold sortColorsByBlueToRed. fold mk out. rewrite map_map.
    set (again := fun color => mkHexRGB (out color) (rgb_of color)).
    assert (E : map (fun color => mk (out color)) sorted = map again sorted).
    { apply map_ext_in. intros color Hin. unfold mk, again.
      rewrite Forall_forall in Hbytes. now rewrite Hback by now apply Hbytes. }
    rewrite E, sort_map by reflexivity.
    unfold sorted at 1. rewrite (sort_idempotent key _ Hkey). fold sorted.
    rewrite map_map. reflexivity.
  - intros h. rewrite filter_map_swap.
    assert (E : filter (fun color => Qeq_bool (hue_of (out color)) h) sorted =
                filter (has_key key h) sorted).
    { apply filter_ext_in. intros color Hin. unfold hue_of, has_key, key.
      rewrite Forall_forall in Hbytes. now rewrite Hback by now apply Hbytes. }
    rewrite E. unfold sorted. rewrite (sort_stable key _ Hkey).
    rewrite filter_map_swap, map_map. reflexivity.
  - apply Sorted_map with (R := descends key)
                          (P := fun color => bytes (rgb_of color)).
    + intros x y Hx Hy H. unfold hue_of. now rewrite !Hback.
    + assumption.
    + apply (sort_descending key _ Hkey).
Qed.

(** The hue is the rounded one.  [#000a11] and [#001e33] have the same hue,
    3480/17, in exact arithmetic; the doubles computed for them differ in
    the last place, and the sort puts the second colour first. *)
Lemma rounded_hues_differ :
  (hue_of "#000a11" == 3601223966739275 # 17592186044416)%Q /\
  (hue_of "#001e33" == 7202447933478551 # 35184372088832)%Q /\
  (hue_of "#000a11" < hue_of "#001e33")%Q /\
  sortColorsByBlueToRed ["#000a11"; "#001e33"] = ["#001e33"; "#000a11"].
Proof.
  split; [|split; [|split]]; vm_compute; reflexivity.
Qed.

(** ** Further properties of the code *)

(** *** [getRandomBetween] *)



(** *** From channels to a colour string and back *)

Lemma text_length_two (c1 c2 : ascii) : String.length (text [c1; c2]) = 2.
Proof. reflexivity. Qed.

Lemma rgbToHex_bytes_digits (rgb : RGB) :
  bytes rgb ->
  rgbToHex rgb =
  text ["#"%char;
        hexchar (r rgb / 16); hexchar (r rgb mod 16);
        hexchar (g rgb / 16); hexchar (g rgb mod 16);
        hexchar (b rgb / 16); hexchar (b rgb mod 16)].
Proof.
  intros (Hr & Hg & Hb). unfold rgbToHex.
  now rewrite (toHex_byte _ Hr), (toHex_byte _ Hg), (toHex_byte _ Hb).
Qed.

Lemma nibbles_of_byte (c : Z) :
  is_byte c -> (0 <= c / 16 < 16)%Z /\ (0 <= c mod 16 < 16)%Z.
Proof.
  unfold is_byte. intros Hc.
  split; [split; [apply Z.div_pos | apply Z.div_lt_upper_bound]; lia
         | apply Z.mod_pos_bound; lia].
Qed.

Lemma rgbToHex_bytes_valid (rgb : RGB) :
  bytes rgb ->
  valid_hex (rgbToHex rgb) = true /\
  canonical_hex (rgbToHex rgb) = rgbToHex rgb.
Proof.
  intros Hb. rewrite (rgbToHex_bytes_digits rgb Hb).
  destruct Hb as (Hr & Hg & Hbl).
  destruct (nibbles_of_byte _ Hr) as [Hr1 Hr2],
    (nibbles_of_byte _ Hg) as [Hg1 Hg2], (nibbles_of_byte _ Hbl) as [Hb1 Hb2].
  destruct (hexchar_value _ Hr1) as (Dr1 & _ & Lr1),
    (hexchar_value _ Hr2) as (Dr2 & _ & Lr2),
    (hexchar_value _ Hg1) as (Dg1 & _ & Lg1),
    (hexchar_value _ Hg2) as (Dg2 & _ & Lg2),
    (hexchar_value _ Hb1) as (Db1 & _ & Lb1),
    (hexchar_value _ Hb2) as (Db2 & _ & Lb2).
  split.
  - unfold valid_hex. rewrite chars_text. cbn [strip_hash].
    change (Ascii.eqb "#" "#") with true. cbn [List.length Nat.eqb orb forallb].
    now rewrite Dr1, Dr2, Dg1, Dg2, Db1, Db2.
  - unfold canonical_hex. rewrite chars_text. cbn [strip_hash].
    change (Ascii.eqb "#" "#") with true. unfold expand.
    cbn [List.length Nat.eqb map].
    now rewrite Lr1, Lr2, Lg1, Lg2, Lb1, Lb2.
Qed.

(** X2.  For channels from 0 to 255, [rgbToHex] writes [#] and six
    lowercase hex digits, a valid colour that is its own canonical form,
    and [hexToRGB] reads the three channels back from it. *)
Theorem rgbToHex_hexToRGB (rgb : RGB) :
  bytes rgb ->
  hexToRGB (rgbToHex rgb) = rgb /\
  String.length (rgbToHex rgb) = 7 /\
  valid_hex (rgbToHex rgb) = true /\
  canonical_hex (rgbToHex rgb) = rgbToHex rgb.
Proof.
  intros Hb. split; [now apply hexToRGB_rgbToHex|].
  split; [now rewrite (rgbToHex_bytes_digits rgb Hb)|].
  now apply rgbToHex_bytes_valid.
Qed.

Lemma rgbToHex_hexToRGB_witness :
  hexToRGB (rgbToHex (mkRGB 18 171 205)) = mkRGB 18 171 205.
Proof.
  apply (rgbToHex_hexToRGB (mkRGB 18 171 205)).
  unfold bytes, is_byte. cbn. lia.
Defined.

(** *** The sort of the palette, continued *)

Section SortPermutation.
Context {A : Type}.
Variable compare : A -> A -> Q.

Lemma insert_Permutation (x : A) (l : list A) :
  Permutation (insert compare x l) (x :: l).
Proof.
  induction l as [|y l IH]; cbn; [reflexivity|].
  destruct (Qle_bool (compare x y) 0); [reflexivity|].
  rewrite IH. apply perm_swap.
Qed.

Lemma sort_Permutation (l : list A) : Permutation (sort compare l) l.
Proof.
  induction l as [|x l IH]; cbn; [reflexivity|].
  rewrite insert_Permutation. now constructor.
Qed.
End SortPermutation.

(** X3.  [sortColorsByBlueToRed] returns as many colours as it is given:
    the canonical forms [rgbToHex (hexToRGB c)] of its inputs, rearranged.
    Every colour it returns is a valid 7-character one and its own
    canonical form, so an entry that was no colour is replaced by one. *)
Theorem sort_rewrites_palette (colors : list string) :
  Permutation (sortColorsByBlueToRed colors)
              (map (fun color => rgbToHex (hexToRGB color)) colors) /\
  List.length (sortColorsByBlueToRed colors) = List.length colors /\
  Forall (fun color =>
            valid_hex color = true /\ String.length color = 7 /\
            rgbToHex (hexToRGB color) = color)
         (sortColorsByBlueToRed colors).
Proof.
  assert (Hperm : Permutation (sortColorsByBlueToRed colors)
                    (map (fun color => rgbToHex (hexToRGB color)) colors)).
  { unfold sortColorsByBlueToRed.
    rewrite (sort_Permutation byHueDescending), map_map. reflexivity. }
  split; [assumption|]. split.
  - rewrite (Permutation_length Hperm). apply length_map.
  - apply Forall_forall. intros color Hin.
    apply (Permutation_in _ Hperm) in Hin.
    apply in_map_iff in Hin as (hex & <- & _).
    pose proof (hexToRGB_bytes hex) as Hb.
    split; [|split].
    + now apply rgbToHex_bytes_valid.
    + now rewrite (rgbToHex_bytes_digits _ Hb).
    + now rewrite hexToRGB_rgbToHex.
Qed.

(** *** The first snapshot *)

Lemma rem_of_nat (a n : nat) :
  n <> 0 ->
  rem (Fin (Z.of_nat a)) (Fin (Z.of_nat n)) = Fin (Z.of_nat (a mod n)).
Proof.
  intros Hn. unfold rem.
  destruct (Z.of_nat n =? 0)%Z eqn:E; [apply Z.eqb_eq in E; lia|].
  rewrite Z.rem_mod_nonneg by lia. now rewrite Nat2Z.inj_mod.
Qed.

Lemma array_get_of_nat {A : Type} (arr : list A) (i : nat) :
  array_get arr (Fin (Z.of_nat i)) = nth_error arr i.
Proof.
  unfold array_get. destruct (Z.of_nat i <? 0)%Z eqn:E.
  - apply Z.ltb_lt in E. lia.
  - now rewrite Nat2Z.id.
Qed.

(** X4.  In the first snapshot an insertion with a palette that is not
    empty always finds its colour in the palette: the one at index
    [markCount mod length].  The selection is replaced by a mark of that
    colour, without a [highlightindex]. *)
Theorem first_snapshot_colour_in_palette settings view :
  insertion_path view ->
  colors settings <> [] ->
  exists color,
    nth_error (colors settings)
              (countMarkElements view mod List.length (colors settings)) =
      Some color /\
    In color (colors settings) /\
    highlightSelectedText_first settings view =
    [replaceSelection (later_mark (Some color) (getSelection (editor view)))].
Proof.
  intros [Hsel Hhl] Hne.
  assert (Hlen : List.length (colors settings) <> 0)
    by (destruct (colors settings); [congruence | discriminate]).
  destruct (nth_error (colors settings)
              (countMarkElements view mod List.length (colors settings)))
    as [color|] eqn:E.
  - exists color. split; [reflexivity|]. split; [now apply nth_error_In in E|].
    unfold highlightSelectedText_first.
    apply truthy_nonempty in Hsel. rewrite Hsel.
    unfold isHighlight, currentLine, selectedStart, selectedEnd in Hhl.
    destruct (mark_loop _ _ _) as [flag marks]. cbn [fst] in Hhl. subst flag.
    now rewrite (rem_of_nat _ _ Hlen), array_get_of_nat, E.
  - apply nth_error_None in E.
    pose proof (Nat.mod_upper_bound (countMarkElements view) _ Hlen). lia.
Qed.

Lemma first_snapshot_colour_in_palette_witness :
  highlightSelectedText_first blue_green_red
    (oneLineView tagged_document 73 78) =
  [replaceSelection (later_mark (Some "#00ff00") "world")].
Proof.
  assert (Hins : insertion_path (oneLineView tagged_document 73 78))
    by (split; [vm_compute; discriminate | vm_compute; reflexivity]).
  assert (Hne : colors blue_green_red <> []) by discriminate.
  destruct (first_snapshot_colour_in_palette blue_green_red
              (oneLineView tagged_document 73 78) Hins Hne)
    as (color & Hnth & _ & Hcalls).
  rewrite Hcalls. vm_compute in Hnth. now injection Hnth as <-.
Defined.

(** *** What a toggle asks of the editor and of the random source *)

Lemma is_insertion_iff (view : MarkdownView) :
  is_insertion view = true <-> insertion_path view.
Proof.
  unfold is_insertion, insertion_path.
  rewrite andb_true_iff, truthy_nonempty, negb_true_iff. tauto.
Qed.

Lemma insertion_tagged_source settings view rng :
  insertion_path view -> tagged view ->
  snd (highlightSelectedText settings view rng) = rng.
Proof.
  intros Hins Htag. rewrite (toggle_insertion _ _ _ Hins). cbn [snd].
  unfold tagged in Htag.
  destruct (exec highlightindexRegex (getValue (editor view))) as [mt|] eqn:Hmt;
    [|congruence].
  destruct (getColorIndexOffset_tagged settings view rng mt Hmt)
    as (digits & _ & _ & ->). reflexivity.
Qed.

(** X5.  A toggle that inserts issues one [replaceSelection] and nothing
    else; a toggle that does not insert issues [replaceRange]s only, and
    none when nothing is selected.  One random number is drawn when the
    toggle inserts and no mark tag of the document carries a
    [highlightindex]; in every other case the random source is left as it
    was. *)
Theorem toggle_calls_and_draws settings view rng :
  let calls := fst (highlightSelectedText settings view rng) in
  let rng' := snd (highlightSelectedText settings view rng) in
  (insertion_path view ->
   List.length calls = 1 /\ forallb is_replaceSelection calls = true) /\
  (~ insertion_path view ->
   forallb is_replaceRange calls = true /\ rng' = rng) /\
  (getSelection (editor view) = EmptyString -> calls = []) /\
  (insertion_path view -> tagged view -> rng' = rng) /\
  (insertion_path view -> ~ tagged view ->
   rng' = mkRandom (samples rng) (S (drawn rng))).
Proof.
  cbv zeta. split; [|split; [|split; [|split]]].
  - intros Hins. now rewrite (toggle_insertion _ _ _ Hins).
  - intros Hnot.
    destruct (string_dec (getSelection (editor view)) EmptyString) as [E|E].
    + now rewrite toggle_nothing_selected.
    + destruct (isHighlight view) eqn:Hhl.
      * rewrite toggle_removal by assumption. cbn [fst snd].
        split; [|reflexivity]. apply forallb_forall. intros call Hin.
        apply in_map_iff in Hin as ([start stop] & <- & _). reflexivity.
      * exfalso. apply Hnot. now split.
  - intros E. now rewrite toggle_nothing_selected.
  - intros Hins Htag. now apply insertion_tagged_source.
  - intros Hins Htag. rewrite (toggle_insertion _ _ _ Hins). cbn [snd].
    rewrite getColorIndexOffset_untagged; [reflexivity|].
    unfold tagged in Htag.
    destruct (exec highlightindexRegex (getValue (editor view)));
      [exfalso; apply Htag; discriminate | reflexivity].
Qed.

Lemma toggle_calls_and_draws_witness :
  snd (highlightSelectedText blue_green_red
         (oneLineView "hello world" 0 5) (constant_source 0)) =
  mkRandom (fun _ => 0%Q) 1.
Proof.
  assert (Hins : insertion_path (oneLineView "hello world" 0 5))
    by (split; [vm_compute; discriminate | vm_compute; reflexivity]).
  assert (Htag : ~ tagged (oneLineView "hello world" 0 5))
    by (unfold tagged; vm_compute; intros H; now apply H).
  exact (proj2 (proj2 (proj2 (proj2
           (toggle_calls_and_draws blue_green_red
              (oneLineView "hello world" 0 5) (constant_source 0)))))
           Hins Htag).
Defined.

(** *** The hue *)

Lemma Qrem_360_range (y : Q) :
  (0 <= y)%Q -> (0 <= Qrem y 360)%Q /\ (Qrem y 360 < 360)%Q.
Proof.
  intros Hy. unfold Qrem, Qtrunc.
  set (q := (y / 360)%Q).
  assert (Hq : (q * 360 == y)%Q) by (unfold q; field).
  assert (Hq0 : (0 <= q)%Q) by lra.
  rewrite (proj2 (Qle_bool_iff 0 q) Hq0).
  pose proof (Qfloor_le q) as Hlo. pose proof (Qlt_floor q) as Hhi.
  rewrite inject_Z_plus in Hhi. change (inject_Z 1) with 1%Q in Hhi.
  split; lra.
Qed.

Lemma Qmax3_spec (x y z : Q) :
  (x <= Qmax3 x y z)%Q /\ (y <= Qmax3 x y z)%Q /\ (z <= Qmax3 x y z)%Q.
Proof.
  unfold Qmax3.
  pose proof (Q.le_max_l (Qmax x y) z). pose proof (Q.le_max_r (Qmax x y) z).
  pose proof (Q.le_max_l x y). pose proof (Q.le_max_r x y).
  repeat split; lra.
Qed.

Lemma Qmin3_spec (x y z : Q) :
  (Qmin3 x y z <= x)%Q /\ (Qmin3 x y z <= y)%Q /\ (Qmin3 x y z <= z)%Q.
Proof.
  unfold Qmin3.
  pose proof (Q.le_min_l (Qmin x y) z). pose proof (Q.le_min_r (Qmin x y) z).
  pose proof (Q.le_min_l x y). pose proof (Q.le_min_r x y).
  repeat split; lra.
Qed.

Lemma Qrem_360_small (y : Q) :
  (0 <= y)%Q -> (y < 360)%Q -> (Qrem y 360 == y)%Q.
Proof.
  intros H0 H1. unfold Qrem, Qtrunc.
  set (q := (y / 360)%Q).
  assert (Hq : (q * 360 == y)%Q) by (unfold q; field).
  assert (Hq0 : (0 <= q)%Q) by lra.
  rewrite (proj2 (Qle_bool_iff 0 q) Hq0).
  pose proof (Qfloor_le q) as Hlo. pose proof (Qlt_floor q) as Hhi.
  assert (E : Qfloor q = 0%Z).
  { assert (Hlt : (Qfloor q < 1)%Z)
      by (rewrite Zlt_Qlt; change (inject_Z 1) with 1%Q; lra).
    assert (Hgt : (0 < Qfloor q + 1)%Z)
      by (rewrite Zlt_Qlt; change (inject_Z 0) with 0%Q; lra).
    lia. }
  rewrite E. change (inject_Z 0) with 0%Q. lra.
Qed.

Section Hue.
Local Open Scope Q_scope.

Lemma Qrem_360_wrap (y : Q) :
  360 <= y -> Qrem y 360 <= y - 360.
Proof.
  intros Hy. unfold Qrem, Qtrunc.
  set (q := (y / 360)%Q).
  assert (Hq : (q * 360 == y)%Q) by (unfold q; field).
  assert (Hq1 : 1 <= q) by lra.
  assert (Hq0 : 0 <= q) by lra.
  rewrite (proj2 (Qle_bool_iff 0 q) Hq0).
  assert (Hf : (1 <= Qfloor q)%Z).
  { change 1%Z with (Qfloor (inject_Z 1)). apply Qfloor_resp_le.
    change (inject_Z 1) with 1%Q. assumption. }
  rewrite Zle_Qle in Hf. change (inject_Z 1) with 1%Q in Hf. lra.
Qed.

Lemma Qmax3_cases (x y z : Q) :
  Qmax3 x y z == x \/ Qmax3 x y z == y \/ Qmax3 x y z == z.
Proof.
  unfold Qmax3.
  destruct (Q.max_spec (Qmax x y) z) as [[_ ->]|[_ ->]]; [now right; right|].
  destruct (Q.max_spec x y) as [[_ ->]|[_ ->]]; [now right; left | now left].
Qed.

Lemma Qmin3_cases (x y z : Q) :
  Qmin3 x y z == x \/ Qmin3 x y z == y \/ Qmin3 x y z == z.
Proof.
  unfold Qmin3.
  destruct (Q.min_spec (Qmin x y) z) as [[_ ->]|[_ ->]]; [|now right; right].
  destruct (Q.min_spec x y) as [[_ ->]|[_ ->]]; [now left | now right; left].
Qed.

(** One step of the hue: [60 * (u / w) + c] in doubles, where the exact
    [u] is at most the exact [w] on either side. *)
Lemma hue_step (u w c : Q) :
  0 < w -> - w <= u -> u <= w ->
  to_double (c - 60) == c - 60 -> to_double (c + 60) == c + 60 ->
  let y := fadd (fmul 60 (fdiv (to_double u) (to_double w))) c in
  c - 60 <= y /\ y <= c + 60.
Proof.
  intros Hw H1 H2 Hlo Hhi y.
  pose proof (to_double_positive w Hw) as Hd.
  pose proof (to_double_monotone u w H2) as Hu2.
  pose proof (to_double_monotone (- w) u H1) as Hu1.
  rewrite to_double_opp in Hu1.
  set (n := to_double u) in *. set (d := to_double w) in *.
  assert (Ht : -1 <= fdiv n d /\ fdiv n d <= 1).
  { unfold fdiv. split.
    - apply to_double_ge; [reflexivity|].
      apply Qle_shift_div_l; [assumption | lra].
    - apply to_double_le; [reflexivity|].
      apply Qle_shift_div_r; [assumption | lra]. }
  set (t := fdiv n d) in *.
  assert (Hx : -60 <= fmul 60 t /\ fmul 60 t <= 60).
  { unfold fmul. split.
    - apply to_double_ge; [reflexivity | lra].
    - apply to_double_le; [reflexivity | lra]. }
  set (x := fmul 60 t) in *. unfold y, fadd. split.
  - apply to_double_ge; [assumption | lra].
  - apply to_double_le; [assumption | lra].
Qed.

Lemma channel_le (x y : Z) :
  (x <= y)%Z -> fdiv (inject_Z x) 255 <= fdiv (inject_Z y) 255.
Proof.
  intros H. rewrite Zle_Qle in H. apply to_double_monotone. unfold Qdiv.
  apply Qmult_le_compat_r; [assumption | discriminate].
Qed.

(** Two multiples of 1/512 lie between [x / 255] and [y / 255]: the two
    quotients stay apart when rounded. *)
Lemma channel_lt (x y : Z) :
  (Z.abs x <= 2 ^ 50)%Z -> (Z.abs y <= 2 ^ 50)%Z ->
  (x < y)%Z -> fdiv (inject_Z x) 255 < fdiv (inject_Z y) 255.
Proof.
  intros Hx Hy H. unfold fdiv.
  set (k := (512 * x / 255 + 1)%Z).
  assert (Hk1 : (512 * x < 255 * k)%Z).
  { unfold k. pose proof (Z.mod_pos_bound (512 * x) 255 eq_refl).
    pose proof (Z.div_mod (512 * x) 255). lia. }
  assert (Hk2 : (255 * (k + 1) <= 512 * y)%Z).
  { unfold k. pose proof (Z.mod_pos_bound (512 * x) 255 eq_refl).
    pose proof (Z.div_mod (512 * x) 255). lia. }
  assert (Hrep : forall m, (Z.abs m <= 2 ^ 53)%Z ->
                           to_double (inject_Z m * (1 # 512)) ==
                           inject_Z m * (1 # 512)).
  { intros m Hm. apply to_double_exact. exists m, (-9)%Z. split; [assumption|].
    reflexivity. }
  assert (Hkb : (Z.abs k <= 2 ^ 53 /\ Z.abs (k + 1) <= 2 ^ 53)%Z).
  { change (2 ^ 50)%Z with 1125899906842624%Z in *.
    change (2 ^ 53)%Z with 9007199254740992%Z. lia. }
  apply Qle_lt_trans with (inject_Z k * (1 # 512)).
  - apply to_double_le; [apply Hrep; lia|].
    apply Qle_shift_div_r; [reflexivity|].
    rewrite Zlt_Qlt, !inject_Z_mult in Hk1.
    change (inject_Z 512) with 512 in Hk1. change (inject_Z 255) with 255 in Hk1.
    lra.
  - apply Qlt_le_trans with (inject_Z (k + 1) * (1 # 512)).
    + rewrite inject_Z_plus. change (inject_Z 1) with 1. lra.
    + apply to_double_ge; [apply Hrep; lia|].
      apply Qle_shift_div_l; [reflexivity|].
      rewrite Zle_Qle, !inject_Z_mult in Hk2.
      change (inject_Z 512) with 512 in Hk2.
      change (inject_Z 255) with 255 in Hk2.
      lra.
Qed.

(** The three branches of [rgbToHue], with the bounds of each. *)
Lemma rgbToHue_branches (rgb : RGB) :
  let rr := fdiv (inject_Z (r rgb)) 255 in
  let gg := fdiv (inject_Z (g rgb)) 255 in
  let bb := fdiv (inject_Z (b rgb)) 255 in
  let hi := Qmax3 rr gg bb in
  let lo := Qmin3 rr gg bb in
  (hi == lo /\ rgbToHue rgb = 0) \/
  (lo < hi /\ hi == rr /\
   exists y, rgbToHue rgb = Qrem y 360 /\ 300 <= y /\ y <= 420) \/
  (lo < hi /\ ~ hi == rr /\ hi == gg /\
   exists y, rgbToHue rgb = Qrem y 360 /\ 60 <= y /\ y <= 180) \/
  (lo < hi /\ ~ hi == rr /\ ~ hi == gg /\ hi == bb /\
   exists y, rgbToHue rgb = Qrem y 360 /\ 180 <= y /\ y <= 300).
Proof.
  intros rr gg bb hi lo. unfold rgbToHue. fold rr gg bb. fold hi lo.
  destruct (Qmax3_spec rr gg bb) as (Hr & Hg & Hb).
  destruct (Qmin3_spec rr gg bb) as (Hr' & Hg' & Hb').
  fold hi in Hr, Hg, Hb. fold lo in Hr', Hg', Hb'.
  destruct (Qeq_bool hi lo) eqn:E.
  { left. split; [now apply Qeq_bool_iff | reflexivity]. }
  right. apply Qeq_bool_neq in E.
  assert (Hd : lo < hi).
  { destruct (Qlt_le_dec lo hi) as [Hlt|Hle]; [assumption|].
    exfalso. apply E. lra. }
  assert (Hw : 0 < hi - lo) by lra.
  destruct (Qeq_bool hi rr) eqn:Er.
  { left. apply Qeq_bool_iff in Er. split; [assumption|split; [assumption|]].
    eexists. split; [reflexivity|].
    apply (hue_step (gg - bb) (hi - lo) 360 Hw); (lra || reflexivity). }
  right. apply Qeq_bool_neq in Er.
  destruct (Qeq_bool hi gg) eqn:Eg.
  { left. apply Qeq_bool_iff in Eg.
    split; [assumption|split; [assumption|split; [assumption|]]].
    eexists. split; [reflexivity|].
    apply (hue_step (bb - rr) (hi - lo) 120 Hw); (lra || reflexivity). }
  right. apply Qeq_bool_neq in Eg.
  assert (Eb : hi == bb).
  { destruct (Qmax3_cases rr gg bb) as [H|[H|H]]; [now elim Er | now elim Eg|].
    exact H. }
  rewrite (proj2 (Qeq_bool_iff hi bb) Eb).
  split; [assumption|split; [assumption|split; [assumption|split; [assumption|]]]].
  eexists. split; [reflexivity|].
  apply (hue_step (rr - gg) (hi - lo) 240 Hw); (lra || reflexivity).
Qed.

Lemma rgbToHue_range (rgb : RGB) :
  0 <= rgbToHue rgb /\ rgbToHue rgb < 360.
Proof.
  destruct (rgbToHue_branches rgb)
    as [[_ ->]|[(_ & _ & y & -> & Hy)|[(_ & _ & _ & y & -> & Hy)|
                                        (_ & _ & _ & _ & y & -> & Hy)]]].
  - split; lra.
  - apply Qrem_360_range; lra.
  - apply Qrem_360_range; lra.
  - apply Qrem_360_range; lra.
Qed.

End Hue.

(** X6.  The hue lies in [[0, 360)] whatever the channels.  It is 0 for a
    grey, and within 60 of 0 or of 360 when red is a largest channel.  For
    channels of at most 2^50 in size, which [x / 255] in doubles still tells
    apart, it is from 60 to 180 when green is the largest channel and
    exceeds red, and from 180 to 300 when blue exceeds both others. *)
Theorem rgbToHue_sectors (rgb : RGB) :
  ((0 <= rgbToHue rgb)%Q /\ (rgbToHue rgb < 360)%Q) /\
  (r rgb = g rgb -> g rgb = b rgb -> rgbToHue rgb = 0%Q) /\
  (moderate rgb -> (r rgb < g rgb)%Z -> (b rgb <= g rgb)%Z ->
   (60 <= rgbToHue rgb)%Q /\ (rgbToHue rgb <= 180)%Q) /\
  (moderate rgb -> (r rgb < b rgb)%Z -> (g rgb < b rgb)%Z ->
   (180 <= rgbToHue rgb)%Q /\ (rgbToHue rgb <= 300)%Q) /\
  ((g rgb <= r rgb)%Z -> (b rgb <= r rgb)%Z ->
   (rgbToHue rgb <= 60)%Q \/ (300 <= rgbToHue rgb)%Q).
Proof.
  split; [apply rgbToHue_range|].
  pose proof (rgbToHue_branches rgb) as H. cbv zeta in H.
  destruct (Qmax3_spec (fdiv (inject_Z (r rgb)) 255) (fdiv (inject_Z (g rgb)) 255)
                       (fdiv (inject_Z (b rgb)) 255)) as (Hr & Hg & Hb).
  destruct (Qmin3_spec (fdiv (inject_Z (r rgb)) 255) (fdiv (inject_Z (g rgb)) 255)
                       (fdiv (inject_Z (b rgb)) 255)) as (Hr' & Hg' & Hb').
  set (rr := fdiv (inject_Z (r rgb)) 255) in *.
  set (gg := fdiv (inject_Z (g rgb)) 255) in *.
  set (bb := fdiv (inject_Z (b rgb)) 255) in *.
  set (hi := Qmax3 rr gg bb) in *. set (lo := Qmin3 rr gg bb) in *.
  split; [|split; [|split]].
  - intros E1 E2.
    assert (Hrg : (rr == gg)%Q) by (unfold rr, gg; now rewrite E1).
    assert (Hgb : (gg == bb)%Q) by (unfold gg, bb; now rewrite E2).
    unfold rgbToHue. fold rr gg bb. fold hi lo.
    assert (E : Qeq_bool hi lo = true).
    { apply Qeq_bool_iff.
      destruct (Qmax3_cases rr gg bb) as [Hm|[Hm|Hm]];
        destruct (Qmin3_cases rr gg bb) as [Hn|[Hn|Hn]];
        fold hi in Hm; fold lo in Hn; lra. }
    now rewrite E.
  - intros (Mr & Mg & Mb) H1 H2.
    apply channel_lt in H1; [|assumption..]. apply channel_le in H2.
    fold rr gg in H1. fold bb gg in H2.
    destruct H as [[E _]|[(_ & E & _)|[(_ & _ & _ & y & -> & Hy)|
                                       (_ & _ & E & Eb & _)]]].
    + lra.
    + lra.
    + rewrite Qrem_360_small by lra. lra.
    + exfalso. apply E. lra.
  - intros (Mr & Mg & Mb) H1 H2.
    apply channel_lt in H1; [|assumption..].
    apply channel_lt in H2; [|assumption..].
    fold rr bb in H1. fold gg bb in H2.
    destruct H as [[E _]|[(_ & E & _)|[(_ & _ & E & _)|
                                       (_ & _ & _ & _ & y & -> & Hy)]]].
    + lra.
    + lra.
    + lra.
    + rewrite Qrem_360_small by lra. lra.
  - intros H1 H2. apply channel_le in H1, H2.
    fold gg rr in H1. fold bb rr in H2.
    destruct H as [[_ ->]|[(_ & _ & y & -> & Hy)|[(_ & E & _)|(_ & E & _)]]].
    + left. lra.
    + destruct (Qlt_le_dec y 360) as [Hlt|Hge].
      * right. rewrite Qrem_360_small by lra. lra.
      * left. pose proof (Qrem_360_wrap y Hge). lra.
    + exfalso. apply E.
      destruct (Qmax3_cases rr gg bb) as [Hm|[Hm|Hm]]; fold hi in Hm; lra.
    + exfalso. apply E.
      destruct (Qmax3_cases rr gg bb) as [Hm|[Hm|Hm]]; fold hi in Hm; lra.
Qed.

Lemma rgbToHue_sectors_witness :
  (60 <= rgbToHue (mkRGB 0 255 0))%Q /\ (rgbToHue (mkRGB 0 255 0) <= 180)%Q.
Proof.
  apply (rgbToHue_sectors (mkRGB 0 255 0)); unfold moderate; cbn; lia.
Defined.

(** *** The buttons of the settings tab *)

Section SortSmallestLast.
Context {A : Type}.
Variable key : A -> Q.
Variable compare : A -> A -> Q.
Hypothesis compare_key :
  forall x y, (compare x y <= 0)%Q <-> (key y <= key x)%Q.

Lemma insert_before_smallest (x w : A) (l : list A) :
  (key w <= key x)%Q ->
  insert compare x (l ++ [w]) = insert compare x l ++ [w].
Proof.
  intros Hw. induction l as [|y l IH]; cbn.
  - now rewrite (proj2 (compare_le key compare compare_key x w) Hw).
  - destruct (Qle_bool (compare x y) 0); [reflexivity|]. now rewrite IH.
Qed.

Lemma sort_smallest_last (w : A) (l : list A) :
  (forall x, In x l -> (key w <= key x)%Q) ->
  sort compare (l ++ [w]) = sort compare l ++ [w].
Proof.
  induction l as [|x l IH]; intros Hw; cbn; [reflexivity|].
  rewrite IH by (intros y Hy; apply Hw; now right).
  apply insert_before_smallest, Hw. now left.
Qed.
End SortSmallestLast.

Lemma sortColorsByBlueToRed_descending (colors : list string) :
  hue_descending (sortColorsByBlueToRed colors).
Proof.
  unfold hue_descending, sortColorsByBlueToRed.
  set (key := fun color : HexRGB => rgbToHue (rgb_of color)).
  assert (Hkey : forall x y, (byHueDescending x y <= 0)%Q <->
                             (key y <= key x)%Q)
    by (intros x y; apply byHueDescending_sign).
  apply Sorted_map with (R := descends key)
                        (P := fun color => bytes (rgb_of color)).
  - intros x y Hx Hy H. unfold hue_of.
    now rewrite !hexToRGB_rgbToHex.
  - apply sort_Forall, Forall_forall. intros color Hin.
    apply in_map_iff in Hin as (hex & <- & _). apply hexToRGB_bytes.
  - apply (sort_descending key _ Hkey).
Qed.

(** X7.  The [Add] button of the second snapshot sorts the palette by hue,
    every colour in its canonical form, and puts the new white after all of
    them, greys included: the result is [sortColorsByBlueToRed colors]
    followed by [#ffffff], one colour longer and in descending order of
    hue. *)
Theorem add_appends_white (colors : list string) :
  addNewColor colors = sortColorsByBlueToRed colors ++ ["#ffffff"] /\
  List.length (addNewColor colors) = S (List.length colors) /\
  hue_descending (addNewColor colors).
Proof.
  assert (E : addNewColor colors = sortColorsByBlueToRed colors ++ ["#ffffff"]).
  { unfold addNewColor, sortColorsByBlueToRed. rewrite map_app. cbn [map].
    set (key := fun color : HexRGB => rgbToHue (rgb_of color)).
    assert (Hkey : forall x y, (byHueDescending x y <= 0)%Q <->
                               (key y <= key x)%Q)
      by (intros x y; apply byHueDescending_sign).
    rewrite (sort_smallest_last key byHueDescending Hkey).
    - rewrite map_app. reflexivity.
    - intros x _. unfold key at 1. cbn [rgb_of].
      replace (rgbToHue (hexToRGB "#ffffff")) with 0%Q
        by (vm_compute; reflexivity).
      apply rgbToHue_range. }
  split; [assumption|]. split.
  - unfold addNewColor, sortColorsByBlueToRed.
    rewrite length_map, (Permutation_length (sort_Permutation _ _)), length_map.
    rewrite length_app. cbn. lia.
  - apply sortColorsByBlueToRed_descending.
Qed.

Lemma Sorted_delete {A : Type} (R : A -> A -> Prop) (index : nat) (l : list A) :
  (forall x y z, R x y -> R y z -> R x z) ->
  Sorted R l -> Sorted R (firstn index l ++ skipn (S index) l).
Proof.
  intros Htrans Hs.
  assert (Hss : StronglySorted R l)
    by (apply Sorted_StronglySorted; [exact Htrans | assumption]).
  apply StronglySorted_Sorted. clear Hs. revert index.
  induction Hss as [|x l Hss IH Hall]; intros index.
  - rewrite firstn_nil. destruct index; constructor.
  - destruct index as [|index]; cbn [firstn skipn app].
    + assumption.
    + constructor; [apply IH|].
      apply Forall_app. rewrite Forall_forall in Hall.
      split; apply Forall_forall; intros y Hy; apply Hall.
      * rewrite <- (firstn_skipn index l). apply in_or_app. now left.
      * rewrite <- (firstn_skipn (S index) l). apply in_or_app. now right.
Qed.

(** X8.  The [Delete] button takes out the colour at its index and leaves
    the others in their order: a palette in descending order of hue stays
    so, with no sort.  An index past the end deletes nothing. *)
Theorem delete_keeps_order (index : nat) (colors : list string) :
  (index < List.length colors ->
   List.length (deleteColor index colors) = List.length colors - 1 /\
   (forall i, i < index ->
      nth_error (deleteColor index colors) i = nth_error colors i) /\
   (forall i, index <= i ->
      nth_error (deleteColor index colors) i = nth_error colors (S i))) /\
  (List.length colors <= index -> deleteColor index colors = colors) /\
  (hue_descending colors -> hue_descending (deleteColor index colors)).
Proof.
  unfold deleteColor. split; [|split].
  - intros Hlt. split; [|split].
    + rewrite length_app, length_firstn, length_skipn. lia.
    + intros i Hi. rewrite nth_error_app1 by (rewrite length_firstn; lia).
      rewrite nth_error_firstn. now rewrite (proj2 (Nat.ltb_lt _ _) Hi).
    + intros i Hi. rewrite nth_error_app2 by (rewrite length_firstn; lia).
      rewrite length_firstn, nth_error_skipn. f_equal. lia.
  - intros Hle. rewrite firstn_all2 by assumption.
    rewrite skipn_all2 by lia. apply app_nil_r.
  - apply Sorted_delete. intros x y z Hxy Hyz. lra.
Qed.

Lemma delete_keeps_order_witness :
  hue_descending (deleteColor 1 (colors blue_green_red)).
Proof.
  apply (proj2 (proj2 (delete_keeps_order 1 (colors blue_green_red)))).
  unfold hue_descending. repeat constructor; vm_compute; discriminate.
Defined.

(** *** Where the matches of a line lie *)

Lemma star_span cl k caps s :
  forall pos res,
    star cl k caps pos s = Some res ->
    exists n, n <= List.length s /\ k (pos + n) (skipn n s) caps = Some res.
Proof.
  induction s as [|c s IH]; intros pos res; cbn [star].
  - intros H. exists 0. rewrite Nat.add_0_r. now split.
  - assert (Hhere : k pos (c :: s) caps = Some res ->
                    exists n, n <= List.length (c :: s) /\
                              k (pos + n) (skipn n (c :: s)) caps = Some res).
    { intros H. exists 0. rewrite Nat.add_0_r. split; [cbn; lia | assumption]. }
    destruct (class_matches cl c); [|assumption].
    destruct (star cl k caps (S pos) s) as [res'|] eqn:E; [|assumption].
    intros [= <-]. destruct (IH _ _ E) as (n & Hn & Hk).
    exists (S n). split; [cbn; lia|].
    now rewrite Nat.add_succ_r.
Qed.

Lemma lazy_star_span cl k caps s :
  forall pos res,
    lazy_star cl k caps pos s = Some res ->
    exists n, n <= List.length s /\ k (pos + n) (skipn n s) caps = Some res.
Proof.
  induction s as [|c s IH]; intros pos res; cbn [lazy_star].
  - destruct (k pos [] caps) eqn:E; [|discriminate].
    intros [= <-]. exists 0. rewrite Nat.add_0_r. now split.
  - destruct (k pos (c :: s) caps) eqn:E.
    + intros [= <-]. exists 0. rewrite Nat.add_0_r. split; [cbn; lia | assumption].
    + destruct (class_matches cl c); [|discriminate].
      intros H. destruct (IH _ _ H) as (n & Hn & Hk).
      exists (S n). split; [cbn; lia|].
      now rewrite Nat.add_succ_r.
Qed.

Lemma atom_span cl k caps pos s res :
  atom cl k caps pos s = Some res ->
  1 <= List.length s /\ k (pos + 1) (skipn 1 s) caps = Some res.
Proof.
  intros H. apply atom_inv in H as (c & s' & -> & _ & H).
  rewrite Nat.add_1_r. split; [cbn; lia | assumption].
Qed.

(** A match takes at least [min_len] characters, and no more than there
    are. *)
Lemma m_span r :
  forall k pos s caps res,
    m r k pos s caps = Some res ->
    exists n caps',
      min_len r <= n /\ n <= List.length s /\
      k (pos + n) (skipn n s) caps' = Some res.
Proof.
  assert (Hzero : forall (k : cont) pos s caps res lo,
             lo = 0 -> k pos s caps = Some res ->
             exists n caps',
               lo <= n /\ n <= List.length s /\
               k (pos + n) (skipn n s) caps' = Some res).
  { intros k pos s caps res lo -> H. exists 0, caps.
    rewrite Nat.add_0_r. cbn [skipn]. split; [lia|]. split; [lia | assumption]. }
  induction r as [| |cl|cl|cl|cl|cl|i r IH|r1 IH1 r2 IH2];
    intros k pos s caps res; cbn [m min_len].
  - now apply Hzero.
  - destruct (pos =? 0); [|discriminate]. now apply Hzero.
  - intros H. apply atom_span in H as [Hn H]. exists 1, caps.
    split; [lia|]. split; assumption.
  - destruct (atom cl k caps pos s) eqn:E.
    + intros [= <-]. apply atom_span in E as [Hn H].
      exists 1, caps. split; [lia|]. split; assumption.
    + now apply Hzero.
  - intros H. apply star_span in H as (n & Hn & H).
    exists n, caps. split; [lia|]. split; assumption.
  - intros H. apply atom_span in H as [Hn H].
    apply star_span in H as (n & Hn' & H).
    rewrite length_skipn in Hn'. rewrite skipn_skipn, <- Nat.add_assoc in H.
    exists (n + 1), caps. split; [lia|]. split; [lia|].
    replace (pos + (n + 1)) with (pos + (1 + n)) by lia. assumption.
  - intros H. apply lazy_star_span in H as (n & Hn & H).
    exists n, caps. split; [lia|]. split; assumption.
  - intros H. apply IH in H as (n & caps' & Hmin & Hn & H).
    exists n, ((i, firstn (pos + n - pos) s) :: caps').
    split; [assumption|]. split; assumption.
  - intros H. apply IH1 in H as (n1 & caps1 & Hmin1 & Hn1 & H).
    apply IH2 in H as (n2 & caps2 & Hmin2 & Hn2 & H).
    rewrite length_skipn in Hn2. rewrite skipn_skipn, <- Nat.add_assoc in H.
    exists (n2 + n1), caps2. split; [lia|]. split; [lia|].
    replace (pos + (n2 + n1)) with (pos + (n1 + n2)) by lia. assumption.
Qed.

Lemma match_at_span r pos s e caps :
  match_at r pos s = Some (e, caps) ->
  pos + min_len r <= e /\ e <= pos + List.length s.
Proof.
  unfold match_at. intros H.
  apply m_span in H as (n & caps' & Hmin & Hn & H).
  injection H as <- _. lia.
Qed.

Lemma spans_chain_weaken (lo lo' hi : nat) (spans : list (nat * nat)) :
  lo' <= lo -> spans_chain lo hi spans -> spans_chain lo' hi spans.
Proof.
  destruct spans as [|[b e] rest]; cbn; [trivial|].
  intros Hle (H1 & H2 & H3 & H4). repeat split; [lia | assumption..].
Qed.

Lemma scan_mark_chain (s : list ascii) :
  forall pos skip,
    spans_chain (pos + skip) (pos + List.length s)
      (map (fun m => (fst (fst m), snd (fst m))) (scan markRegex pos skip s)).
Proof.
  induction s as [|c s IH]; intros pos skip.
  - destruct skip as [|k]; cbn [scan]; [|exact I].
    destruct (match_at markRegex pos []) as [[e caps]|] eqn:E; [|exact I].
    apply match_at_span in E. cbn in E. lia.
  - destruct skip as [|k]; cbn [scan].
    + destruct (match_at markRegex pos (c :: s)) as [[e caps]|] eqn:E.
      * apply match_at_span in E. cbn [List.length] in E.
        change (min_len markRegex) with 13 in E.
        cbn [map fst snd spans_chain List.length].
        split; [lia|]. split; [lia|]. split; [lia|].
        replace e with (S pos + (e - pos - 1)) at 1 by lia.
        replace (pos + S (List.length s)) with (S pos + List.length s) by lia.
        apply IH.
      * apply spans_chain_weaken with (S pos + 0); [lia|].
        replace (pos + List.length (c :: s)) with (S pos + List.length s)
          by (cbn; lia).
        apply IH.
    + replace (pos + S k) with (S pos + k) by lia.
      replace (pos + List.length (c :: s)) with (S pos + List.length s)
        by (cbn; lia).
      apply IH.
Qed.

Lemma length_chars (s : string) : List.length (chars s) = String.length s.
Proof. rewrite <- (text_chars s) at 2. now rewrite length_text. Qed.

Lemma length_slice (s : string) (start stop : nat) :
  stop <= String.length s ->
  String.length (slice s start stop) = stop - start.
Proof.
  intros H. unfold slice.
  rewrite length_text, length_firstn, length_skipn, length_chars. lia.
Qed.

Lemma spans_chain_ext (lo hi : nat) (l1 l2 : list (nat * nat)) :
  l1 = l2 -> spans_chain lo hi l1 -> spans_chain lo hi l2.
Proof. now intros ->. Qed.

Lemma mark_spans_scan (content : string) :
  mark_spans content =
  map (fun m => (fst (fst m), snd (fst m))) (scan markRegex 0 0 (chars content)).
Proof.
  unfold mark_spans, exec_all. rewrite map_map.
  apply map_ext_in. intros [[b e] caps] Hin. unfold span_of. cbn [index whole fst snd].
  pose proof (scan_mark_chain (chars content) 0 0) as Hchain.
  assert (Hbe : b + 13 <= e /\ e <= String.length content).
  { rewrite <- length_chars. revert Hchain Hin.
    generalize (scan markRegex 0 0 (chars content)).
    generalize (0 + 0). cbn [Nat.add].
    intros lo l. revert lo.
    induction l as [|[[b' e'] caps'] l IHl]; intros lo Hchain Hin; [destruct Hin|].
    cbn [map fst snd spans_chain] in Hchain.
    destruct Hchain as (H1 & H2 & H3 & H4).
    destruct Hin as [[= -> -> ->]|Hin]; [lia|].
    now apply (IHl e'). }
  rewrite length_slice by lia. f_equal. lia.
Qed.

Lemma spans_chain_count (lo hi : nat) (spans : list (nat * nat)) :
  spans_chain lo hi spans -> 13 * List.length spans <= hi - lo.
Proof.
  revert lo. induction spans as [|[b e] rest IH]; intros lo;
    cbn [spans_chain List.length]; [lia|].
  intros (H1 & H2 & H3 & H4). specialize (IH e H4). lia.
Qed.

(** X9.  The marks the scan finds on a line (or in the document) lie one
    after the other inside it, never overlapping, each at least the 13
    characters of [<mark></mark>] wide; [countMarkElements] is their
    number in the document, so thirteen times it is at most the length. *)
Theorem marks_do_not_overlap (content : string) (view : MarkdownView) :
  spans_chain 0 (String.length content) (mark_spans content) /\
  countMarkElements view = List.length (mark_spans (data view)) /\
  13 * countMarkElements view <= String.length (data view).
Proof.
  assert (Hchain : forall text,
             spans_chain 0 (String.length text) (mark_spans text)).
  { intros text. rewrite mark_spans_scan, <- length_chars.
    apply (scan_mark_chain (chars text) 0 0). }
  assert (Hcount : countMarkElements view = List.length (mark_spans (data view))).
  { unfold countMarkElements, match_g, mark_spans.
    destruct (exec_all markRegex (data view)); [reflexivity|].
    now rewrite !length_map. }
  split; [apply Hchain|]. split; [assumption|].
  rewrite Hcount.
  pose proof (spans_chain_count _ _ _ (Hchain (data view))). lia.
Qed.

(** *** Matching on a line that is known in part *)

Lemma chars_app (s1 s2 : string) :
  chars (s1 ++ s2)%string = chars s1 ++ chars s2.
Proof. unfold chars. induction s1 as [|c s1 IH]; cbn; congruence. Qed.

Lemma text_app (l1 l2 : list ascii) :
  text (l1 ++ l2) = (text l1 ++ text l2)%string.
Proof. unfold text. induction l1 as [|c l1 IH]; cbn; congruence. Qed.

Lemma m_first_char r :
  forall x k pos s caps,
    first_char r = Some x ->
    match s with [] => True | c :: _ => Ascii.eqb x c = false end ->
    m r k pos s caps = None.
Proof.
  induction r as [| |cl|cl|cl|cl|cl|i r IH|r1 IH1 r2 IH2];
    intros x k pos s caps Hf Hs; try discriminate Hf; cbn [m first_char] in *.
  - destruct cl; try discriminate Hf. injection Hf as ->.
    destruct s as [|c s]; cbn; [reflexivity|]. now rewrite Hs.
  - now apply (IH x).
  - now apply (IH1 x).
Qed.

Lemma match_at_first_char r x pos s :
  first_char r = Some x ->
  match s with [] => True | c :: _ => Ascii.eqb x c = false end ->
  match_at r pos s = None.
Proof. intros Hf Hs. unfold match_at. now apply (m_first_char r x). Qed.

Lemma m_lit (l : list ascii) :
  forall k pos rest caps,
    m (lit_chars l) k pos (l ++ rest) caps = k (pos + List.length l) rest caps.
Proof.
  induction l as [|c l IH]; intros k pos rest caps.
  - cbn. now rewrite Nat.add_0_r.
  - destruct l as [|c' l].
    + cbn. rewrite Ascii.eqb_refl. now rewrite Nat.add_1_r.
    + change (lit_chars (c :: c' :: l))
        with (RSeq (RAtom (CChar c)) (lit_chars (c' :: l))).
      cbn [m atom class_matches app]. rewrite Ascii.eqb_refl.
      change (c' :: l ++ rest) with ((c' :: l) ++ rest). rewrite IH.
      f_equal. cbn [List.length]. lia.
Qed.

Lemma star_stop cl k caps pos s :
  match s with [] => True | c :: _ => class_matches cl c = false end ->
  star cl k caps pos s = k pos s caps.
Proof. destruct s as [|c s]; cbn; [reflexivity|]. now intros ->. Qed.

Lemma star_greedy cl k caps (l : list ascii) :
  forall pos rest res,
    forallb (class_matches cl) l = true ->
    star cl k caps (pos + List.length l) rest = Some res ->
    star cl k caps pos (l ++ rest) = Some res.
Proof.
  induction l as [|c l IH]; intros pos rest res Hl H.
  - cbn in *. now rewrite Nat.add_0_r in H.
  - cbn [forallb] in Hl. apply andb_true_iff in Hl as [Hc Hl].
    cbn [app star]. rewrite Hc.
    rewrite (IH (S pos) rest res Hl); [reflexivity|].
    cbn [List.length] in H. now rewrite Nat.add_succ_r in H.
Qed.

Lemma lazy_star_now cl k caps pos s res :
  k pos s caps = Some res -> lazy_star cl k caps pos s = Some res.
Proof. intros H. destruct s; cbn; now rewrite H. Qed.

Lemma lazy_star_skip cl k caps (l : list ascii) :
  forall pos rest,
    forallb (class_matches cl) l = true ->
    (forall c p t, In c l -> k p (c :: t) caps = None) ->
    lazy_star cl k caps pos (l ++ rest) =
    lazy_star cl k caps (pos + List.length l) rest.
Proof.
  induction l as [|c l IH]; intros pos rest Hl Hk.
  - cbn. now rewrite Nat.add_0_r.
  - cbn [forallb] in Hl. apply andb_true_iff in Hl as [Hc Hl].
    cbn [app lazy_star]. rewrite (Hk c pos (l ++ rest)) by now left.
    rewrite Hc, IH; [|assumption | intros c' p t Hin; apply Hk; now right].
    f_equal. cbn [List.length]. lia.
Qed.

(** *** Scanning a line that is known in part *)

Lemma lacksl_app x l1 l2 :
  lacksl x (l1 ++ l2) = lacksl x l1 && lacksl x l2.
Proof. apply forallb_app. Qed.

Lemma lacksl_head x l rest :
  lacksl x l = true ->
  match rest with [] => True | c :: _ => Ascii.eqb x c = false end ->
  match l ++ rest with [] => True | c :: _ => Ascii.eqb x c = false end.
Proof.
  destruct l as [|c l]; cbn; [trivial|].
  intros H _. apply andb_true_iff in H as [H _]. now apply negb_true_iff in H.
Qed.

Section Scanning.
Variable r : regex.
Variable x : ascii.
Hypothesis starts_with : first_char r = Some x.

Lemma scan_plain (l : list ascii) :
  forall pos rest,
    lacksl x l = true ->
    scan r pos 0 (l ++ rest) = scan r (pos + List.length l) 0 rest.
Proof.
  induction l as [|c l IH]; intros pos rest Hl.
  - cbn. now rewrite Nat.add_0_r.
  - cbn [lacksl forallb] in Hl. apply andb_true_iff in Hl as [Hc Hl].
    apply negb_true_iff in Hc. cbn [app scan].
    rewrite (match_at_first_char r x pos (c :: l ++ rest) starts_with Hc).
    rewrite (IH (S pos) rest Hl). f_equal. cbn [List.length]. lia.
Qed.

Lemma scan_end (pos : nat) : scan r pos 0 [] = [].
Proof.
  cbn. now rewrite (match_at_first_char r x pos [] starts_with I).
Qed.

Lemma scan_skip (l : list ascii) :
  forall pos rest,
    scan r pos (List.length l) (l ++ rest) = scan r (pos + List.length l) 0 rest.
Proof.
  induction l as [|c l IH]; intros pos rest.
  - cbn [List.length app]. now rewrite Nat.add_0_r.
  - cbn [List.length app scan]. rewrite IH. f_equal. lia.
Qed.

Lemma scan_match (c : ascii) (l rest : list ascii) pos caps :
  match_at r pos (c :: l ++ rest) = Some (pos + S (List.length l), caps) ->
  scan r pos 0 (c :: l ++ rest) =
  (pos, pos + S (List.length l), caps) ::
  scan r (pos + S (List.length l)) 0 rest.
Proof.
  intros H. cbn [scan]. rewrite H. f_equal.
  replace (pos + S (List.length l) - pos - 1) with (List.length l) by lia.
  rewrite scan_skip. f_equal. lia.
Qed.

Lemma replace_scan_plain repl (l : list ascii) :
  forall pos rest,
    lacksl x l = true ->
    replace_scan r repl pos 0 (l ++ rest) =
    l ++ replace_scan r repl (pos + List.length l) 0 rest.
Proof.
  induction l as [|c l IH]; intros pos rest Hl.
  - cbn. now rewrite Nat.add_0_r.
  - cbn [lacksl forallb] in Hl. apply andb_true_iff in Hl as [Hc Hl].
    apply negb_true_iff in Hc. cbn [app replace_scan].
    rewrite (match_at_first_char r x pos (c :: l ++ rest) starts_with Hc).
    rewrite (IH (S pos) rest Hl).
    replace (pos + List.length (c :: l)) with (S pos + List.length l)
      by (cbn [List.length]; lia).
    reflexivity.
Qed.

Lemma replace_scan_end repl (pos : nat) : replace_scan r repl pos 0 [] = [].
Proof.
  cbn. now rewrite (match_at_first_char r x pos [] starts_with I).
Qed.

Lemma replace_scan_skip repl (l : list ascii) :
  forall pos rest,
    replace_scan r repl pos (List.length l) (l ++ rest) =
    replace_scan r repl (pos + List.length l) 0 rest.
Proof.
  induction l as [|c l IH]; intros pos rest.
  - cbn [List.length app]. now rewrite Nat.add_0_r.
  - cbn [List.length app replace_scan]. rewrite IH. f_equal. lia.
Qed.

Lemma replace_scan_match repl (c : ascii) (l rest : list ascii) pos caps :
  match_at r pos (c :: l ++ rest) = Some (pos + S (List.length l), caps) ->
  replace_scan r repl pos 0 (c :: l ++ rest) =
  repl ++ replace_scan r repl (pos + S (List.length l)) 0 rest.
Proof.
  intros H. cbn [replace_scan]. rewrite H. f_equal.
  replace (pos + S (List.length l) =? pos) with false
    by (symmetry; apply Nat.eqb_neq; lia).
  replace (pos + S (List.length l) - pos - 1) with (List.length l) by lia.
  cbn [app]. rewrite replace_scan_skip. f_equal. lia.
Qed.
End Scanning.

(** *** The patterns on one mark *)

Lemma atom_ok cl k caps pos c s :
  class_matches cl c = true ->
  atom cl k caps pos (c :: s) = k (S pos) s caps.
Proof. intros H. cbn. now rewrite H. Qed.

Lemma atom_fail cl k caps pos s :
  match s with [] => True | c :: _ => class_matches cl c = false end ->
  atom cl k caps pos s = None.
Proof. destruct s as [|c s]; cbn; [reflexivity|]. now intros ->. Qed.

Lemma not_gt_lacks (l : list ascii) :
  forallb (class_matches (CNot [gt])) l = lacksl gt l.
Proof.
  induction l as [|c l IH]; [reflexivity|].
  unfold lacksl in *. cbn [forallb]. rewrite IH. f_equal.
  cbn. rewrite orb_false_r. now rewrite Ascii.eqb_sym.
Qed.

Lemma chars_mark_text (attrs inner : string) :
  chars (mark_text attrs inner) =
  "<"%char :: mark_tail (chars attrs) (chars inner).
Proof.
  unfold mark_text, mark_tail. rewrite !chars_app. reflexivity.
Qed.

Lemma length_mark_tail (attrs inner : list ascii) :
  List.length (mark_tail attrs inner) =
  List.length attrs + List.length inner + 12.
Proof.
  unfold mark_tail. rewrite !length_app. cbn [List.length]. rewrite !length_app.
  cbn. lia.
Qed.

Lemma mark_tail_app (attrs inner rest : list ascii) :
  "<"%char :: mark_tail attrs inner ++ rest =
  chars "<mark" ++ attrs ++ ">"%char :: inner ++ chars "</mark>" ++ rest.
Proof.
  unfold mark_tail. cbn [chars list_ascii_of_string app].
  rewrite <- !app_assoc. cbn [app]. rewrite <- !app_assoc. reflexivity.
Qed.

Lemma mark_match (attrs inner rest : list ascii) (pos : nat) :
  lacksl gt attrs = true ->
  lacksl "<" inner = true ->
  forallb (fun c => negb (is_line_terminator c)) inner = true ->
  exists caps,
    match_at markRegex pos ("<"%char :: mark_tail attrs inner ++ rest) =
    Some (pos + S (List.length (mark_tail attrs inner)), caps).
Proof.
  intros Hattrs Hinner Hline. eexists.
  rewrite mark_tail_app, length_mark_tail.
  unfold match_at, markRegex. cbn [seq_of m]. unfold lit at 1.
  rewrite m_lit. cbn [m].
  apply star_greedy; [now rewrite not_gt_lacks|].
  rewrite star_stop by reflexivity.
  rewrite atom_ok by reflexivity.
  rewrite lazy_star_skip.
  - apply lazy_star_now. unfold lit. rewrite m_lit.
    f_equal. f_equal. cbn [List.length chars list_ascii_of_string]. lia.
  - exact Hline.
  - intros c p t Hin. apply (m_first_char _ "<"%char); [reflexivity|].
    unfold lacksl in Hinner. rewrite forallb_forall in Hinner.
    now apply negb_true_iff, Hinner.
Qed.

Lemma open_tag_match (attrs rest : list ascii) (pos : nat) :
  lacksl gt attrs = true ->
  match_at markTagRegex pos
           ("<"%char :: (chars "mark" ++ attrs ++ [gt]) ++ rest) =
  Some (pos + S (List.length (chars "mark" ++ attrs ++ [gt])), []).
Proof.
  intros Hattrs. unfold match_at, markTagRegex. cbn [seq_of m].
  rewrite atom_ok by reflexivity.
  rewrite <- !app_assoc.
  rewrite atom_fail by reflexivity.
  unfold lit. rewrite m_lit. cbn [m].
  apply star_greedy; [now rewrite not_gt_lacks|].
  cbn [app]. rewrite star_stop by reflexivity.
  rewrite atom_ok by reflexivity.
  f_equal. f_equal. rewrite !length_app. cbn. lia.
Qed.

Lemma close_tag_match (rest : list ascii) (pos : nat) :
  match_at markTagRegex pos ("<"%char :: chars "/mark>" ++ rest) =
  Some (pos + S (List.length (chars "/mark>")), []).
Proof.
  unfold match_at, markTagRegex. cbn [seq_of m].
  rewrite atom_ok by reflexivity.
  cbn [chars list_ascii_of_string app].
  rewrite atom_ok by reflexivity.
  change ("m"%char :: "a"%char :: "r"%char :: "k"%char :: ">"%char :: rest)
    with (chars "mark" ++ ">"%char :: rest).
  unfold lit. rewrite m_lit. cbn [m].
  rewrite star_stop by reflexivity.
  rewrite atom_ok by reflexivity.
  f_equal. f_equal. cbn. lia.
Qed.

(** Taking the tags off one mark leaves what is between them. *)
Lemma strip_tags_of_mark (attrs inner : list ascii) :
  lacksl gt attrs = true ->
  lacksl "<" inner = true ->
  replace_scan markTagRegex [] 0 0 ("<"%char :: mark_tail attrs inner) = inner.
Proof.
  intros Hattrs Hinner.
  replace ("<"%char :: mark_tail attrs inner)
    with ("<"%char :: (chars "mark" ++ attrs ++ [gt]) ++
          inner ++ "<"%char :: chars "/mark>" ++ [])
    by (unfold mark_tail; rewrite <- !app_assoc; reflexivity).
  rewrite (replace_scan_match markTagRegex [] _ _ _ _ _
             (open_tag_match attrs _ 0 Hattrs)).
  cbn [app].
  rewrite (replace_scan_plain markTagRegex "<"%char eq_refl [] inner _ _ Hinner).
  rewrite (replace_scan_match markTagRegex [] _ _ _ _ _ (close_tag_match [] _)).
  cbn [app]. rewrite (replace_scan_end markTagRegex "<"%char eq_refl).
  apply app_nil_r.
Qed.

(** *** A line with one mark *)

Lemma firstn_exact {A : Type} (l1 l2 : list A) :
  firstn (List.length l1) (l1 ++ l2) = l1.
Proof.
  rewrite firstn_app, firstn_all, Nat.sub_diag, firstn_0. apply app_nil_r.
Qed.

Lemma skipn_exact {A : Type} (l1 l2 : list A) :
  skipn (List.length l1) (l1 ++ l2) = l2.
Proof. rewrite skipn_app, skipn_all, Nat.sub_diag. reflexivity. Qed.

Lemma slice_middle (s1 s2 s3 : string) :
  slice (s1 ++ s2 ++ s3) (String.length s1)
        (String.length s1 + String.length s2) = s2.
Proof.
  unfold slice. rewrite !chars_app, <- !length_chars, skipn_exact.
  replace (List.length (chars s1) + List.length (chars s2) - List.length (chars s1))
    with (List.length (chars s2)) by lia.
  rewrite firstn_exact. apply text_chars.
Qed.

Lemma splice_middle (s1 s2 s3 replacement : string) :
  splice (s1 ++ s2 ++ s3) (String.length s1)
         (String.length s1 + String.length s2) replacement =
  (s1 ++ replacement ++ s3)%string.
Proof.
  unfold splice. rewrite !chars_app, <- !length_chars, firstn_exact.
  rewrite (app_assoc (chars s1) (chars s2) (chars s3)), <- length_app, skipn_exact.
  now rewrite !text_app, !text_chars.
Qed.

Lemma mark_spans_one (pre attrs inner post : string) :
  lacks "<" pre = true -> lacks "<" post = true ->
  lacks gt attrs = true -> lacks "<" inner = true ->
  single_line inner = true ->
  mark_spans (pre ++ mark_text attrs inner ++ post) =
  [(String.length pre,
    String.length pre + String.length (mark_text attrs inner))].
Proof.
  intros Hpre Hpost Hattrs Hinner Hline.
  rewrite mark_spans_scan, !chars_app, chars_mark_text.
  rewrite (scan_plain markRegex "<"%char eq_refl (chars pre) _ _ Hpre).
  destruct (mark_match (chars attrs) (chars inner) (chars post)
              (0 + List.length (chars pre)) Hattrs Hinner Hline) as [caps Hm].
  cbn [app].
  rewrite (scan_match markRegex _ _ _ _ _ Hm).
  rewrite <- (app_nil_r (chars post)).
  rewrite (scan_plain markRegex "<"%char eq_refl (chars post) _ _ Hpost).
  rewrite (scan_end markRegex "<"%char eq_refl).
  cbn [map fst snd Nat.add].
  rewrite <- (length_chars (mark_text attrs inner)), chars_mark_text.
  now rewrite length_chars.
Qed.

Lemma strip_tags_of_mark_text (attrs inner : string) :
  lacks gt attrs = true -> lacks "<" inner = true ->
  replace_g markTagRegex EmptyString (mark_text attrs inner) = inner.
Proof.
  intros Hattrs Hinner. unfold replace_g. rewrite chars_mark_text.
  change (chars EmptyString) with (@nil ascii).
  rewrite strip_tags_of_mark by assumption. apply text_chars.
Qed.

Lemma unwrap_one_mark settings (pre attrs inner post : string)
      (from to : nat) rng :
  lacks "<" pre = true -> lacks "<" post = true ->
  lacks gt attrs = true -> lacks "<" inner = true ->
  single_line inner = true ->
  from < to -> to <= String.length (pre ++ mark_text attrs inner ++ post) ->
  from < String.length pre + String.length (mark_text attrs inner) ->
  String.length pre < to ->
  fst (highlightSelectedText settings
         (oneLineView (pre ++ mark_text attrs inner ++ post) from to) rng) =
    [replaceRange inner (mkPos 0 (String.length pre))
       (mkPos 0 (String.length pre + String.length (mark_text attrs inner)))] /\
  toggle_line settings (pre ++ mark_text attrs inner ++ post) from to rng =
    (pre ++ inner ++ post)%string.
Proof.
  intros Hpre Hpost Hattrs Hinner Hline Hlt Hlen Hstop Hstart.
  set (content := (pre ++ mark_text attrs inner ++ post)%string) in *.
  set (start := String.length pre) in *.
  set (stop := String.length pre + String.length (mark_text attrs inner)) in *.
  assert (Hspans : mark_spans content = [(start, stop)])
    by now apply mark_spans_one.
  assert (Hov : overlaps from to (start, stop) = true)
    by (apply overlaps_iff; cbn [fst snd]; lia).
  assert (Hcalls :
    fst (highlightSelectedText settings (oneLineView content from to) rng) =
    [replaceRange inner (mkPos 0 start) (mkPos 0 stop)]).
  { rewrite toggle_removal.
    - unfold marksToRemove. rewrite mark_loop_filter. cbn [fst snd].
      change (mark_spans (currentLine (oneLineView content from to)))
        with (mark_spans content).
      change (selectedStart (oneLineView content from to)) with from.
      change (selectedEnd (oneLineView content from to)) with to.
      rewrite Hspans. cbn [filter]. rewrite Hov. cbn [map remove_mark].
      change (currentLine (oneLineView content from to)) with content.
      unfold content at 1, start, stop. rewrite slice_middle.
      now rewrite strip_tags_of_mark_text.
    - cbn [oneLineView editor getSelection]. now apply slice_nonempty.
    - unfold isHighlight. rewrite mark_loop_filter. cbn [fst].
      change (mark_spans (currentLine (oneLineView content from to)))
        with (mark_spans content).
      change (selectedStart (oneLineView content from to)) with from.
      change (selectedEnd (oneLineView content from to)) with to.
      rewrite Hspans. cbn [existsb]. now rewrite Hov. }
  split; [assumption|].
  unfold toggle_line. rewrite Hcalls. cbn [run_calls fold_left run_call ch].
  unfold content, start, stop. apply splice_middle.
Qed.

(** *** Removal, span by span *)

(** C5, as the code has it.  On the line [a<mark style="x">hi</mark>b], a
    toggle whose selection lies within the mark span [[1, 26)] asks for one
    replacement, of the whole span by its inner text [hi], and the line
    becomes [ahib].  On any line, a toggle that removes asks for one
    replacement for each overlapping span, at the offsets of the span in
    the line as it was read, by the text of the span without the matches of
    the tag pattern; for a span that is a mark element with attributes
    without [>] and a content without [<], that text is the content. *)
Theorem removal_strips_tags settings rng :
  (forall from to, 1 <= from -> from < to -> to <= 26 ->
     fst (highlightSelectedText settings (oneLineView marked_line from to) rng) =
       [replaceRange "hi" (mkPos 0 1) (mkPos 0 26)] /\
     toggle_line settings marked_line from to rng = "ahib") /\
  (forall view,
     getSelection (editor view) <> EmptyString -> isHighlight view = true ->
     let lineNumber := line (getCursor (editor view)) in
     let calls := fst (highlightSelectedText settings view rng) in
     calls =
     map (fun span =>
            replaceRange
              (replace_g markTagRegex EmptyString
                         (slice (currentLine view) (fst span) (snd span)))
              (mkPos lineNumber (fst span)) (mkPos lineNumber (snd span)))
         (marksToRemove view) /\
     (forall span attrs inner,
        In span (marksToRemove view) ->
        slice (currentLine view) (fst span) (snd span) = mark_text attrs inner ->
        lacks gt attrs = true -> lacks "<" inner = true ->
        In (replaceRange inner (mkPos lineNumber (fst span))
                         (mkPos lineNumber (snd span))) calls)).
Proof.
  split.
  - intros from to H1 Hlt H26.
    assert (Hcalls :
      fst (highlightSelectedText settings (oneLineView marked_line from to) rng) =
      [replaceRange "hi" (mkPos 0 1) (mkPos 0 26)]).
    { rewrite toggle_removal.
      - unfold marksToRemove. rewrite mark_loop_filter. cbn [fst snd].
        change (mark_spans (currentLine (oneLineView marked_line from to)))
          with (mark_spans marked_line).
        replace (mark_spans marked_line) with [(1, 26)]
          by (vm_compute; reflexivity).
        cbn [filter].
        replace (overlaps (selectedStart (oneLineView marked_line from to))
                          (selectedEnd (oneLineView marked_line from to)) (1, 26))
          with true.
        + vm_compute. reflexivity.
        + symmetry. apply overlaps_iff. cbn. lia.
      - cbn [oneLineView editor getSelection].
        apply slice_nonempty; [assumption|].
        replace (String.length marked_line) with 27
          by (vm_compute; reflexivity).
        lia.
      - unfold isHighlight. rewrite mark_loop_filter. cbn [fst].
        apply existsb_exists. exists (1, 26). split.
        + vm_compute. now left.
        + apply overlaps_iff. cbn. lia. }
    split; [assumption|].
    unfold toggle_line. rewrite Hcalls. vm_compute. reflexivity.
  - intros view Hsel Hhl lineNumber calls.
    assert (Hcalls : calls =
      map (fun span =>
             replaceRange
               (replace_g markTagRegex EmptyString
                          (slice (currentLine view) (fst span) (snd span)))
               (mkPos lineNumber (fst span)) (mkPos lineNumber (snd span)))
          (marksToRemove view)).
    { unfold calls. rewrite toggle_removal by assumption. cbn [fst].
      apply map_ext. intros [start stop]. reflexivity. }
    split; [assumption|].
    intros span attrs inner Hin Hslice Hattrs Hinner.
    rewrite Hcalls. apply in_map_iff. exists span. split; [|assumption].
    now rewrite Hslice, strip_tags_of_mark_text.
Qed.

Lemma removal_strips_tags_witness :
  toggle_line blue_green_red marked_line 17 19 (constant_source 0) = "ahib" /\
  In (replaceRange "hi" (mkPos 0 1) (mkPos 0 26))
     (fst (highlightSelectedText blue_green_red (oneLineView marked_line 17 19)
                                 (constant_source 0))).
Proof.
  split.
  - apply (proj1 (removal_strips_tags blue_green_red (constant_source 0)) 17 19);
      lia.
  - apply (proj2 (proj2 (removal_strips_tags blue_green_red (constant_source 0))
                    (oneLineView marked_line 17 19) ltac:(discriminate) eq_refl)
             (1, 26) (" style=" ++ dq ++ "x" ++ dq)%string "hi");
      vm_compute; (reflexivity || now left).
Defined.

(** The content of a mark is not always kept: a tag inside it whose name
    begins with [mark] is a match of the tag pattern and goes with the two
    tags of the element. *)
Lemma inner_tag_is_stripped :
  option_map (group 1) (exec markRegex "<mark>x<markdown>y</mark>") =
    Some (Some "x<markdown>y") /\
  marksToRemove (oneLineView "<mark>x<markdown>y</mark>" 6 7) = [(0, 25)] /\
  fst (highlightSelectedText blue_green_red
         (oneLineView "<mark>x<markdown>y</mark>" 6 7) (constant_source 0)) =
    [replaceRange "xy" (mkPos 0 0) (mkPos 0 25)] /\
  toggle_line blue_green_red "<mark>x<markdown>y</mark>" 6 7 (constant_source 0) =
    "xy" /\
  "xy" <> "x<markdown>y".
Proof.
  split; [|split; [|split; [|split]]];
    try (vm_compute; reflexivity); discriminate.
Qed.

(** With two overlapping spans the second replacement is asked for at the
    offsets of the line as it was read, though the first has shortened the
    line by then. *)
Lemma removal_reuses_offsets :
  fst (highlightSelectedText blue_green_red
         (oneLineView "<mark>a</mark><mark>b</mark>" 0 28) (constant_source 0)) =
    [replaceRange "a" (mkPos 0 0) (mkPos 0 14);
     replaceRange "b" (mkPos 0 14) (mkPos 0 28)] /\
  toggle_line blue_green_red "<mark>a</mark><mark>b</mark>" 0 28
              (constant_source 0) = "a<mark>b</markb".
Proof. split; vm_compute; reflexivity. Qed.

(** X10.  On a line whose only [<] are those of one mark element (the
    attributes of the mark without [>], its content on one line), a toggle
    whose selection overlaps the mark asks for one replacement, of the
    element by its content, and the line becomes the text before, the
    content and the text after. *)
Theorem removal_unwraps_mark settings (pre attrs inner post : string)
        (from to : nat) rng :
  lacks "<" pre = true -> lacks "<" post = true ->
  lacks gt attrs = true -> lacks "<" inner = true ->
  single_line inner = true ->
  let content := (pre ++ mark_text attrs inner ++ post)%string in
  let start := String.length pre in
  let stop := String.length pre + String.length (mark_text attrs inner) in
  from < to -> to <= String.length content ->
  from < stop -> start < to ->
  fst (highlightSelectedText settings (oneLineView content from to) rng) =
    [replaceRange inner (mkPos 0 start) (mkPos 0 stop)] /\
  toggle_line settings content from to rng = (pre ++ inner ++ post)%string.
Proof. cbv zeta. apply unwrap_one_mark. Qed.

Lemma removal_unwraps_mark_witness :
  toggle_line blue_green_red ("a" ++ mark_text (" style=" ++ dq ++ "x" ++ dq) "hi" ++ "b")
              17 19 (constant_source 0) = ("a" ++ "hi" ++ "b")%string.
Proof.
  apply (removal_unwraps_mark blue_green_red "a" (" style=" ++ dq ++ "x" ++ dq)
           "hi" "b" 17 19 (constant_source 0));
    try reflexivity; vm_compute; lia.
Defined.

(** *** A line without marks *)

Lemma search_plain r x (l : list ascii) :
  first_char r = Some x ->
  forall pos, lacksl x l = true -> search r pos l = None.
Proof.
  intros Hf. induction l as [|c l IH]; intros pos Hl; cbn [search].
  - now rewrite (match_at_first_char r x pos [] Hf I).
  - cbn [lacksl forallb] in Hl. apply andb_true_iff in Hl as [Hc Hl].
    apply negb_true_iff in Hc.
    rewrite (match_at_first_char r x pos (c :: l) Hf Hc). now apply IH.
Qed.

Lemma exec_plain (content : string) :
  lacks "<" content = true -> exec highlightindexRegex content = None.
Proof.
  intros H. unfold exec.
  now rewrite (search_plain highlightindexRegex "<"%char (chars content) eq_refl 0 H).
Qed.

Lemma mark_spans_plain (content : string) :
  lacks "<" content = true -> mark_spans content = [].
Proof.
  intros H. rewrite mark_spans_scan, <- (app_nil_r (chars content)).
  rewrite (scan_plain markRegex "<"%char eq_refl (chars content) _ _ H).
  now rewrite (scan_end markRegex "<"%char eq_refl).
Qed.

Lemma countMarkElements_spans (view : MarkdownView) :
  countMarkElements view = List.length (mark_spans (data view)).
Proof.
  unfold countMarkElements, match_g, mark_spans.
  destruct (exec_all markRegex (data view)); [reflexivity|].
  now rewrite !length_map.
Qed.

Lemma lacks_app x (s1 s2 : string) :
  lacks x (s1 ++ s2) = lacks x s1 && lacks x s2.
Proof. unfold lacks. rewrite chars_app. apply lacksl_app. Qed.

Lemma length_append (s1 s2 : string) :
  String.length (s1 ++ s2) = String.length s1 + String.length s2.
Proof. now rewrite <- !length_chars, chars_app, length_app. Qed.

(** The first highlight of a line without marks. *)
Lemma first_insertion settings (pre sel post : string) rng :
  lacks "<" (pre ++ sel ++ post) = true ->
  sel <> EmptyString ->
  let content := (pre ++ sel ++ post)%string in
  let view := oneLineView content (String.length pre)
                          (String.length pre + String.length sel) in
  let drawn :=
    getRandomBetween 0 (Z.of_nat (List.length (colors settings))) rng in
  let colour :=
    array_get (colors settings) (colorIndexOf settings (fst drawn) 0) in
  insertion_path view /\
  highlightSelectedText settings view rng =
    ([replaceSelection (first_mark (fst drawn) colour sel)], snd drawn) /\
  toggle_line settings content (String.length pre)
              (String.length pre + String.length sel) rng =
    (pre ++ first_mark (fst drawn) colour sel ++ post)%string.
Proof.
  intros Hplain Hsel content view drawn colour.
  assert (Hslice : getSelection (editor view) = sel)
    by apply slice_middle.
  assert (Hins : insertion_path view).
  { split; [now rewrite Hslice|].
    unfold isHighlight. rewrite mark_loop_filter. cbn [fst].
    change (mark_spans (currentLine view)) with (mark_spans content).
    now rewrite (mark_spans_plain content Hplain). }
  assert (Hcount : countMarkElements view = 0).
  { rewrite countMarkElements_spans.
    change (data view) with content.
    now rewrite (mark_spans_plain content Hplain). }
  assert (Hoff : getColorIndexOffset settings view rng = drawn).
  { apply getColorIndexOffset_untagged.
    change (getValue (editor view)) with content. now apply exec_plain. }
  assert (Hcalls : highlightSelectedText settings view rng =
                   ([replaceSelection (first_mark (fst drawn) colour sel)],
                    snd drawn)).
  { rewrite (toggle_insertion _ _ _ Hins). cbv zeta.
    now rewrite Hcount, Hoff, Hslice. }
  split; [assumption|]. split; [assumption|].
  unfold toggle_line. fold view. rewrite Hcalls.
  cbn [fst run_calls fold_left run_call]. apply splice_middle.
Qed.

(** *** What the inserted marks are made of *)

Lemma append_assoc (s1 s2 s3 : string) :
  ((s1 ++ s2) ++ s3 = s1 ++ s2 ++ s3)%string.
Proof. induction s1 as [|c s1 IH]; cbn; congruence. Qed.

Lemma first_mark_mark_text (indexOffset : Z) (highlightColor : option string)
      (selectedText : string) :
  first_mark indexOffset highlightColor selectedText =
  mark_text (first_attrs indexOffset highlightColor) selectedText.
Proof.
  unfold first_mark, mark_text, first_attrs, style_attr, concat.
  cbn [fold_right]. rewrite !append_assoc. reflexivity.
Qed.

Lemma later_mark_mark_text (highlightColor : option string)
      (selectedText : string) :
  later_mark highlightColor selectedText =
  mark_text (style_attr highlightColor) selectedText.
Proof.
  unfold later_mark, mark_text, style_attr, concat.
  cbn [fold_right]. rewrite !append_assoc. reflexivity.
Qed.

Lemma uint_digits (d : Decimal.uint) :
  forallb is_digit (chars (DecimalString.NilEmpty.string_of_uint d)) = true.
Proof. induction d; cbn; auto. Qed.

Lemma digits_lack x (l : list ascii) :
  is_digit x = false -> forallb is_digit l = true -> lacksl x l = true.
Proof.
  intros Hx Hl. unfold lacksl. apply forallb_forall. intros c Hin.
  rewrite forallb_forall in Hl. specialize (Hl c Hin).
  apply negb_true_iff. destruct (Ascii.eqb x c) eqn:E; [|reflexivity].
  apply Ascii.eqb_eq in E. congruence.
Qed.

Lemma Z_to_string_lacks x (z : Z) :
  is_digit x = false -> Ascii.eqb x "-" = false ->
  lacks x (Z_to_string z) = true.
Proof.
  intros Hx Hm. unfold lacks, Z_to_string.
  assert (Hu : forall d,
             lacksl x (chars (DecimalString.NilZero.string_of_uint d)) = true).
  { intros d. apply digits_lack; [assumption|].
    destruct d; try apply (uint_digits (_ d)). reflexivity. }
  destruct (Z.to_int z) as [d|d]; cbn [DecimalString.NilZero.string_of_int].
  - apply Hu.
  - cbn. rewrite Hm. apply Hu.
Qed.

Lemma colour_lacks x (colors : list string) (i : number) :
  lacks x "undefined" = true ->
  Forall (fun color => lacks x color = true) colors ->
  lacks x (string_or_undefined (array_get colors i)) = true.
Proof.
  intros Hu Hall. destruct (array_get colors i) as [color|] eqn:E; [|exact Hu].
  cbn [string_or_undefined]. rewrite Forall_forall in Hall. apply Hall.
  unfold array_get in E. destruct i as [z| |]; try discriminate E.
  destruct (z <? 0)%Z; [discriminate E|]. now apply nth_error_In in E.
Qed.

Lemma style_attr_lacks x (highlightColor : option string) :
  lacks x (" style=" ++ dq ++ "background-color: " ++ ";" ++ dq) = true ->
  lacks x (string_or_undefined highlightColor) = true ->
  lacks x (style_attr highlightColor) = true.
Proof.
  intros Hfix Hc. unfold style_attr, concat. cbn [fold_right].
  rewrite !lacks_app in *. rewrite !andb_true_iff in *.
  repeat split; tauto.
Qed.

Lemma first_attrs_lacks x (indexOffset : Z) (highlightColor : option string) :
  lacks x (" highlightindex=" ++ dq ++ dq) = true ->
  lacks x (Z_to_string indexOffset) = true ->
  lacks x (style_attr highlightColor) = true ->
  lacks x (first_attrs indexOffset highlightColor) = true.
Proof.
  intros Hfix Hz Hs. unfold first_attrs, concat. cbn [fold_right].
  rewrite !lacks_app in *. rewrite !andb_true_iff in *.
  repeat split; tauto.
Qed.

(** X11.  Highlighting a selection of a line without [<] and then toggling
    on any selection that overlaps the new mark gives the line back, when
    no colour of the palette contains [>] and the selected text has no line
    terminator. *)
Theorem insert_then_remove settings settings' (pre sel post : string)
        rng rng' (from to : nat) :
  lacks "<" (pre ++ sel ++ post) = true ->
  sel <> EmptyString ->
  single_line sel = true ->
  Forall (fun color => lacks gt color = true) (colors settings) ->
  let line0 := (pre ++ sel ++ post)%string in
  let line1 := toggle_line settings line0 (String.length pre)
                           (String.length pre + String.length sel) rng in
  from < to -> to <= String.length line1 ->
  from < String.length line1 - String.length post ->
  String.length pre < to ->
  line1 <> line0 /\
  toggle_line settings' line1 from to rng' = line0.
Proof.
  intros Hplain Hsel Hline Hcolors line0 line1.
  pose proof (first_insertion settings pre sel post rng Hplain Hsel) as Hfirst.
  cbv zeta in Hfirst. destruct Hfirst as (_ & _ & Hline1).
  subst line0 line1. rewrite Hline1. clear Hline1.
  set (drawn := getRandomBetween 0 _ rng).
  set (colour := array_get _ _).
  rewrite first_mark_mark_text.
  rewrite !lacks_app, !andb_true_iff in Hplain.
  destruct Hplain as (Hpre & Hselp & Hpost).
  intros Hlt Hlen Hstop Hstart.
  assert (Hattrs : lacks gt (first_attrs (fst drawn) colour) = true).
  { apply first_attrs_lacks; [reflexivity | now apply Z_to_string_lacks|].
    apply style_attr_lacks; [reflexivity|].
    now apply colour_lacks. }
  split.
  - intros E. apply (f_equal String.length) in E.
    unfold mark_text in E. rewrite !length_append in E. cbn in E. lia.
  - apply unwrap_one_mark; try assumption.
    rewrite (length_append pre), (length_append (mark_text _ _)) in Hstop. lia.
Qed.

Lemma insert_then_remove_witness :
  toggle_line DEFAULT_SETTINGS
    (toggle_line blue_green_red "hello world" 0 5 (constant_source (1 # 4)))
    3 9 (constant_source 0) = "hello world".
Proof.
  apply (insert_then_remove blue_green_red DEFAULT_SETTINGS
           EmptyString "hello" " world" (constant_source (1 # 4))
           (constant_source 0) 3 9);
    try reflexivity; try discriminate; try (vm_compute; lia).
  repeat constructor.
Defined.

(** *** Writing a number and reading it back *)








(** *** The offset a first highlight writes, read back *)



Lemma star_none_cons cl k caps pos c s :
  star cl k caps (S pos) s = None ->
  k pos (c :: s) caps = None ->
  star cl k caps pos (c :: s) = None.
Proof. intros Hs H. cbn. rewrite Hs. now destruct (class_matches cl c). Qed.


Lemma first_char_lit c l : first_char (lit_chars (c :: l)) = Some c.
Proof. destruct l; reflexivity. Qed.

Lemma m_lit_second a b l k pos c t caps :
  Ascii.eqb b c = false ->
  m (lit_chars (a :: b :: l)) k pos (a :: c :: t) caps = None.
Proof.
  intros H.
  change (lit_chars (a :: b :: l)) with (RSeq (RAtom (CChar a)) (lit_chars (b :: l))).
  cbn [m atom class_matches]. rewrite Ascii.eqb_refl.
  apply (m_first_char _ b); [apply first_char_lit | exact H].
Qed.















(** *** The default sort *)

Lemma leb_trans (x y z : string) :
  String.leb x y = true -> String.leb y z = true -> String.leb x z = true.
Proof.
  unfold String.leb.
  destruct (String.compare x y) eqn:Exy; [| |discriminate].
  - apply String.compare_eq_iff in Exy. now subst.
  - destruct (String.compare y z) eqn:Eyz; [| |discriminate].
    + apply String.compare_eq_iff in Eyz. subst. now rewrite Exy.
    + intros _ _.
      apply OrderedTypeEx.String_as_OT.cmp_lt in Exy, Eyz.
      pose proof (OrderedTypeEx.String_as_OT.lt_trans _ _ _ Exy Eyz) as Hxz.
      apply OrderedTypeEx.String_as_OT.cmp_lt in Hxz.
      unfold OrderedTypeEx.String_as_OT.cmp in Hxz. now rewrite Hxz.
Qed.

Lemma defaultCompare_leb (x y : string) :
  Qle_bool (defaultCompare x y) 0 = String.leb x y.
Proof.
  unfold defaultCompare, String.ltb, String.leb.
  rewrite (String.compare_antisym y x).
  now destruct (String.compare x y).
Qed.

Section SortByOrder.
Context {A : Type}.
Variable compare : A -> A -> Q.
Variable le : A -> A -> bool.
Hypothesis compare_le : forall x y, Qle_bool (compare x y) 0 = le x y.
Hypothesis le_total : forall x y, le x y = true \/ le y x = true.

Lemma insert_ascending (x : A) (l : list A) :
  Sorted (fun a b => le a b = true) l ->
  Sorted (fun a b => le a b = true) (insert compare x l).
Proof.
  induction 1 as [|y l Hs IH Hhd]; cbn.
  - repeat constructor.
  - rewrite compare_le. destruct (le x y) eqn:E.
    + repeat constructor; assumption.
    + assert (Hyx : le y x = true)
        by (destruct (le_total x y); [congruence | assumption]).
      constructor; [assumption|].
      destruct Hhd as [|z l Hz]; cbn.
      * now constructor.
      * rewrite compare_le. destruct (le x z); now constructor.
Qed.

Lemma sort_ascending (l : list A) :
  Sorted (fun a b => le a b = true) (sort compare l).
Proof.
  induction l as [|x l IH]; cbn; [constructor|].
  now apply insert_ascending.
Qed.
End SortByOrder.

Lemma sortDefault_ascending (colors : list string) :
  ascending (sortDefault colors).
Proof.
  apply (sort_ascending defaultCompare String.leb defaultCompare_leb
                        String.leb_total).
Qed.

(** X13.  The handlers that call [colors.sort()].  The [Add] button of the
    first snapshot, answered with a colour, leaves the palette in ascending
    order of code units, holding the old colours and the new one; answered
    with nothing, or cancelled, it leaves the palette as it was.  A text
    field that loses focus leaves the palette in the same ascending order,
    as long as before, holding the value of the field in place of the
    colour the field was drawn for. *)
Theorem default_sort_handlers (colors : list string) :
  (forall color, color <> EmptyString ->
     ascending (addPromptedColor (Some color) colors) /\
     Permutation (addPromptedColor (Some color) colors) (color :: colors)) /\
  addPromptedColor None colors = colors /\
  addPromptedColor (Some EmptyString) colors = colors /\
  (forall index value, index < List.length colors ->
     exists result,
       blurColor index value colors = Some result /\
       ascending result /\
       List.length result = List.length colors /\
       Permutation result (value :: deleteColor index colors)).
Proof.
  split; [|split; [reflexivity|split; [reflexivity|]]].
  - intros color Hne. unfold addPromptedColor.
    rewrite (proj2 (truthy_nonempty color) Hne). cbn [string_or_undefined].
    split; [apply sortDefault_ascending|].
    unfold sortDefault. rewrite sort_Permutation.
    symmetry. apply Permutation_cons_append.
  - intros index value Hlt. unfold blurColor.
    rewrite (proj2 (Nat.ltb_lt _ _) Hlt). eexists. split; [reflexivity|].
    split; [apply sortDefault_ascending|].
    assert (Hperm : Permutation
                      (sortDefault (firstn index colors ++
                                    value :: skipn (S index) colors))
                      (value :: deleteColor index colors)).
    { unfold sortDefault, deleteColor. rewrite sort_Permutation.
      symmetry. apply Permutation_middle. }
    split; [|assumption].
    rewrite (Permutation_length Hperm). cbn [List.length].
    unfold deleteColor. rewrite length_app, length_firstn, length_skipn. lia.
Qed.

Lemma default_sort_handlers_witness :
  ascending (addPromptedColor (Some "#00ff00") ["#ff0000"; "#0000ff"]).
Proof.
  apply (default_sort_handlers ["#ff0000"; "#0000ff"]). discriminate.
Defined.

(** *** Colours with more than six digits *)

Lemma to_int32_range (x : number) :
  (- 2 ^ 31 <= to_int32 x < 2 ^ 31)%Z.
Proof.
  destruct x as [z| |n]; cbn [to_int32];
    [|change (2 ^ 31)%Z with 2147483648%Z; lia..].
  pose proof (Z.mod_pos_bound z (2 ^ 32) eq_refl) as Hm.
  change (2 ^ 32)%Z with 4294967296%Z in *.
  change (2 ^ 31)%Z with 2147483648%Z.
  destruct (z mod 4294967296 <? 2147483648)%Z eqn:E.
  - apply Z.ltb_lt in E. lia.
  - apply Z.ltb_ge in E. lia.
Qed.

Lemma to_int32_signed (z : Z) :
  (- 2 ^ 31 <= z < 2 ^ 31)%Z -> to_int32 (Fin z) = z.
Proof.
  change (2 ^ 31)%Z with 2147483648%Z. intros H. cbn [to_int32].
  change (2 ^ 32)%Z with 4294967296%Z. change (2 ^ 31)%Z with 2147483648%Z.
  destruct (z mod 4294967296 <? 2147483648)%Z eqn:E.
  - apply Z.ltb_lt in E. Z.to_euclidean_division_equations. lia.
  - apply Z.ltb_ge in E. Z.to_euclidean_division_equations. lia.
Qed.

Lemma to_int32_congruent (z : Z) :
  exists t, to_int32 (Fin z) = (z + 4294967296 * t)%Z.
Proof.
  cbn [to_int32]. change (2 ^ 32)%Z with 4294967296%Z.
  pose proof (Z.div_mod z 4294967296 ltac:(lia)) as Hdm.
  destruct (z mod 4294967296 <? 2 ^ 31)%Z.
  - exists (- (z / 4294967296))%Z. lia.
  - exists (- (z / 4294967296) - 1)%Z. lia.
Qed.

(** The channels are bits 16 to 23, 8 to 15 and 0 to 7 of the number,
    whatever its size. *)
Lemma channels_of_number (v : Z) :
  bitand (Fin (shr (Fin v) 16)) (Fin 255) = ((v / 65536) mod 256)%Z /\
  bitand (Fin (shr (Fin v) 8)) (Fin 255) = ((v / 256) mod 256)%Z /\
  bitand (Fin v) (Fin 255) = (v mod 256)%Z.
Proof.
  destruct (to_int32_congruent v) as [t Ht].
  pose proof (to_int32_range (Fin v)) as Hr.
  change (2 ^ 31)%Z with 2147483648%Z in Hr.
  rewrite !bitand_255. unfold shr.
  change (16 mod 32)%Z with 16%Z. change (8 mod 32)%Z with 8%Z.
  rewrite !Z.shiftr_div_pow2 by lia.
  change (2 ^ 16)%Z with 65536%Z. change (2 ^ 8)%Z with 256%Z.
  set (w := to_int32 (Fin v)) in *.
  rewrite !to_int32_signed
    by (change (2 ^ 31)%Z with 2147483648%Z;
        Z.to_euclidean_division_equations; lia).
  repeat split; Z.to_euclidean_division_equations; lia.
Qed.

Lemma digits_value_bound (ds : list Z) :
  Forall (fun d => 0 <= d < 16)%Z ds ->
  forall acc, (0 <= acc)%Z ->
    (0 <= fold_left (fun a d => a * 16 + d) ds acc <
     (acc + 1) * 16 ^ Z.of_nat (List.length ds))%Z.
Proof.
  induction 1 as [|d ds Hd Hds IH]; intros acc Hacc.
  - cbn. lia.
  - cbn [fold_left List.length]. specialize (IH (acc * 16 + d)%Z ltac:(lia)).
    rewrite Nat2Z.inj_succ, Z.pow_succ_r by lia.
    split; [lia|]. eapply Z.lt_le_trans; [apply IH|].
    assert (0 < 16 ^ Z.of_nat (List.length ds))%Z by (apply Z.pow_pos_nonneg; lia).
    nia.
Qed.

(** X14.  From two to thirteen hex digits (other than three), with or
    without [#], [hexToRGB] keeps the low 24 bits of the number they
    write: of eight digits it returns the last six, so the channels of a
    colour written with an alpha channel are shifted by one place. *)
Theorem hexToRGB_low_24_bits (hex : string) :
  let ds := strip_hash (chars hex) in
  let v := digits_value 16 (map hex_value ds) in
  forallb is_hex_digit ds = true ->
  2 <= List.length ds <= 13 -> List.length ds <> 3 ->
  hexToRGB hex = mkRGB ((v / 65536) mod 256) ((v / 256) mod 256) (v mod 256) /\
  (List.length ds = 8 ->
   hexToRGB hex =
   mkRGB (hex_value (nth 2 ds "0"%char) * 16 + hex_value (nth 3 ds "0"%char))
         (hex_value (nth 4 ds "0"%char) * 16 + hex_value (nth 5 ds "0"%char))
         (hex_value (nth 6 ds "0"%char) * 16 + hex_value (nth 7 ds "0"%char))).
Proof.
  intros ds v Hd Hlen H3.
  assert (Hvals : Forall (fun d => 0 <= d < 16)%Z (map hex_value ds)).
  { apply Forall_forall. intros d Hin. apply in_map_iff in Hin as (c & <- & Hc).
    rewrite forallb_forall in Hd. now apply hex_digit_facts, Hd. }
  assert (Hv : (0 <= v < 2 ^ 52)%Z).
  { pose proof (digits_value_bound _ Hvals 0%Z ltac:(lia)) as Hb.
    fold (digits_value 16 (map hex_value ds)) in Hb. fold v in Hb.
    rewrite length_map in Hb. split; [lia|].
    eapply Z.lt_le_trans; [apply Hb|].
    change (2 ^ 52)%Z with (16 ^ 13)%Z. rewrite Z.mul_1_l.
    apply Z.pow_le_mono_r; lia. }
  assert (Hrgb : hexToRGB hex =
                 mkRGB ((v / 65536) mod 256) ((v / 256) mod 256) (v mod 256)).
  { unfold hexToRGB. rewrite replace_hash. fold ds. rewrite length_text.
    rewrite (proj2 (Nat.eqb_neq _ _) H3).
    destruct ds as [|c1 [|c2 l]] eqn:E; [cbn in Hlen; lia | cbn in Hlen; lia|].
    rewrite (parseInt_hex c1 c2 l Hd). fold v.
    rewrite round_double_small
      by (change (2 ^ 53)%Z with (2 * 2 ^ 52)%Z; lia).
    destruct (channels_of_number v) as (Hr & Hg & Hb).
    now rewrite Hr, Hg, Hb. }
  split; [assumption|].
  intros H8. rewrite Hrgb.
  destruct ds as [|c1 [|c2 [|c3 [|c4 [|c5 [|c6 [|c7 [|c8 [|c9 l]]]]]]]]];
    try discriminate H8.
  cbn [nth]. rewrite Forall_forall in Hvals.
  assert (Hc : forall c, In c [c1; c2; c3; c4; c5; c6; c7; c8] ->
                         (0 <= hex_value c < 16)%Z)
    by (intros c Hin; apply Hvals; now apply in_map).
  pose proof (Hc c1 ltac:(cbn; tauto)). pose proof (Hc c2 ltac:(cbn; tauto)).
  pose proof (Hc c3 ltac:(cbn; tauto)). pose proof (Hc c4 ltac:(cbn; tauto)).
  pose proof (Hc c5 ltac:(cbn; tauto)). pose proof (Hc c6 ltac:(cbn; tauto)).
  pose proof (Hc c7 ltac:(cbn; tauto)). pose proof (Hc c8 ltac:(cbn; tauto)).
  subst v. unfold digits_value. cbn [map fold_left].
  f_equal; Z.to_euclidean_division_equations; lia.
Qed.

Lemma hexToRGB_low_24_bits_witness :
  hexToRGB "#11223344" = mkRGB 34 51 68.
Proof.
  apply (hexToRGB_low_24_bits "#11223344"); try reflexivity; cbn; lia.
Defined.

(** *** A mark whose content runs over a line end *)

Lemma star_none_until cl (k : cont) caps x (l : list ascii) c rest :
  (forall p s, match s with [] => True | a :: _ => Ascii.eqb x a = false end ->
               k p s caps = None) ->
  lacksl x l = true ->
  class_matches cl c = false ->
  forall pos,
    k (pos + List.length l) (c :: rest) caps = None ->
    star cl k caps pos (l ++ c :: rest) = None.
Proof.
  intros Hk Hl Hc. induction l as [|a l IH]; intros pos Hstop.
  - cbn [app]. rewrite star_stop by exact Hc.
    cbn [List.length] in Hstop. now rewrite Nat.add_0_r in Hstop.
  - cbn [lacksl forallb] in Hl. apply andb_true_iff in Hl as [Ha Hl].
    apply negb_true_iff in Ha. cbn [app].
    apply star_none_cons; [|now apply Hk].
    apply (IH Hl). cbn [List.length] in Hstop.
    now rewrite Nat.add_succ_r in Hstop.
Qed.

Lemma scan_miss r pos c s :
  match_at r pos (c :: s) = None ->
  scan r pos 0 (c :: s) = scan r (S pos) 0 s.
Proof. intros H. cbn [scan]. now rewrite H. Qed.

Lemma terminator_not_lt (c : ascii) :
  is_line_terminator c = true -> Ascii.eqb "<" c = false.
Proof.
  intros H. destruct (Ascii.eqb "<" c) eqn:E; [|reflexivity].
  apply Ascii.eqb_eq in E. subst c. discriminate H.
Qed.

Lemma mark_no_match_multiline (attrs before rest : list ascii) (c : ascii)
      (pos : nat) :
  lacksl gt attrs = true ->
  lacksl "<" before = true ->
  forallb (fun a => negb (is_line_terminator a)) before = true ->
  is_line_terminator c = true ->
  match_at markRegex pos
           (chars "<mark" ++ attrs ++ ">"%char :: before ++ c :: rest) = None.
Proof.
  intros Hattrs Hbefore Hline Hc.
  unfold match_at, markRegex. cbn [seq_of m]. unfold lit at 1.
  rewrite m_lit. cbn [m].
  apply (star_none_until _ _ _ gt).
  - intros p s Hs. apply atom_fail. destruct s; [exact I | exact Hs].
  - exact Hattrs.
  - reflexivity.
  - rewrite atom_ok by reflexivity.
    rewrite lazy_star_skip.
    + cbn [lazy_star].
      rewrite (m_first_char (lit "</mark>") "<"%char)
        by (reflexivity || now apply terminator_not_lt).
      unfold class_matches. now rewrite Hc.
    + exact Hline.
    + intros a p t Hin. apply (m_first_char _ "<"%char); [reflexivity|].
      unfold lacksl in Hbefore. rewrite forallb_forall in Hbefore.
      now apply negb_true_iff, Hbefore.
Qed.

Lemma close_tag_no_mark (rest : list ascii) (pos : nat) :
  match_at markRegex pos ("<"%char :: chars "/mark>" ++ rest) = None.
Proof.
  unfold match_at, markRegex. cbn [seq_of m]. unfold lit at 1.
  now apply m_lit_second.
Qed.

(** X15.  A mark element whose content has a line terminator is no match
    of the mark pattern: in a document where it is the only [<mark],
    [countMarkElements] is 0, so a highlight made on a selection that runs
    over a line end is not counted by the next toggle. *)
Theorem multiline_mark_not_counted (pre attrs before after post : string)
        (c : ascii) (view : MarkdownView) :
  lacks "<" pre = true -> lacks "<" attrs = true -> lacks gt attrs = true ->
  lacks "<" before = true -> single_line before = true ->
  is_line_terminator c = true ->
  lacks "<" after = true -> lacks "<" post = true ->
  data view = (pre ++ mark_text attrs (before ++ String c after) ++ post)%string ->
  mark_spans (data view) = [] /\ countMarkElements view = 0.
Proof.
  intros Hpre Hattrs Hgt Hbefore Hline Hc Hafter Hpost Hdata.
  assert (Hspans : mark_spans (data view) = []).
  { rewrite Hdata, mark_spans_scan, !chars_app, chars_mark_text.
    rewrite (scan_plain markRegex "<"%char eq_refl (chars pre) _ _ Hpre).
    cbn [app].
    rewrite scan_miss.
    2:{ rewrite mark_tail_app, chars_app. cbn [chars list_ascii_of_string].
        fold (chars after). rewrite <- app_assoc. cbn [app].
        now apply mark_no_match_multiline. }
    unfold mark_tail. rewrite chars_app. cbn [chars list_ascii_of_string].
    fold (chars after).
    replace ((("m"%char :: "a"%char :: "r"%char :: "k"%char :: nil) ++
              chars attrs ++
              ">"%char :: (chars before ++ c :: chars after) ++
              "<"%char :: "/"%char :: "m"%char :: "a"%char :: "r"%char ::
              "k"%char :: ">"%char :: nil) ++ chars post)
      with ((chars "mark" ++ chars attrs ++ ">"%char :: chars before ++
             c :: chars after) ++
            "<"%char :: chars "/mark>" ++ chars post)
      by (cbn [chars list_ascii_of_string app];
          repeat (cbn [app]; rewrite <- app_assoc); reflexivity).
    rewrite (scan_plain markRegex "<"%char eq_refl).
    - rewrite scan_miss by apply close_tag_no_mark.
      rewrite <- (app_nil_r (chars "/mark>" ++ chars post)).
      rewrite (scan_plain markRegex "<"%char eq_refl).
      + now rewrite (scan_end markRegex "<"%char eq_refl).
      + rewrite lacksl_app. apply andb_true_iff. now split.
    - rewrite !lacksl_app. cbn [lacksl forallb].
      fold (lacksl "<" (chars before ++ c :: chars after)).
      rewrite lacksl_app. cbn [lacksl forallb].
      rewrite (terminator_not_lt c Hc).
      unfold lacks in *. fold (lacksl "<" (chars after)).
      now rewrite Hattrs, Hbefore, Hafter. }
  split; [assumption|].
  now rewrite countMarkElements_spans, Hspans.
Qed.

Lemma multiline_mark_not_counted_witness :
  mark_spans (data (oneLineView
     (mark_text (first_attrs 0 (Some "#ff0000")) (String "a" (String "010" "b")))
     0 0))
  = [] /\
  countMarkElements (oneLineView
     (mark_text (first_attrs 0 (Some "#ff0000")) (String "a" (String "010" "b")))
     0 0) = 0.
Proof.
  apply (multiline_mark_not_counted EmptyString (first_attrs 0 (Some "#ff0000"))
           "a" "b" EmptyString "010"%char); reflexivity.
Defined.
